(** * CopperSplice: circuit identifiers, pair allocation, splice matching

    A shallow embedding of the pair-allocation core of the copper cable
    splicing application:

    - [shared/schema.ts]: [getBinderNumber], [getPairPositionInBinder],
      [parseCircuitId], [parseCircuitIdParts], [circuitIdsOverlap];
    - [normalizeCircuitId];
    - [client/src/components/CircuitManagement.tsx]: [handleCheckboxChange],
      [parseAndCheckCircuitId], [handleAddCircuit], [handleSaveEdit],
      [getBinderAndPairDisplay], [getColorForNumber], [totalAssignedPairs],
      [validationStatus];
    - [shared/schema.ts]: [pairColors], [getPairColor];
    - [client/src/pages/Home.tsx]: [sortedCables], [splicedCircuits],
      [allFullBinders], [totalSpliceRows] and the rows of the splice tabs;
    - the fiber-based version of the component: [handleCheckboxChange] and
      [handleConfirmFeedSelection] of its feed selection dialog.

    JavaScript strings are modelled as [string] (sequences of code units
    below 256). A JavaScript number that holds an integer is modelled as an
    exact [Z], which is what the code computes within the exactly
    represented integers of a double, below 2^53; a statement that names
    the integer a numeral stands for carries that bound ([safeNumeral],
    [exactNumbers]). A number that may be [NaN] has the type [number]. A
    thrown error is a result [None]. *)

From Stdlib Require Import ZArith Ascii String Lia Bool.
From Stdlib Require Import Numbers.DecimalString.
From Stdlib Require Numbers.DecimalPos.
From stdpp Require Import strings list.

Open Scope string_scope.
Open Scope Z_scope.
Open Scope list_scope.

#[local] Arguments String.append !s1 s2 : simpl nomatch.

(** ** JavaScript string primitives *)

Module JS.

Definition code (c : ascii) : Z := Z.of_N (N_of_ascii c).

(** WhiteSpace and LineTerminator code units below 256: TAB, LF, VT, FF, CR,
    SP and NBSP.  This is the class removed by [String.prototype.trim],
    skipped by [parseInt] and matched by the regular expression [\s]. *)
Definition isWhiteSpace (c : ascii) : bool :=
  ((9 <=? code c) && (code c <=? 13)) || (code c =? 32) || (code c =? 160).

(** The regular expression class [\d]. *)
Definition isDigit (c : ascii) : bool :=
  (48 <=? code c) && (code c <=? 57).

Definition comma : ascii := ",".
Definition dash : ascii := "-".

Definition isEmpty (s : string) : bool :=
  match s with
  | EmptyString => true
  | String _ _ => false
  end.

(** [s.trimStart()] *)
Fixpoint trimStart (s : string) : string :=
  match s with
  | EmptyString => EmptyString
  | String c r => if isWhiteSpace c then trimStart r else s
  end.

(** [s.trimEnd()] *)
Fixpoint trimEnd (s : string) : string :=
  match s with
  | EmptyString => EmptyString
  | String c r =>
      let r' := trimEnd r in
      if isWhiteSpace c && isEmpty r' then EmptyString else String c r'
  end.

(** [s.trim()] *)
Definition trim (s : string) : string := trimEnd (trimStart s).

(** [s.split(sep)] for a one-character separator: never empty, one more
    part than there are separators. *)
Fixpoint split (sep : ascii) (s : string) : list string :=
  match s with
  | EmptyString => [EmptyString]
  | String c r =>
      if Ascii.eqb c sep then EmptyString :: split sep r
      else match split sep r with
           | h :: t => String c h :: t
           | [] => [String c EmptyString]
           end
  end.

(** [s.includes(c)] for a one-character needle. *)
Fixpoint includes (c : ascii) (s : string) : bool :=
  match s with
  | EmptyString => false
  | String a r => Ascii.eqb a c || includes c r
  end.

(** [s.split(/\s+/)]: parts separated by maximal runs of white space.
    [inRun] tells that the previous character already opened a run. *)
Fixpoint splitWs (inRun : bool) (s : string) : list string :=
  match s with
  | EmptyString => [EmptyString]
  | String c r =>
      if isWhiteSpace c then
        if inRun then splitWs true r else EmptyString :: splitWs true r
      else match splitWs false r with
           | h :: t => String c h :: t
           | [] => [String c EmptyString]
           end
  end.

Definition splitWhitespace (s : string) : list string := splitWs false s.

(** [parts.join('')] *)
Definition joinEmpty (parts : list string) : string :=
  fold_right String.append EmptyString parts.

(** The longest prefix of decimal digits, and what follows it. *)
Fixpoint spanDigits (s : string) : string * string :=
  match s with
  | EmptyString => (EmptyString, EmptyString)
  | String c r =>
      if isDigit c then
        let '(d, rest) := spanDigits r in (String c d, rest)
      else (EmptyString, s)
  end.

(** [s.match(/^(\d+)-(\d+)$/)]: the two captured groups. Both groups are
    greedy and are followed by a character that is not a digit, so no
    backtracking can succeed where the greedy choice fails. *)
Definition matchRangeAnchored (s : string) : option (string * string) :=
  let '(d1, r1) := spanDigits s in
  match d1, r1 with
  | String _ _, String c r2 =>
      if Ascii.eqb c dash then
        let '(d2, r3) := spanDigits r2 in
        match d2, r3 with
        | String _ _, EmptyString => Some (d1, d2)
        | _, _ => None
        end
      else None
  | _, _ => None
  end.

(** [s.match(/(\d+)-(\d+)$/)]: the leftmost position where the anchored
    pattern matches the rest of the string. *)
Fixpoint matchRangeAtEnd (s : string) : option (string * string) :=
  match matchRangeAnchored s with
  | Some m => Some m
  | None =>
      match s with
      | EmptyString => None
      | String _ r => matchRangeAtEnd r
      end
  end.

(** A JavaScript number holding an integer, or [NaN]. The integer is kept
    exactly: what a number does beyond 2^53, rounding and [Infinity], is
    not modelled. *)
Inductive number := NaN | Num (z : Z).

(** The value of a character as a digit of radix [R], if it is one. *)
Definition digitOfRadix (R : Z) (c : ascii) : option Z :=
  let n := code c in
  let v :=
    if (48 <=? n) && (n <=? 57) then Some (n - 48)
    else if (97 <=? n) && (n <=? 122) then Some (n - 87)
    else if (65 <=? n) && (n <=? 90) then Some (n - 55)
    else None in
  match v with
  | Some d => if d <? R then Some d else None
  | None => None
  end.

(** The number denoted by the longest prefix of radix-[R] digits, read
    from left to right with [acc] the value read so far; [NaN] when that
    prefix is empty. *)
Fixpoint radixDigits (R : Z) (acc : number) (s : string) : number :=
  match s with
  | EmptyString => acc
  | String c r =>
      match digitOfRadix R c with
      | Some d =>
          radixDigits R (Num (R * match acc with Num a => a | NaN => 0 end + d)) r
      | None => acc
      end
  end.

Definition stripHexPrefix (s : string) : option string :=
  match s with
  | String z (String x r) =>
      if Ascii.eqb z "0" && (Ascii.eqb x "x" || Ascii.eqb x "X")
      then Some r else None
  | _ => None
  end.

Definition radixAbsent (radix : option Z) : bool :=
  match radix with
  | None => true
  | Some _ => false
  end.

Definition numScale (k : Z) (a : number) : number :=
  match a with
  | Num x => Num (k * x)
  | NaN => NaN
  end.

(** [parseInt(s, radix)]; [radix = None] is the one-argument call. Leading
    white space is skipped, a sign is read, a [0x] prefix selects radix 16
    when the radix is absent or 16, and the longest digit prefix is read.
    The result is the integer that the digits stand for; it is the number
    the code gets as long as that integer is below 2^53. *)
Definition parseInt (radix : option Z) (s : string) : number :=
  let s1 := trimStart s in
  let '(sign, s2) :=
    match s1 with
    | String c r =>
        if Ascii.eqb c "-" then (-1, r)
        else if Ascii.eqb c "+" then (1, r)
        else (1, s1)
    | EmptyString => (1, s1)
    end in
  let R0 := default 10 radix in
  let '(R, s3) :=
    if (R0 =? 16) || radixAbsent radix then
      match stripHexPrefix s2 with
      | Some r => (16, r)
      | None => (R0, s2)
      end
    else (R0, s2) in
  numScale sign (radixDigits R NaN s3).

(** Arithmetic and comparison of numbers: [NaN] propagates through
    arithmetic and makes every comparison false. *)
Definition numAdd (a b : number) : number :=
  match a, b with
  | Num x, Num y => Num (x + y)
  | _, _ => NaN
  end.

Definition numSub (a b : number) : number :=
  match a, b with
  | Num x, Num y => Num (x - y)
  | _, _ => NaN
  end.

Definition numLe (a b : number) : bool :=
  match a, b with
  | Num x, Num y => x <=? y
  | _, _ => false
  end.

Definition numGe (a b : number) : bool := numLe b a.

Definition isNaN (a : number) : bool :=
  match a with
  | NaN => true
  | Num _ => false
  end.

(** [String(z)] for an integer, in decimal digits; the code prints a
    number from 10^21 on in exponent form. *)
Definition showZ (z : Z) : string := NilZero.string_of_int (Z.to_int z).

(** [String(a)], as a template literal renders a number. *)
Definition showNumber (a : number) : string :=
  match a with
  | NaN => "NaN"
  | Num z => showZ z
  end.

(** The double-quote character, as a one-character string. *)
Definition dq : string := String (ascii_of_nat 34) EmptyString.

End JS.

Import JS.

(** ** shared/schema.ts *)

Module Schema.

Inductive CableType := Feed | Distribution.

Record Cable := mkCable {
  cable_id : string;
  cable_name : string;
  fiberCount : Z;
  ribbonSize : Z;
  cable_type : CableType
}.

Record Circuit := mkCircuit {
  id : string;
  cableId : string;
  circuitId : string;
  position : Z;
  fiberStart : Z;
  fiberEnd : Z;
  isSpliced : Z;
  feedCableId : option string;
  feedFiberStart : option Z;
  feedFiberEnd : option Z
}.

(** [Math.ceil(a / b)] on integers, for a positive divisor. *)
Definition ceilDiv (a b : Z) : Z := - ((- a) / b).

Definition getBinderNumber (pairNumber binderSize : Z) : Z :=
  ceilDiv pairNumber binderSize.

(** The remainder operator of JavaScript truncates towards zero. *)
Definition getPairPositionInBinder (pairNumber binderSize : Z) : Z :=
  Z.rem (pairNumber - 1) binderSize.

(** [parseInt(m, 10)] on a captured group of digits, which is never [NaN]
    (see [parseInt_digits]); exact as [parseInt] is, below 2^53. *)
Definition decimal (s : string) : Z :=
  match parseInt (Some 10) s with
  | Num z => z
  | NaN => 0
  end.

(** [parseCircuitId]: the pair count; [None] stands for the thrown error. *)
Definition parseCircuitId (circuitId : string) : option Z :=
  match matchRangeAtEnd circuitId with
  | None => None
  | Some (m1, m2) =>
      let start := decimal m1 in
      let end_ := decimal m2 in
      Some (end_ - start + 1)
  end.

Record CircuitIdParts := mkParts {
  prefix : string;
  rangeStart : Z;
  rangeEnd : Z
}.

(** [parseCircuitIdParts]; [None] stands for either thrown error. *)
Definition parseCircuitIdParts (circuitId : string) : option CircuitIdParts :=
  match split comma circuitId with
  | [p0; p1] =>
      match matchRangeAnchored (trim p1) with
      | None => None
      | Some (m1, m2) =>
          Some {| prefix := trim p0;
                  rangeStart := decimal m1;
                  rangeEnd := decimal m2 |}
      end
  | _ => None
  end.

(** [circuitIdsOverlap]: the [catch] turns either parse failure into
    [false]. *)
Definition circuitIdsOverlap (circuitId1 circuitId2 : string) : bool :=
  match parseCircuitIdParts circuitId1 with
  | None => false
  | Some parts1 =>
      match parseCircuitIdParts circuitId2 with
      | None => false
      | Some parts2 =>
          if negb (String.eqb (prefix parts1) (prefix parts2)) then false
          else (rangeStart parts1 <=? rangeEnd parts2)
               && (rangeStart parts2 <=? rangeEnd parts1)
      end
  end.

End Schema.

Import Schema.

(** ** normalizeCircuitId *)

Definition normalizeCircuitId (input : string) : string :=
  let trimmed := trim input in
  if includes comma trimmed then trimmed
  else
    let parts := splitWhitespace trimmed in
    if (length parts <? 3)%nat then trimmed
    else
      let rangeEnd := default EmptyString (parts !! (length parts - 1)%nat) in
      let rangeStart := default EmptyString (parts !! (length parts - 2)%nat) in
      let prefix := joinEmpty (take (length parts - 2) parts) in
      prefix +:+ "," +:+ rangeStart +:+ "-" +:+ rangeEnd.

(** ** client/src/components/CircuitManagement.tsx *)

Module CircuitManagement.

(** What a handler does: it shows one toast, or it starts one mutation
    (a request to the storage layer). *)
Record Toast := mkToast {
  title : string;
  description : option string
}.

Inductive Mutation :=
| CreateCircuit (cableId circuitId : string)
| UpdateCircuitId (id circuitId : string)
| ToggleSpliced (circuitId : string) (feedCableId : option string)
    (feedFiberStart feedFiberEnd : option number).

Inductive Effect :=
| ShowToast (t : Toast)
| Mutate (m : Mutation).

(** [allCables.find(cable => cable.id === c.cableId)] *)
Definition owningCable (allCables : list Cable) (c : Circuit) : option Cable :=
  List.find (fun cable => String.eqb (cable_id cable) (cableId c)) allCables.

Definition isFeedCableOf (allCables : list Cable) (c : Circuit) : bool :=
  match owningCable allCables c with
  | Some feedCable =>
      match cable_type feedCable with
      | Feed => true
      | Distribution => false
      end
  | None => false
  end.

(** The callback given to [allCircuits.find] in [handleCheckboxChange]. *)
Definition isMatchingFeedCircuit (allCables : list Cable)
    (distributionPrefix : string) (distStart distEnd : number)
    (c : Circuit) : bool :=
  if negb (isFeedCableOf allCables c) then false
  else
    match split comma (circuitId c) with
    | [f0; f1] =>
        let feedPrefix := trim f0 in
        if negb (String.eqb feedPrefix distributionPrefix) then false
        else
          match split dash (trim f1) with
          | [r0; r1] =>
              let feedStart := parseInt None r0 in
              let feedEnd := parseInt None r1 in
              numGe distStart feedStart && numLe distEnd feedEnd
          | _ => false
          end
    | _ => false
    end.

(** [allCircuits.find(c => ...)] in [handleCheckboxChange]. *)
Definition findMatchingFeedCircuit (allCables : list Cable)
    (allCircuits : list Circuit) (distributionPrefix : string)
    (distStart distEnd : number) : option Circuit :=
  List.find (isMatchingFeedCircuit allCables distributionPrefix
               distStart distEnd) allCircuits.

Definition noMatchDescription (distributionPrefix : string)
    (distStart distEnd : number) : string :=
  "Could not find a Feed circuit with prefix " +:+ dq +:+ distributionPrefix
  +:+ dq +:+ " that contains the range " +:+ showNumber distStart +:+ "-"
  +:+ showNumber distEnd.

Definition handleCheckboxChange (cable : Cable) (allCables : list Cable)
    (allCircuits : list Circuit) (circuit : Circuit) (checked : bool)
    : Effect :=
  match cable_type cable, checked with
  | Distribution, true =>
      match split comma (circuitId circuit) with
      | [d0; d1] =>
          let distributionPrefix := trim d0 in
          match split dash (trim d1) with
          | [dr0; dr1] =>
              let distStart := parseInt None dr0 in
              let distEnd := parseInt None dr1 in
              match findMatchingFeedCircuit allCables allCircuits
                      distributionPrefix distStart distEnd with
              | None =>
                  ShowToast
                    {| title := "No matching Feed circuit found";
                       description :=
                         Some (noMatchDescription distributionPrefix
                                 distStart distEnd) |}
              | Some matchingFeedCircuit =>
                  let feedCable := owningCable allCables matchingFeedCircuit in
                  let feedParts := split comma (circuitId matchingFeedCircuit) in
                  let feedRangeParts :=
                    split dash (trim (default EmptyString (feedParts !! 1%nat))) in
                  let feedStart :=
                    parseInt None (default EmptyString (feedRangeParts !! 0%nat)) in
                  let offsetFromFeedStart := numSub distStart feedStart in
                  let offsetFromFeedEnd := numSub distEnd feedStart in
                  let calculatedFeedPairStart :=
                    numAdd (Num (fiberStart matchingFeedCircuit))
                           offsetFromFeedStart in
                  let calculatedFeedPairEnd :=
                    numAdd (Num (fiberStart matchingFeedCircuit))
                           offsetFromFeedEnd in
                  Mutate (ToggleSpliced (id circuit)
                            (cable_id <$> feedCable)
                            (Some calculatedFeedPairStart)
                            (Some calculatedFeedPairEnd))
              end
          | _ =>
              ShowToast {| title := "Invalid circuit ID range format";
                           description := None |}
          end
      | _ =>
          ShowToast {| title := "Invalid circuit ID format";
                       description := None |}
      end
  | _, _ => Mutate (ToggleSpliced (id circuit) None None None)
  end.

Inductive Validation :=
| Valid
| Invalid (error : string).

Definition isExcluded (excludeCircuitId : option string) (circuit : Circuit)
    : bool :=
  match excludeCircuitId with
  | Some e => negb (isEmpty e) && String.eqb (id circuit) e
  | None => false
  end.

(** One turn of the loop of [parseAndCheckCircuitId]: does this existing
    circuit make the loop return the overlap error? Every [continue] is a
    [false]. *)
Definition overlapsExisting (newPrefix : string) (newStart newEnd : number)
    (excludeCircuitId : option string) (circuit : Circuit) : bool :=
  if isExcluded excludeCircuitId circuit then false
  else
    match split comma (circuitId circuit) with
    | [e0; e1] =>
        let existingPrefix := trim e0 in
        match split dash (trim e1) with
        | [er0; er1] =>
            let existingStart := parseInt None er0 in
            let existingEnd := parseInt None er1 in
            if isNaN existingStart || isNaN existingEnd then false
            else
              String.eqb newPrefix existingPrefix
              && numLe newStart existingEnd && numGe newEnd existingStart
        | _ => false
        end
    | _ => false
    end.

Definition overlapError (newCircuitId existing : string) : string :=
  "Circuit ID " +:+ dq +:+ newCircuitId +:+ dq
  +:+ " overlaps with existing circuit " +:+ dq +:+ existing +:+ dq
  +:+ ". Ranges cannot overlap for the same prefix.".

Definition parseAndCheckCircuitId (circuits : list Circuit)
    (newCircuitId : string) (excludeCircuitId : option string)
    : Validation :=
  match split comma newCircuitId with
  | [p0; p1] =>
      let newPrefix := trim p0 in
      let newRange := trim p1 in
      match split dash newRange with
      | [nr0; nr1] =>
          let newStart := parseInt None nr0 in
          let newEnd := parseInt None nr1 in
          if isNaN newStart || isNaN newEnd then
            Invalid "Range values must be numbers"
          else
            match List.find (overlapsExisting newPrefix newStart newEnd
                               excludeCircuitId) circuits with
            | Some circuit =>
                Invalid (overlapError newCircuitId (circuitId circuit))
            | None => Valid
            end
      | _ =>
          Invalid ("Invalid range format. Expected format: " +:+ dq
                   +:+ "start-end" +:+ dq)
      end
  | _ =>
      Invalid ("Invalid circuit ID format. Expected format: " +:+ dq
               +:+ "prefix,start-end" +:+ dq)
  end.

(** [handleSaveEdit]: [circuits] are the circuits of the cable shown,
    [editingCircuitValue] the text of the input field. *)
Definition handleSaveEdit (circuits : list Circuit) (circuitId : string)
    (editingCircuitValue : string) : Effect :=
  if isEmpty (trim editingCircuitValue) then
    ShowToast {| title := "Circuit ID required";
                 description := Some "Please enter a valid circuit ID" |}
  else
    match parseAndCheckCircuitId circuits (trim editingCircuitValue)
            (Some circuitId) with
    | Invalid error =>
        ShowToast {| title := "Invalid Circuit ID";
                     description := Some error |}
    | Valid => Mutate (UpdateCircuitId circuitId editingCircuitValue)
    end.

(** [handleAddCircuit]: [circuitId] is the text of the input field. *)
Definition handleAddCircuit (cable : Cable) (circuits : list Circuit)
    (circuitId : string) : Effect :=
  if isEmpty (trim circuitId) then
    ShowToast {| title := "Missing circuit ID";
                 description :=
                   Some "Please enter a circuit ID (e.g., lg,33-36)" |}
  else
    match parseAndCheckCircuitId circuits (trim circuitId) None with
    | Invalid error =>
        ShowToast {| title := "Invalid Circuit ID";
                     description := Some error |}
    | Valid => Mutate (CreateCircuit (cable_id cable) (trim circuitId))
    end.

(** What [getBinderAndPairDisplay] renders, without the colours. *)
Record Segment := mkSegment {
  binder : Z;
  startInBinder : Z;
  endInBinder : Z
}.

Inductive BinderDisplay :=
| OneBinder (seg : Segment)
| BinderSpan (startBinder endBinder : Z)
| BinderParts (parts : list Segment).

Definition getBinderAndPairDisplay (pairStart pairEnd binderSize : Z)
    : BinderDisplay :=
  let startBinder := ceilDiv pairStart binderSize in
  let endBinder := ceilDiv pairEnd binderSize in
  let startPairInBinder := Z.rem (pairStart - 1) binderSize + 1 in
  let endPairInBinder := Z.rem (pairEnd - 1) binderSize + 1 in
  if startBinder =? endBinder then
    OneBinder (mkSegment startBinder startPairInBinder endPairInBinder)
  else
    let startsWithPartialBinder := negb (startPairInBinder =? 1) in
    let endsWithPartialBinder := negb (endPairInBinder =? binderSize) in
    if negb startsWithPartialBinder && negb endsWithPartialBinder then
      BinderSpan startBinder endBinder
    else
      let first :=
        if startsWithPartialBinder
        then [mkSegment startBinder startPairInBinder binderSize] else [] in
      let firstFullBinder :=
        if startsWithPartialBinder then startBinder + 1 else startBinder in
      let lastFullBinder :=
        if endsWithPartialBinder then endBinder - 1 else endBinder in
      let full :=
        (fun r => mkSegment r 1 binderSize)
          <$> seqZ firstFullBinder (lastFullBinder - firstFullBinder + 1) in
      let last :=
        if endsWithPartialBinder
        then [mkSegment endBinder 1 endPairInBinder] else [] in
      BinderParts (first ++ full ++ last).

End CircuitManagement.

Import CircuitManagement.

(** ** The storage layer

    The handlers above send their mutations to the storage layer
    ([apiRequest] of [lib/queryClient]), which keeps the circuits table and
    recomputes the pair ranges. *)

Module Storage.

(** Modelled from the spec: [listCircuitsByCable], the circuits of one
    cable in the order of their [position] (the storage layer is missing;
    section 6 names the operation, section 4.2 the order). *)
Fixpoint insertByPosition (c : Circuit) (l : list Circuit) : list Circuit :=
  match l with
  | [] => [c]
  | x :: r =>
      if position c <=? position x then c :: l
      else x :: insertByPosition c r
  end.

(** Modelled from the spec: the circuits table read in [position] order
    (the storage layer is missing). *)
Definition sortByPosition (l : list Circuit) : list Circuit :=
  fold_right insertByPosition [] l.

(** Modelled from the spec: [listCircuitsByCable] of section 6 (the storage
    layer is missing). *)
Definition listCircuitsByCable (cable : string) (store : list Circuit)
    : list Circuit :=
  sortByPosition (filter (fun c => cableId c = cable) store).

(** Modelled from the spec: [replaceCircuits] of section 6, the circuit
    list of one cable replaced wholesale (the storage layer is missing). *)
Definition replaceCircuits (cable : string) (cs store : list Circuit)
    : list Circuit :=
  filter (fun c => cableId c <> cable) store ++ cs.

Definition setRange (c : Circuit) (s e : Z) : Circuit :=
  {| id := id c; cableId := cableId c; circuitId := circuitId c;
     position := position c; fiberStart := s; fiberEnd := e;
     isSpliced := isSpliced c; feedCableId := feedCableId c;
     feedFiberStart := feedFiberStart c; feedFiberEnd := feedFiberEnd c |}.

Definition setPosition (c : Circuit) (p : Z) : Circuit :=
  {| id := id c; cableId := cableId c; circuitId := circuitId c;
     position := p; fiberStart := fiberStart c; fiberEnd := fiberEnd c;
     isSpliced := isSpliced c; feedCableId := feedCableId c;
     feedFiberStart := feedFiberStart c; feedFiberEnd := feedFiberEnd c |}.

Definition setCircuitId (c : Circuit) (s : string) : Circuit :=
  {| id := id c; cableId := cableId c; circuitId := s;
     position := position c; fiberStart := fiberStart c;
     fiberEnd := fiberEnd c; isSpliced := isSpliced c;
     feedCableId := feedCableId c; feedFiberStart := feedFiberStart c;
     feedFiberEnd := feedFiberEnd c |}.

Definition setSplice (c : Circuit) (spliced : Z) (feed : option string)
    (s e : option Z) : Circuit :=
  {| id := id c; cableId := cableId c; circuitId := circuitId c;
     position := position c; fiberStart := fiberStart c;
     fiberEnd := fiberEnd c; isSpliced := spliced;
     feedCableId := feed; feedFiberStart := s; feedFiberEnd := e |}.

(** Modelled from the spec: [parse] of section 4.1 (the storage layer
    that validates an identifier before it is stored is missing). The
    identifier is normalized, it must have the comma-delimited two-part
    structure with a range of the form digits-digits, which is what the
    schema's [parseCircuitIdParts] accepts, and it is refused with
    FormatError, here [None], when start > end. *)
Definition parse (ident : string) : option CircuitIdParts :=
  match parseCircuitIdParts (normalizeCircuitId ident) with
  | Some p => if rangeStart p <=? rangeEnd p then Some p else None
  | None => None
  end.

(** Modelled from the spec: [pairCount] of section 4.1, end - start + 1 of
    the identifier that [parse] accepts (the storage layer is missing). *)
Definition pairCount (ident : string) : option Z :=
  match parse ident with
  | Some p => Some (rangeEnd p - rangeStart p + 1)
  | None => None
  end.

(** Modelled from the spec: the PositionAllocator of section 4.2 (the
    storage layer that holds it is missing). Walking the circuits in order,
    the first starts at pair [next = 1], each one spans the [pairCount] of
    its identifier, and the following one starts right after it. [None]
    when [parse] refuses an identifier. *)
Fixpoint assignRanges (next : Z) (cs : list Circuit) : option (list Circuit) :=
  match cs with
  | [] => Some []
  | c :: r =>
      match pairCount (circuitId c) with
      | None => None
      | Some n =>
          match assignRanges (next + n) r with
          | None => None
          | Some r' => Some (setRange c next (next + n - 1) :: r')
          end
      end
  end.

Inductive Direction := Up | Down.

Definition mapWhere (P : Circuit -> bool) (f : Circuit -> Circuit)
    (cs : list Circuit) : list Circuit :=
  (fun c => if P c then f c else c) <$> cs.

(** Modelled from the spec: one structural mutation of a cable as section 5
    describes it (the storage layer is missing): read the full list of the
    cable, change it with [f], recompute every range from the new order,
    and write the full list back. [None] when [parse] refuses an identifier
    of the cable; nothing is written then. *)
Definition rewriteCable (cable : string)
    (f : list Circuit -> list Circuit) (store : list Circuit)
    : option (list Circuit) :=
  match assignRanges 1 (sortByPosition (f (listCircuitsByCable cable store))) with
  | None => None
  | Some cs => Some (replaceCircuits cable cs store)
  end.

(** Modelled from the spec: circuit insertion of section 4.2, the new
    circuit appended at [position = count] (the storage layer is missing).
    [newId] is the identity the store gives the record. *)
Definition createCircuit (newId cable ident : string) (store : list Circuit)
    : option (list Circuit) :=
  rewriteCable cable
    (fun cs =>
       cs ++ [mkCircuit newId cable ident (Z.of_nat (length cs))
                0 0 0 None None None])
    store.

Definition hasId (cid : string) (c : Circuit) : bool := String.eqb (id c) cid.

(** Modelled from the spec: circuit deletion of section 4.2, every circuit
    of the cable with a greater [position] shifted down by one, then the
    full recompute (the storage layer is missing). *)
Definition deleteCircuit (cid : string) (store : list Circuit)
    : option (list Circuit) :=
  match List.find (hasId cid) store with
  | None => None
  | Some d =>
      rewriteCable (cableId d)
        (fun cs =>
           mapWhere (fun c => position d <? position c)
                    (fun c => setPosition c (position c - 1))
                    (List.filter (fun c => negb (hasId cid c)) cs))
        store
  end.

(** Modelled from the spec: circuit move of section 4.2, [position]
    swapped with the adjacent circuit in the requested direction, then the
    full recompute; a move at the order boundary is a no-op (the storage
    layer is missing). *)
Definition moveCircuit (cid : string) (dir : Direction) (store : list Circuit)
    : option (list Circuit) :=
  match List.find (hasId cid) store with
  | None => None
  | Some m =>
      let target :=
        match dir with
        | Up => position m - 1
        | Down => position m + 1
        end in
      match List.find (fun c => position c =? target)
                      (listCircuitsByCable (cableId m) store) with
      | None => Some store
      | Some adj =>
          rewriteCable (cableId m)
            (fun cs =>
               mapWhere (hasId (id adj))
                        (fun c => setPosition c (position m))
                 (mapWhere (hasId cid)
                           (fun c => setPosition c target) cs))
            store
      end
  end.

(** Modelled from the spec: identifier edit of section 4.2, the identifier
    replaced and the whole cable recomputed (the storage layer is
    missing). *)
Definition updateCircuitId (cid ident : string) (store : list Circuit)
    : option (list Circuit) :=
  match List.find (hasId cid) store with
  | None => None
  | Some e =>
      rewriteCable (cableId e)
        (mapWhere (hasId cid) (fun c => setCircuitId c ident))
        store
  end.

(** Modelled from the spec: the four structural mutations of section 4.2,
    as requests to the storage layer (which is missing). *)
Inductive Op :=
| AddCircuit (newId cable ident : string)
| DeleteCircuit (cid : string)
| MoveCircuit (cid : string) (dir : Direction)
| EditCircuitId (cid ident : string).

Definition tryOp (op : Op) (store : list Circuit) : option (list Circuit) :=
  match op with
  | AddCircuit newId cable ident => createCircuit newId cable ident store
  | DeleteCircuit cid => deleteCircuit cid store
  | MoveCircuit cid dir => moveCircuit cid dir store
  | EditCircuitId cid ident => updateCircuitId cid ident store
  end.

(** Modelled from the spec: a failed operation is reported and leaves the
    store as it was (section 7; the storage layer is missing). *)
Definition applyOp (store : list Circuit) (op : Op) : list Circuit :=
  default store (tryOp op store).

(** A sequence of operations, carried out from left to right. *)
Definition runOps (ops : list Op) (store : list Circuit) : list Circuit :=
  fold_left applyOp ops store.

(** Modelled from the spec: the ConflictDetector of section 4.5 (the
    toggle-spliced route of the storage layer is missing). Does the circuit
    [o], another circuit than [cid], hold an assignment on feed cable
    [feed] that intersects the candidate range? *)
Definition feedPairConflict (cid feed : string) (s e : Z) (o : Circuit)
    : bool :=
  negb (hasId cid o)
  && match feedCableId o, feedFiberStart o, feedFiberEnd o with
     | Some f, Some existingStart, Some existingEnd =>
         String.eqb f feed && (s <=? existingEnd) && (existingStart <=? e)
     | _, _, _ => false
     end.

(** Modelled from the spec: the outcomes of the splice toggle, section 7
    (the toggle-spliced route is missing). *)
Inductive ToggleResult :=
| Toggled (store : list Circuit)
| FeedPairConflict (conflicting : Circuit)
| ToggleRejected.

(** Modelled from the spec: the splice toggle of sections 4.4 and 4.5 (the
    toggle-spliced route of the storage layer is missing). With a feed
    assignment the conflict check runs on the candidate range first, and
    only then the circuit gets the link and [isSpliced = 1]; without one the
    link is cleared. *)
Definition toggleSpliced (cid : string) (feed : option string)
    (s e : option number) (store : list Circuit) : ToggleResult :=
  match feed, s, e with
  | Some f, Some (Num fs), Some (Num fe) =>
      match List.find (feedPairConflict cid f fs fe) store with
      | Some o => FeedPairConflict o
      | None =>
          Toggled (mapWhere (hasId cid)
                     (fun c => setSplice c 1 (Some f) (Some fs) (Some fe))
                     store)
      end
  | None, None, None =>
      Toggled (mapWhere (hasId cid)
                 (fun c => setSplice c 0 None None None) store)
  | _, _, _ => ToggleRejected
  end.

(** What the user is told at the end of an action. *)
Inductive Report :=
| Done
| Failed (t : Toast)
| Conflict (conflicting : Circuit).

(** Modelled from the spec: what the storage layer does with the effect of
    a handler (the routes behind [apiRequest] are missing). A toast changes
    nothing; a mutation is carried out by the operation of its route, and a
    failed one leaves the store as it was (section 7). [newId] is the
    identity a created record gets. *)
Definition dispatch (newId : string) (e : Effect) (store : list Circuit)
    : list Circuit :=
  match e with
  | ShowToast _ => store
  | Mutate (CreateCircuit cable ident) =>
      applyOp store (AddCircuit newId cable ident)
  | Mutate (UpdateCircuitId cid ident) =>
      applyOp store (EditCircuitId cid ident)
  | Mutate (ToggleSpliced cid feed s e) =>
      match toggleSpliced cid feed s e store with
      | Toggled store' => store'
      | FeedPairConflict _ | ToggleRejected => store
      end
  end.

(** The splice toggle end to end: the checkbox handler of the component,
    then the (modelled) storage layer on the mutation it starts. The result
    is the store afterwards and what the user is told. *)
Definition spliceToggle (cable : Cable) (allCables : list Cable)
    (store : list Circuit) (circuit : Circuit) (checked : bool)
    : list Circuit * Report :=
  match handleCheckboxChange cable allCables store circuit checked with
  | ShowToast t => (store, Failed t)
  | Mutate (ToggleSpliced cid feed s e) =>
      match toggleSpliced cid feed s e store with
      | Toggled store' => (store', Done)
      | FeedPairConflict o => (store, Conflict o)
      | ToggleRejected =>
          (store, Failed {| title := "Failed to toggle splice status";
                            description := None |})
      end
  | Mutate m => (dispatch EmptyString (Mutate m) store, Done)
  end.

End Storage.

Import Storage.

(** ** The identifier grammar, stated on its own

    These predicates say what the spec means by a two-part, comma-delimited
    identifier and by a range of the form digits-digits; the parsers above
    are compared with them below. *)

Fixpoint allDigits (s : string) : bool :=
  match s with
  | EmptyString => true
  | String c r => isDigit c && allDigits r
  end.

(** A non-empty run of decimal digits, the regular expression [\d+]. *)
Definition isNumeral (s : string) : Prop := s <> EmptyString /\ allDigits s = true.

(** The value of a numeral, most significant digit first. *)
Fixpoint digitsValueFrom (acc : Z) (s : string) : Z :=
  match s with
  | EmptyString => acc
  | String c r => digitsValueFrom (10 * acc + (code c - 48)) r
  end.

Definition digitsValue (s : string) : Z := digitsValueFrom 0 s.

(** [s] is [a,b] with exactly one comma. *)
Definition twoParts (s a b : string) : Prop :=
  s = a +:+ String comma b
  /\ includes comma a = false /\ includes comma b = false.

(** [s] is [d1-d2] with two numerals. *)
Definition digitsDashDigits (s d1 d2 : string) : Prop :=
  s = d1 +:+ String dash d2 /\ isNumeral d1 /\ isNumeral d2.

Fixpoint endsWithDigit (s : string) : bool :=
  match s with
  | EmptyString => false
  | String c EmptyString => isDigit c
  | String _ r => endsWithDigit r
  end.

Fixpoint noWhiteSpace (s : string) : bool :=
  match s with
  | EmptyString => true
  | String c r => negb (isWhiteSpace c) && noWhiteSpace r
  end.

Definition headNotSpace (s : string) : bool :=
  match s with
  | EmptyString => true
  | String c _ => negb (isWhiteSpace c)
  end.

(** ** Integers that a number holds exactly

    A JavaScript number holds every integer up to 2^53 - 1,
    [Number.MAX_SAFE_INTEGER], exactly. From there on [parseInt] rounds a
    numeral to the nearest number, and from 309 digits on it gives
    [Infinity], where [JS.parseInt] keeps the exact integer. A statement
    that names the integer a numeral stands for is therefore made for
    numerals up to this bound. *)
Definition maxSafeInteger : Z := 2 ^ 53 - 1.

Definition safeNumeral (d : string) : Prop := digitsValue d <= maxSafeInteger.

(** ** Binder segments, stated on their own *)

(** The absolute pair range of a segment. *)
Definition segmentFirst (b : Z) (seg : Segment) : Z :=
  (binder seg - 1) * b + startInBinder seg.

Definition segmentLast (b : Z) (seg : Segment) : Z :=
  (binder seg - 1) * b + endInBinder seg.

(** The segments, in order, cover the pairs [lo .. hi] with no gap and no
    overlap, each one inside the positions [1 .. b] of its binder. *)
Fixpoint tiles (b lo hi : Z) (segs : list Segment) : Prop :=
  match segs with
  | [] => lo = hi + 1
  | seg :: rest =>
      1 <= startInBinder seg /\ startInBinder seg <= endInBinder seg
      /\ endInBinder seg <= b
      /\ segmentFirst b seg = lo
      /\ tiles b (segmentLast b seg + 1) hi rest
  end.

(** One segment for every binder from that of [lo] to that of [hi]. *)
Definition onePerBinder (b lo hi : Z) (segs : list Segment) : Prop :=
  binder <$> segs
  = seqZ (ceilDiv lo b) (ceilDiv hi b - ceilDiv lo b + 1).

(** What the display says about a range: every pair of it lies in exactly
    one segment, which carries the binder and the positions of the pair. *)
Definition segmentation (lo hi : Z) (segs : list Segment) : Prop :=
  onePerBinder 25 lo hi segs /\ tiles 25 lo hi segs.

(** ** The allocation invariant, stated on its own *)


(** The same with the pair count that the schema's [parseCircuitId] reads
    at the end of an identifier. *)
Fixpoint contiguousFrom (next : Z) (cs : list Circuit) : Prop :=
  match cs with
  | [] => True
  | c :: r =>
      fiberStart c = next
      /\ parseCircuitId (circuitId c) = Some (fiberEnd c - fiberStart c + 1)
      /\ contiguousFrom (fiberEnd c + 1) r
  end.

Fixpoint sortedByPosition (cs : list Circuit) : Prop :=
  match cs with
  | [] => True
  | c :: r => Forall (fun x => position c <= position x) r /\ sortedByPosition r
  end.


Definition inCable (cable : string) (c : Circuit) : Prop := cableId c = cable.

(** Two records that differ at most in their pair range. *)
Definition sameButRange (c c' : Circuit) : Prop :=
  id c' = id c /\ cableId c' = cableId c /\ circuitId c' = circuitId c
  /\ position c' = position c.


(** ** The splice matcher, stated on its own *)

(** How the handlers of the component read an identifier: the two parts
    around its single comma, the first one trimmed, and the two numbers
    around the single dash of the second one. *)
Definition readIdentifier (s : string) : option (string * number * number) :=
  match split comma s with
  | [p0; p1] =>
      match split dash (trim p1) with
      | [r0; r1] => Some (trim p0, parseInt None r0, parseInt None r1)
      | _ => None
      end
  | _ => None
  end.

(** The numbers of a circuit that the checkbox handler computes with, the
    two numbers of its identifier and its first pair, are at most 2^52 in
    absolute value, half of what a number holds exactly: the one
    subtraction and the one addition of the handler are then exact. *)
Definition exactNumbers (c : Circuit) : Prop :=
  Z.abs (fiberStart c) <= 2 ^ 52
  /\ forall p a b,
       readIdentifier (circuitId c) = Some (p, Num a, Num b) ->
       a <= 2 ^ 52 /\ b <= 2 ^ 52.

(** The feed circuit [f] qualifies for a distribution identifier with the
    parts [pd]: its cable is a Feed cable, its prefix is that of [pd], and
    its numeric range contains that of [pd]. *)
Definition qualifies (allCables : list Cable) (pd : CircuitIdParts)
    (f : Circuit) : Prop :=
  (exists cab, owningCable allCables f = Some cab /\ cable_type cab = Feed)
  /\ exists fs fe,
       readIdentifier (circuitId f) = Some (prefix pd, Num fs, Num fe)
       /\ fs <= rangeStart pd /\ rangeEnd pd <= fe.

(** [f] is the first circuit of the list that qualifies. *)
Definition firstQualifying (allCables : list Cable) (pd : CircuitIdParts)
    (allCircuits : list Circuit) (f : Circuit) : Prop :=
  exists before after,
    allCircuits = before ++ f :: after
    /\ qualifies allCables pd f
    /\ Forall (fun c => ~ qualifies allCables pd c) before.

(** The number of occurrences of a character. *)
Fixpoint countChar (c : ascii) (s : string) : nat :=
  match s with
  | EmptyString => O
  | String a r => if Ascii.eqb a c then S (countChar c r) else countChar c r
  end.

(** ** Identifiers of one cable *)

(** The identifiers of a list are pairwise non-overlapping under
    [circuitIdsOverlap]. *)
Fixpoint pairwiseNonOverlapping (ids : list string) : Prop :=
  match ids with
  | [] => True
  | a :: r =>
      Forall (fun b => circuitIdsOverlap a b = false) r
      /\ pairwiseNonOverlapping r
  end.

(** Every pair of [lo .. hi] lies in a segment that carries its binder
    number, [getBinderNumber], and its position within the binder, one more
    than the zero-based [getPairPositionInBinder]. *)
Definition pairsPlaced (lo hi : Z) (segs : list Segment) : Prop :=
  forall p, lo <= p <= hi ->
    exists seg, seg ∈ segs
      /\ binder seg = getBinderNumber p 25
      /\ startInBinder seg <= getPairPositionInBinder p 25 + 1 <= endInBinder seg.

(** ** Cables of the examples *)

Definition feedCable1 : Cable := mkCable "f1" "feed 1" 100 25 Feed.
Definition distCable1 : Cable := mkCable "d1" "dist 1" 50 25 Distribution.
Definition distCable2 : Cable := mkCable "d2" "dist 2" 50 25 Distribution.

(** ** Arrays *)

Module JSArray.

(** [arr[i]] for an integer [i]: [undefined], here [None], outside the
    array. *)
Definition index {A : Type} (arr : list A) (i : Z) : option A :=
  if i <? 0 then None else arr !! Z.to_nat i.

End JSArray.


(** ** shared/schema.ts: the colour code *)

Module ColorCode.

Record PairColor := mkPairColor {
  pair : Z;
  tip : string;
  ring : string
}.

Definition pairColors : list PairColor :=
  [ mkPairColor 1 "white" "blue";
    mkPairColor 2 "white" "orange";
    mkPairColor 3 "white" "green";
    mkPairColor 4 "white" "brown";
    mkPairColor 5 "white" "slate";
    mkPairColor 6 "red" "blue";
    mkPairColor 7 "red" "orange";
    mkPairColor 8 "red" "green";
    mkPairColor 9 "red" "brown";
    mkPairColor 10 "red" "slate";
    mkPairColor 11 "black" "blue";
    mkPairColor 12 "black" "orange";
    mkPairColor 13 "black" "green";
    mkPairColor 14 "black" "brown";
    mkPairColor 15 "black" "slate";
    mkPairColor 16 "yellow" "blue";
    mkPairColor 17 "yellow" "orange";
    mkPairColor 18 "yellow" "green";
    mkPairColor 19 "yellow" "brown";
    mkPairColor 20 "yellow" "slate";
    mkPairColor 21 "violet" "blue";
    mkPairColor 22 "violet" "orange";
    mkPairColor 23 "violet" "green";
    mkPairColor 24 "violet" "brown";
    mkPairColor 25 "violet" "slate" ].

(** [getPairColor]: [undefined], here [None], when the remainder is
    negative. *)
Definition getPairColor (pairIndex : Z) : option PairColor :=
  JSArray.index pairColors (Z.rem pairIndex 25).

End ColorCode.

(** ** client/src/components/CircuitManagement.tsx: colours and totals *)

Module PairDisplay.

Record Color := mkColor {
  tip : string;
  ring : string;
  tipColor : string;
  ringColor : string
}.

Definition pairColors : list Color :=
  [ mkColor "white" "blue" "#64748b" "#3b82f6";
    mkColor "white" "orange" "#64748b" "#f97316";
    mkColor "white" "green" "#64748b" "#16a34a";
    mkColor "white" "brown" "#64748b" "#b45309";
    mkColor "white" "slate" "#64748b" "#64748b";
    mkColor "red" "blue" "#dc2626" "#3b82f6";
    mkColor "red" "orange" "#dc2626" "#f97316";
    mkColor "red" "green" "#dc2626" "#16a34a";
    mkColor "red" "brown" "#dc2626" "#b45309";
    mkColor "red" "slate" "#dc2626" "#64748b";
    mkColor "black" "blue" "#0f172a" "#3b82f6";
    mkColor "black" "orange" "#0f172a" "#f97316";
    mkColor "black" "green" "#0f172a" "#16a34a";
    mkColor "black" "brown" "#0f172a" "#b45309";
    mkColor "black" "slate" "#0f172a" "#64748b";
    mkColor "yellow" "blue" "#facc15" "#3b82f6";
    mkColor "yellow" "orange" "#facc15" "#f97316";
    mkColor "yellow" "green" "#facc15" "#16a34a";
    mkColor "yellow" "brown" "#facc15" "#b45309";
    mkColor "yellow" "slate" "#facc15" "#64748b";
    mkColor "violet" "blue" "#9333ea" "#3b82f6";
    mkColor "violet" "orange" "#9333ea" "#f97316";
    mkColor "violet" "green" "#9333ea" "#16a34a";
    mkColor "violet" "brown" "#9333ea" "#b45309";
    mkColor "violet" "slate" "#9333ea" "#64748b" ].

(** [getColorForNumber]; the [console.error] of the first branch is not
    modelled. *)
Definition getColorForNumber (num : Z) : option Color :=
  if num <? 1 then JSArray.index pairColors 0
  else JSArray.index pairColors (Z.rem (num - 1) 25).

(** [circuits.reduce((sum, circuit) => sum + (circuit.fiberEnd -
    circuit.fiberStart + 1), 0)] *)
Definition totalAssignedPairs (circuits : list Circuit) : Z :=
  fold_left (fun sum circuit => sum + (fiberEnd circuit - fiberStart circuit + 1))
    circuits 0.

Definition validationStatus (cable : Cable) (circuits : list Circuit) : bool :=
  totalAssignedPairs circuits =? fiberCount cable.

End PairDisplay.


(** ** client/src/pages/Home.tsx *)

Module Home.

Definition isFeed (c : Cable) : bool :=
  match cable_type c with Feed => true | Distribution => false end.

Definition isDistribution (c : Cable) : bool :=
  match cable_type c with Feed => false | Distribution => true end.

(** [sortedCables]: Feed cables first, then Distribution cables. *)
Definition sortedCables (cables : list Cable) : list Cable :=
  let feedCables := List.filter isFeed cables in
  let distributionCables := List.filter isDistribution cables in
  feedCables ++ distributionCables.

Definition splicedCircuits (cables : list Cable) (allCircuits : list Circuit)
    : list Circuit :=
  List.filter
    (fun circuit =>
       let cable :=
         List.find (fun c => String.eqb (cable_id c) (cableId circuit)) cables in
       (isSpliced circuit =? 1)
       && match cable with
          | Some c => isDistribution c
          | None => false
          end)
    allCircuits.

Definition distributionCables (cables : list Cable) : list Cable :=
  List.filter isDistribution cables.

(** The circuits of the tab of [distCable]. *)
Definition cableSplicedCircuits (cables : list Cable)
    (allCircuits : list Circuit) (distCable : Cable) : list Circuit :=
  List.filter (fun c => String.eqb (cableId c) (cable_id distCable))
    (splicedCircuits cables allCircuits).

Definition allFullBinders (cableSplicedCircuits : list Circuit) : bool :=
  (0 <? length cableSplicedCircuits)%nat
  && forallb
       (fun circuit =>
          let pairCount := fiberEnd circuit - fiberStart circuit + 1 in
          Z.rem pairCount 25 =? 0)
       cableSplicedCircuits.

(** [totalSpliceRows]. The division of the first branch is exact: there
    every pair count is a multiple of 25. *)
Definition totalSpliceRows (cableSplicedCircuits : list Circuit) : Z :=
  if allFullBinders cableSplicedCircuits then
    fold_left
      (fun sum circuit =>
         let pairCount := fiberEnd circuit - fiberStart circuit + 1 in
         sum + Z.quot pairCount 25)
      cableSplicedCircuits 0
  else
    fold_left
      (fun sum circuit => sum + (fiberEnd circuit - fiberStart circuit + 1))
      cableSplicedCircuits 0.

Record Color := mkColor {
  pair : Z;
  tip : string;
  ring : string;
  tipColor : string;
  ringColor : string
}.

Definition pairColors : list Color :=
  [
    mkColor 1 "white" "blue" "#64748b" "#3b82f6";
    mkColor 2 "white" "orange" "#64748b" "#f97316";
    mkColor 3 "white" "green" "#64748b" "#16a34a";
    mkColor 4 "white" "brown" "#64748b" "#b45309";
    mkColor 5 "white" "slate" "#64748b" "#64748b";
    mkColor 6 "red" "blue" "#dc2626" "#3b82f6";
    mkColor 7 "red" "orange" "#dc2626" "#f97316";
    mkColor 8 "red" "green" "#dc2626" "#16a34a";
    mkColor 9 "red" "brown" "#dc2626" "#b45309";
    mkColor 10 "red" "slate" "#dc2626" "#64748b";
    mkColor 11 "black" "blue" "#0f172a" "#3b82f6";
    mkColor 12 "black" "orange" "#0f172a" "#f97316";
    mkColor 13 "black" "green" "#0f172a" "#16a34a";
    mkColor 14 "black" "brown" "#0f172a" "#b45309";
    mkColor 15 "black" "slate" "#0f172a" "#64748b";
    mkColor 16 "yellow" "blue" "#facc15" "#3b82f6";
    mkColor 17 "yellow" "orange" "#facc15" "#f97316";
    mkColor 18 "yellow" "green" "#facc15" "#16a34a";
    mkColor 19 "yellow" "brown" "#facc15" "#b45309";
    mkColor 20 "yellow" "slate" "#facc15" "#64748b";
    mkColor 21 "violet" "blue" "#9333ea" "#3b82f6";
    mkColor 22 "violet" "orange" "#9333ea" "#f97316";
    mkColor 23 "violet" "green" "#9333ea" "#16a34a";
    mkColor 24 "violet" "brown" "#9333ea" "#b45309";
    mkColor 25 "violet" "slate" "#9333ea" "#64748b" ].

Definition binderSize : Z := 25.

Definition getBinderNumber (pair : Z) : Z := ceilDiv pair binderSize.

Definition getPairPositionInBinder (pair : Z) : Z :=
  Z.rem (pair - 1) binderSize + 1.

Definition getColorForPair (pairNum : Z) : option Color :=
  JSArray.index pairColors (Z.rem (pairNum - 1) 25).

Definition getColorForBinder (binder : Z) : option Color :=
  JSArray.index pairColors (Z.rem (binder - 1) 25).

(** [a || b] on a nullable integer column: [null] and 0 give [b]. *)
Definition orElse (a : option Z) (b : Z) : Z :=
  match a with
  | Some v => if v =? 0 then b else v
  | None => b
  end.

(** How the computation of the rows of a circuit ends: with its result,
    with the [TypeError] of reading a property of [undefined], or not at
    all within the given number of turns of the loop. *)
Inductive Outcome (A : Type) :=
| Finished (a : A)
| TypeError
| OutOfFuel.

Arguments Finished {A} a.
Arguments TypeError {A}.
Arguments OutOfFuel {A}.

(** The cells of a row of the full binder view that differ from row to
    row, and the key of the row. *)
Record BinderRow := mkBinderRow {
  segmentKey : Z;
  currentFeedBinder : Z;
  feedPairPosStart : Z;
  feedPairPosEnd : Z;
  circuitStart : Z;
  circuitEnd : Z;
  currentDistBinder : Z;
  distPairPosStart : Z;
  distPairPosEnd : Z;
  feedBinderColor : Color;
  distBinderColor : Color
}.

(** The [while] loop of the full binder view, from the state
    [currentDistPair], [currentFeedPair]; every turn uses one unit of
    [fuel]. *)
Fixpoint binderRows (fuel : nat)
    (rangeStart distPairStart distPairEnd feedPairEnd : Z)
    (currentDistPair currentFeedPair : Z) : Outcome (list BinderRow) :=
  if currentDistPair <=? distPairEnd then
    match fuel with
    | O => OutOfFuel
    | S fuel' =>
        let currentDistBinder := getBinderNumber currentDistPair in
        let currentFeedBinder := getBinderNumber currentFeedPair in
        let distBinderEnd := currentDistBinder * binderSize in
        let distSegmentEnd := Z.min distBinderEnd distPairEnd in
        let feedBinderEnd := currentFeedBinder * binderSize in
        let feedSegmentEnd := Z.min feedBinderEnd feedPairEnd in
        let distPairCount := distSegmentEnd - currentDistPair + 1 in
        let feedPairCount := feedSegmentEnd - currentFeedPair + 1 in
        let segmentPairCount := Z.min distPairCount feedPairCount in
        let pairOffset := currentDistPair - distPairStart in
        let circuitStart := rangeStart + pairOffset in
        let circuitEnd := circuitStart + segmentPairCount - 1 in
        let distPairPosStart := getPairPositionInBinder currentDistPair in
        let distPairPosEnd :=
          getPairPositionInBinder (currentDistPair + segmentPairCount - 1) in
        let feedPairPosStart := getPairPositionInBinder currentFeedPair in
        let feedPairPosEnd :=
          getPairPositionInBinder (currentFeedPair + segmentPairCount - 1) in
        match getColorForBinder currentFeedBinder,
              getColorForBinder currentDistBinder with
        | Some feedBinderColor, Some distBinderColor =>
            let row :=
              mkBinderRow currentDistPair currentFeedBinder feedPairPosStart
                feedPairPosEnd circuitStart circuitEnd currentDistBinder
                distPairPosStart distPairPosEnd feedBinderColor
                distBinderColor in
            match binderRows fuel' rangeStart distPairStart distPairEnd
                    feedPairEnd (currentDistPair + segmentPairCount)
                    (currentFeedPair + segmentPairCount) with
            | Finished rows => Finished (row :: rows)
            | TypeError => TypeError
            | OutOfFuel => OutOfFuel
            end
        | _, _ => TypeError
        end
    end
  else Finished [].

(** The cells of a row of the pair view that differ from row to row. *)
Record PairRow := mkPairRow {
  feedBinder : Z;
  feedPairInBinder : Z;
  circuitNumber : Z;
  distPairInBinder : Z;
  distBinder : Z;
  feedColor : Color;
  distColor : Color;
  pairFeedBinderColor : Color;
  pairDistBinderColor : Color
}.

(** One turn of the [for] loop of the pair view; [None] is the
    [TypeError] of reading a colour that is [undefined]. *)
Definition pairRow (circuit : Circuit) (rangeStart i : Z) : option PairRow :=
  let distPair := fiberStart circuit + i in
  let feedPair := orElse (feedFiberStart circuit) (fiberStart circuit) + i in
  let distBinder := getBinderNumber distPair in
  let distPairInBinder := getPairPositionInBinder distPair in
  let feedBinder := getBinderNumber feedPair in
  let feedPairInBinder := getPairPositionInBinder feedPair in
  let circuitNumber := rangeStart + i in
  match getColorForPair feedPairInBinder, getColorForPair distPairInBinder,
        getColorForBinder feedBinder, getColorForBinder distBinder with
  | Some feedColor, Some distColor, Some feedBinderColor, Some distBinderColor =>
      Some (mkPairRow feedBinder feedPairInBinder circuitNumber
              distPairInBinder distBinder feedColor distColor
              feedBinderColor distBinderColor)
  | _, _, _, _ => None
  end.

(** The [for] loop of the pair view, [i] from 0 below
    [fiberEnd - fiberStart + 1]. *)
Definition pairRows (circuit : Circuit) (rangeStart : Z)
    : option (list PairRow) :=
  mapM (pairRow circuit rangeStart)
    (seqZ 0 (fiberEnd circuit - fiberStart circuit + 1)).

(** The single row with a message that the callback returns when it gives
    up on a circuit. *)
Inductive RowMessage :=
| NoFeedCable       (* No feed cable selected. Please re-check the circuit. *)
| InvalidFormat     (* Invalid circuit ID format. *)
| InvalidRange      (* Invalid circuit number range. *)
| InvalidPositions. (* Invalid pair positions. *)

Inductive Rendering :=
| MessageRow (m : RowMessage)
| BinderRows (circuitPrefix : string) (rows : list BinderRow)
| PairRows (circuitPrefix : string) (rows : list PairRow).

(** The callback of [cableSplicedCircuits.flatMap]: the rows of one
    circuit. *)
Definition spliceRows (fuel : nat) (cables : list Cable)
    (allFullBinders : bool) (circuit : Circuit) : Outcome Rendering :=
  let feedCable :=
    match feedCableId circuit with
    | Some f =>
        if isEmpty f then None
        else List.find (fun c => String.eqb (cable_id c) f) cables
    | None => None
    end in
  match feedCable with
  | None => Finished (MessageRow NoFeedCable)
  | Some _ =>
      let circuitIdParts := split comma (circuitId circuit) in
      let circuitPrefix := default EmptyString (circuitIdParts !! 0%nat) in
      let circuitRange := default EmptyString (circuitIdParts !! 1%nat) in
      match split dash circuitRange with
      | [r0; r1] =>
          if isEmpty r0 || isEmpty r1 then Finished (MessageRow InvalidFormat)
          else
            match parseInt None (trim r0), parseInt None (trim r1) with
            | Num rangeStart, Num rangeEnd =>
                if allFullBinders then
                  let distPairStart := fiberStart circuit in
                  let distPairEnd := fiberEnd circuit in
                  let feedPairStart :=
                    orElse (feedFiberStart circuit) (fiberStart circuit) in
                  let feedPairEnd :=
                    orElse (feedFiberEnd circuit) (fiberEnd circuit) in
                  if (distPairStart =? 0) || (distPairEnd =? 0)
                     || (feedPairStart =? 0) || (feedPairEnd =? 0)
                  then Finished (MessageRow InvalidPositions)
                  else
                    match binderRows fuel rangeStart distPairStart distPairEnd
                            feedPairEnd distPairStart feedPairStart with
                    | Finished rows => Finished (BinderRows circuitPrefix rows)
                    | TypeError => TypeError
                    | OutOfFuel => OutOfFuel
                    end
                else
                  if (fiberStart circuit =? 0) || (fiberEnd circuit =? 0)
                  then Finished (MessageRow InvalidPositions)
                  else
                    match pairRows circuit rangeStart with
                    | Some rows => Finished (PairRows circuitPrefix rows)
                    | None => TypeError
                    end
            | _, _ => Finished (MessageRow InvalidRange)
            end
      | _ => Finished (MessageRow InvalidFormat)
      end
  end.

(** The number of table rows of a rendering. *)
Definition rowCount (r : Rendering) : Z :=
  match r with
  | MessageRow _ => 1
  | BinderRows _ rows => Z.of_nat (length rows)
  | PairRows _ rows => Z.of_nat (length rows)
  end.

(** [cableSplicedCircuits.flatMap(...)]: the renderings of the circuits of
    a tab, in order; the first callback that does not finish ends the
    whole. *)
Fixpoint tabRows (fuel : nat) (cables : list Cable) (allFullBinders : bool)
    (circuits : list Circuit) : Outcome (list Rendering) :=
  match circuits with
  | [] => Finished []
  | circuit :: rest =>
      match spliceRows fuel cables allFullBinders circuit with
      | Finished r =>
          match tabRows fuel cables allFullBinders rest with
          | Finished rs => Finished (r :: rs)
          | TypeError => TypeError
          | OutOfFuel => OutOfFuel
          end
      | TypeError => TypeError
      | OutOfFuel => OutOfFuel
      end
  end.

(** The body of the table of the tab of [distCable]. *)
Definition spliceTab (fuel : nat) (cables : list Cable)
    (allCircuits : list Circuit) (distCable : Cable)
    : Outcome (list Rendering) :=
  let circuits := cableSplicedCircuits cables allCircuits distCable in
  tabRows fuel cables (allFullBinders circuits) circuits.

End Home.

(** ** The fiber-based version of the CircuitManagement component

    In this version of the component the feed range of a splice is chosen
    in a dialog, as a ribbon of 12 fibers and a strand range within it. *)

Module FiberManagement.

(** The state of the feed selection dialog: [feedSelectionDialog] and the
    four fields of the form. *)
Record FeedSelection := mkFeedSelection {
  dialogOpen : bool;
  dialogCircuitId : option string;
  selectedFeedCableId : string;
  feedRibbon : string;
  feedStrandStart : string;
  feedStrandEnd : string
}.

Definition ribbonSize : Z := 12.

Definition getRibbonNumber (fiber : Z) : Z := ceilDiv fiber ribbonSize.

Definition getFiberPositionInRibbon (fiber : Z) : Z :=
  Z.rem (fiber - 1) ribbonSize + 1.

(** A nullable integer column that is neither [null] nor 0. *)
Definition truthy (a : option Z) : option Z :=
  match a with
  | Some v => if v =? 0 then None else Some v
  | None => None
  end.

(** [handleCheckboxChange]: the new state of the dialog and the mutation
    started, if any. *)
Definition handleCheckboxChange (cable : Cable) (st : FeedSelection)
    (circuit : Circuit) (checked : bool) : FeedSelection * option Mutation :=
  match cable_type cable, checked with
  | Distribution, true =>
      let selected := default EmptyString (feedCableId circuit) in
      match truthy (feedFiberStart circuit), truthy (feedFiberEnd circuit) with
      | Some feedFiberStart, Some feedFiberEnd =>
          (mkFeedSelection true (Some (id circuit)) selected
             (showZ (getRibbonNumber feedFiberStart))
             (showZ (getFiberPositionInRibbon feedFiberStart))
             (showZ (getFiberPositionInRibbon feedFiberEnd)),
           None)
      | _, _ =>
          (mkFeedSelection true (Some (id circuit)) selected
             (feedRibbon st) (feedStrandStart st) (feedStrandEnd st),
           None)
      end
  | _, _ => (st, Some (ToggleSpliced (id circuit) None None None))
  end.

Definition numMul (a b : number) : number :=
  match a, b with
  | Num x, Num y => Num (x * y)
  | _, _ => NaN
  end.

(** [handleConfirmFeedSelection]; [None] when it does nothing. *)
Definition handleConfirmFeedSelection (st : FeedSelection) : option Effect :=
  if isEmpty (selectedFeedCableId st) then
    Some (ShowToast
            {| title := "Feed cable required";
               description :=
                 Some "Please select a Feed cable for this splice" |})
  else if isEmpty (feedRibbon st) || isEmpty (feedStrandStart st)
          || isEmpty (feedStrandEnd st) then
    Some (ShowToast
            {| title := "Feed fiber range required";
               description :=
                 Some "Please specify ribbon and strand range in the Feed cable" |})
  else
    let ribbon := parseInt None (feedRibbon st) in
    let strandStart := parseInt None (feedStrandStart st) in
    let strandEnd := parseInt None (feedStrandEnd st) in
    let feedFiberStart :=
      numAdd (numMul (numSub ribbon (Num 1)) (Num ribbonSize)) strandStart in
    let feedFiberEnd :=
      numAdd (numMul (numSub ribbon (Num 1)) (Num ribbonSize)) strandEnd in
    match dialogCircuitId st with
    | Some circuitId =>
        if isEmpty circuitId then None
        else Some (Mutate (ToggleSpliced circuitId
                             (Some (selectedFeedCableId st))
                             (Some feedFiberStart) (Some feedFiberEnd)))
    | None => None
    end.

End FiberManagement.

(** ** The colour code, stated on its own

    Five tip colours, each with the five ring colours in turn. *)

Definition tipColors : list string :=
  ["white"; "red"; "black"; "yellow"; "violet"].

Definition ringColors : list string :=
  ["blue"; "orange"; "green"; "brown"; "slate"].

(** ** Blank input, stated on its own *)

(** Every character of the string is white space. *)
Fixpoint allWhiteSpace (s : string) : bool :=
  match s with
  | EmptyString => true
  | String c r => isWhiteSpace c && allWhiteSpace r
  end.

(** ** The rows of the full binder view, stated on their own *)

(** The rows, in order, cover the distribution pairs [d .. hi] and, in
    step with them, the feed pairs from [f] on and the circuit numbers from
    [n] on: every row is a run of pairs inside one binder of the
    distribution cable and inside one binder of the feed cable, as long on
    one side as on the other, and the next row goes on where it ends. *)
Fixpoint rowsCover (n d f hi : Z) (rows : list Home.BinderRow) : Prop :=
  match rows with
  | [] => d = hi + 1
  | r :: rest =>
      let len := Home.distPairPosEnd r - Home.distPairPosStart r + 1 in
      1 <= len
      /\ 1 <= Home.distPairPosStart r /\ Home.distPairPosEnd r <= 25
      /\ 1 <= Home.feedPairPosStart r /\ Home.feedPairPosEnd r <= 25
      /\ Home.feedPairPosEnd r - Home.feedPairPosStart r + 1 = len
      /\ (Home.currentDistBinder r - 1) * 25 + Home.distPairPosStart r = d
      /\ (Home.currentFeedBinder r - 1) * 25 + Home.feedPairPosStart r = f
      /\ Home.circuitStart r = n /\ Home.circuitEnd r = n + len - 1
      /\ rowsCover (n + len) (d + len) (f + len) hi rest
  end.

(** A row that shows a whole binder on both sides. *)
Definition fullBinderRow (r : Home.BinderRow) : Prop :=
  Home.distPairPosStart r = 1 /\ Home.distPairPosEnd r = 25
  /\ Home.feedPairPosStart r = 1 /\ Home.feedPairPosEnd r = 25.

(** * Properties *)

(** Case analysis on a split from which two parts are expected. *)
Tactic Notation "two_parts" constr(sep) constr(s) "as" ident(a) ident(b) :=
  destruct (split sep s) as [|a [|b [|]]].

(** ** Strings *)

Lemma append_empty_r (s : string) : s +:+ "" = s.
Proof. induction s as [|c s IH]; simpl; [reflexivity | now rewrite IH]. Qed.

Lemma append_assoc (a b c : string) : (a +:+ b) +:+ c = a +:+ (b +:+ c).
Proof. induction a as [|x a IH]; simpl; [reflexivity | now rewrite IH]. Qed.

Lemma isEmpty_true (s : string) : isEmpty s = true <-> s = "".
Proof. destruct s; simpl; split; congruence. Qed.

Lemma dash_not_digit : isDigit dash = false.
Proof. reflexivity. Qed.

Lemma digit_not_dash (c : ascii) : isDigit c = true -> Ascii.eqb c dash = false.
Proof.
  intros H. destruct (Ascii.eqb_spec c dash) as [->|]; [|reflexivity].
  now rewrite dash_not_digit in H.
Qed.

Lemma digit_not_space (c : ascii) : isDigit c = true -> isWhiteSpace c = false.
Proof. unfold isDigit, isWhiteSpace. lia. Qed.

Lemma allDigits_app (a b : string) :
  allDigits (a +:+ b) = allDigits a && allDigits b.
Proof.
  induction a as [|c a IH]; simpl; [reflexivity|].
  now rewrite IH, andb_assoc.
Qed.

(** *** [spanDigits] *)

Lemma spanDigits_app (s : string) :
  fst (spanDigits s) +:+ snd (spanDigits s) = s.
Proof.
  induction s as [|c s IH]; simpl; [reflexivity|].
  destruct (isDigit c); [|reflexivity].
  destruct (spanDigits s) as [d r]; simpl in *. now rewrite IH.
Qed.

Lemma spanDigits_digits (s : string) : allDigits (fst (spanDigits s)) = true.
Proof.
  induction s as [|c s IH]; simpl; [reflexivity|].
  destruct (isDigit c) eqn:E; [|reflexivity].
  destruct (spanDigits s) as [d r]; simpl in *. now rewrite E, IH.
Qed.

Lemma spanDigits_numeral_then (d r : string) (c : ascii) :
  allDigits d = true -> isDigit c = false ->
  spanDigits (d +:+ String c r) = (d, String c r).
Proof.
  intros Hd Hc. induction d as [|x d IH]; simpl in *.
  - now rewrite Hc.
  - apply andb_true_iff in Hd as [Hx Hd]. rewrite Hx, (IH Hd). reflexivity.
Qed.

Lemma spanDigits_all (d : string) :
  allDigits d = true -> spanDigits d = (d, "").
Proof.
  intros Hd. induction d as [|x d IH]; simpl in *; [reflexivity|].
  apply andb_true_iff in Hd as [Hx Hd]. now rewrite Hx, (IH Hd).
Qed.

(** *** The anchored range pattern *)

Lemma matchRangeAnchored_spec (s d1 d2 : string) :
  matchRangeAnchored s = Some (d1, d2) <-> digitsDashDigits s d1 d2.
Proof.
  unfold matchRangeAnchored, digitsDashDigits, isNumeral. split.
  - pose proof (spanDigits_app s) as Happ.
    pose proof (spanDigits_digits s) as Hdig.
    destruct (spanDigits s) as [a r1]; simpl in *.
    destruct a as [|a0 a]; [discriminate|].
    destruct r1 as [|c r2]; [discriminate|].
    destruct (Ascii.eqb_spec c dash) as [->|]; [|discriminate].
    pose proof (spanDigits_app r2) as Happ2.
    pose proof (spanDigits_digits r2) as Hdig2.
    destruct (spanDigits r2) as [b r3]; simpl in *.
    destruct b as [|b0 b]; [discriminate|].
    destruct r3; [|discriminate].
    intros [= <- <-]. rewrite <- Happ, <- Happ2. simpl.
    rewrite append_empty_r. repeat split; easy.
  - intros (-> & [Hn1 Hd1] & [Hn2 Hd2]).
    rewrite (spanDigits_numeral_then d1 d2 dash Hd1 dash_not_digit).
    destruct d1 as [|a0 a]; [easy|].
    rewrite Ascii.eqb_refl, (spanDigits_all d2 Hd2).
    destruct d2; easy.
Qed.

Lemma matchRangeAnchored_None (s : string) :
  matchRangeAnchored s = None <-> ~ exists d1 d2, digitsDashDigits s d1 d2.
Proof.
  split.
  - intros H (d1 & d2 & Hd). apply matchRangeAnchored_spec in Hd. congruence.
  - intros H. destruct (matchRangeAnchored s) as [[d1 d2]|] eqn:E; [|reflexivity].
    exfalso. apply H. exists d1, d2. now apply matchRangeAnchored_spec.
Qed.

(** *** [split] *)

Lemma split_not_nil (sep : ascii) (s : string) : split sep s <> [].
Proof.
  induction s as [|c s IH]; simpl; [easy|].
  destruct (Ascii.eqb c sep); [easy|]. destruct (split sep s); easy.
Qed.

Lemma split_one (sep : ascii) (s a : string) :
  split sep s = [a] <-> s = a /\ includes sep a = false.
Proof.
  revert a. induction s as [|c s IH]; intros a; simpl.
  - split; [intros [= <-]; easy | intros [<- _]; reflexivity].
  - destruct (Ascii.eqb c sep) eqn:E.
    + split.
      * intros [= <- H]. now apply split_not_nil in H.
      * intros [<- H]. simpl in H. now rewrite E in H.
    + destruct (split sep s) as [|h t] eqn:Es; [now apply split_not_nil in Es|].
      split.
      * intros [= <- ->]. destruct (IH h) as [IH1 _].
        destruct (IH1 eq_refl) as [-> Hh]. simpl. now rewrite E, Hh.
      * intros [<- H]. simpl in H. rewrite E in H. simpl in H.
        destruct (IH s) as [_ IH2]. specialize (IH2 (conj eq_refl H)).
        now inversion IH2.
Qed.

Lemma split_two (sep : ascii) (s a b : string) :
  split sep s = [a; b] <->
  s = a +:+ String sep b /\ includes sep a = false /\ includes sep b = false.
Proof.
  revert a. induction s as [|c s IH]; intros a; simpl.
  - split; [discriminate|]. intros [H _]. destruct a; discriminate.
  - destruct (Ascii.eqb_spec c sep) as [->|Hne].
    + split.
      * intros [= <- H]. apply split_one in H as [-> H]. now simpl.
      * intros (H & Ha & Hb). destruct a as [|x a]; simpl in *.
        -- injection H as ->. f_equal. now apply split_one.
        -- injection H as <- _. now rewrite Ascii.eqb_refl in Ha.
    + apply Ascii.eqb_neq in Hne.
      destruct (split sep s) as [|h t] eqn:Es; [now apply split_not_nil in Es|].
      split.
      * intros [= <- ->]. destruct (IH h) as [IH1 _].
        destruct (IH1 eq_refl) as (-> & Hh & Hb). simpl. now rewrite Hne, Hh.
      * intros (H & Ha & Hb). destruct a as [|x a]; simpl in *.
        -- injection H as -> _. now rewrite Ascii.eqb_refl in Hne.
        -- injection H as <- ->. rewrite Hne in Ha; simpl in Ha.
           destruct (IH a) as [_ IH2]. specialize (IH2 (conj eq_refl (conj Ha Hb))).
           now inversion IH2.
Qed.

(** *** [parseInt] on numerals *)

Lemma digitOfRadix_decimal (c : ascii) :
  isDigit c = true -> digitOfRadix 10 c = Some (code c - 48).
Proof.
  unfold isDigit, digitOfRadix. intros H. rewrite H.
  destruct (code c - 48 <? 10) eqn:E; [reflexivity|]. lia.
Qed.

Lemma radixDigits_numeral (d : string) (a : Z) :
  allDigits d = true ->
  radixDigits 10 (Num a) d = Num (digitsValueFrom a d).
Proof.
  revert a. induction d as [|c d IH]; intros a Hd; simpl in *; [reflexivity|].
  apply andb_true_iff in Hd as [Hc Hd].
  rewrite (digitOfRadix_decimal c Hc). now apply IH.
Qed.

Lemma radixDigits_numeral_NaN (d : string) :
  isNumeral d -> radixDigits 10 NaN d = Num (digitsValue d).
Proof.
  intros [Hne Hd]. destruct d as [|c d]; [easy|]. simpl in *.
  apply andb_true_iff in Hd as [Hc Hd].
  rewrite (digitOfRadix_decimal c Hc). now apply radixDigits_numeral.
Qed.

Lemma stripHexPrefix_numeral (d : string) :
  allDigits d = true -> stripHexPrefix d = None.
Proof.
  destruct d as [|z [|x r]]; try reflexivity. simpl.
  intros H. apply andb_true_iff in H as [_ H].
  apply andb_true_iff in H as [Hx _].
  destruct (Ascii.eqb_spec x "x") as [->|]; [discriminate|].
  destruct (Ascii.eqb_spec x "X") as [->|]; [discriminate|].
  now rewrite andb_false_r.
Qed.

Lemma parseInt_numeral (radix : option Z) (d : string) :
  isNumeral d -> radix = None \/ radix = Some 10 ->
  parseInt radix d = Num (digitsValue d).
Proof.
  intros Hnum Hr. pose proof Hnum as [Hne Hd].
  unfold parseInt. destruct d as [|c d]; [easy|].
  pose proof Hd as Hd'. simpl in Hd'. apply andb_true_iff in Hd' as [Hc _].
  simpl trimStart. rewrite (digit_not_space c Hc).
  destruct (Ascii.eqb_spec c "-") as [->|]; [discriminate|].
  destruct (Ascii.eqb_spec c "+") as [->|]; [discriminate|].
  assert (Hnum' : numScale 1 (radixDigits 10 NaN (String c d))
                  = Num (digitsValue (String c d))).
  { rewrite (radixDigits_numeral_NaN _ Hnum). simpl. f_equal.
    destruct (digitsValue (String c d)); reflexivity. }
  destruct Hr as [-> | ->]; simpl default; simpl radixAbsent.
  - rewrite orb_true_r, (stripHexPrefix_numeral _ Hd). exact Hnum'.
  - exact Hnum'.
Qed.

Lemma decimal_numeral (d : string) : isNumeral d -> decimal d = digitsValue d.
Proof.
  intros H. unfold decimal. rewrite (parseInt_numeral (Some 10) d H); auto.
Qed.

(** *** [parseCircuitIdParts] against the grammar *)

Lemma parseCircuitIdParts_Some (s : string) (p : CircuitIdParts) :
  parseCircuitIdParts s = Some p <->
  exists a b d1 d2,
    twoParts s a b /\ digitsDashDigits (trim b) d1 d2
    /\ p = {| prefix := trim a;
              rangeStart := digitsValue d1;
              rangeEnd := digitsValue d2 |}.
Proof.
  unfold parseCircuitIdParts, twoParts. split.
  - destruct (split comma s) as [|a [|b [|]]] eqn:Es; try discriminate.
    apply split_two in Es.
    destruct (matchRangeAnchored (trim b)) as [[d1 d2]|] eqn:Em; [|discriminate].
    apply matchRangeAnchored_spec in Em. intros [= <-].
    exists a, b, d1, d2. destruct Em as (E & H1 & H2).
    rewrite (decimal_numeral d1 H1), (decimal_numeral d2 H2).
    split; [exact Es|]. split; [|reflexivity]. unfold digitsDashDigits; auto.
  - intros (a & b & d1 & d2 & Hs & Hr & ->).
    apply split_two in Hs. rewrite Hs.
    pose proof Hr as (_ & H1 & H2).
    apply matchRangeAnchored_spec in Hr. rewrite Hr.
    now rewrite (decimal_numeral d1 H1), (decimal_numeral d2 H2).
Qed.

Lemma parseCircuitIdParts_None (s : string) :
  parseCircuitIdParts s = None <->
  ~ exists a b d1 d2, twoParts s a b /\ digitsDashDigits (trim b) d1 d2.
Proof.
  split.
  - intros H (a & b & d1 & d2 & H1 & H2).
    assert (parseCircuitIdParts s
            = Some {| prefix := trim a; rangeStart := digitsValue d1;
                      rangeEnd := digitsValue d2 |}) as E.
    { apply parseCircuitIdParts_Some. exists a, b, d1, d2. easy. }
    congruence.
  - intros H. destruct (parseCircuitIdParts s) as [p|] eqn:E; [|reflexivity].
    apply parseCircuitIdParts_Some in E as (a & b & d1 & d2 & H1 & H2 & _).
    exfalso. apply H. now exists a, b, d1, d2.
Qed.

(** *** The range pattern at the end of a string *)

Lemma matchRangeAtEnd_unfold (s : string) :
  matchRangeAtEnd s =
  match matchRangeAnchored s with
  | Some m => Some m
  | None => match s with
            | EmptyString => None
            | String _ r => matchRangeAtEnd r
            end
  end.
Proof. destruct s; reflexivity. Qed.

Lemma allDigits_no_dash (d : string) :
  allDigits d = true -> includes dash d = false.
Proof.
  induction d as [|c d IH]; simpl; [reflexivity|].
  intros H. apply andb_true_iff in H as [Hc Hd].
  now rewrite (digit_not_dash c Hc), (IH Hd).
Qed.

Lemma last_separator_unique (sep : ascii) (x x' b b' : string) :
  x +:+ String sep b = x' +:+ String sep b' ->
  includes sep b = false -> includes sep b' = false ->
  x = x' /\ b = b'.
Proof.
  revert x'. induction x as [|c x IH]; intros x' E Hb Hb'.
  - destruct x' as [|c' x']; simpl in E.
    + now injection E.
    + injection E as <- ->. exfalso.
      clear -Hb. induction x' as [|y x' IH]; simpl in Hb.
      * now rewrite Ascii.eqb_refl in Hb.
      * apply orb_false_iff in Hb as [_ Hb]. auto.
  - destruct x' as [|c' x']; simpl in E.
    + injection E as -> <-. exfalso.
      clear -Hb'. induction x as [|y x IH]; simpl in Hb'.
      * now rewrite Ascii.eqb_refl in Hb'.
      * apply orb_false_iff in Hb' as [_ Hb']. auto.
    + injection E as <- E. destruct (IH x' E Hb Hb') as [-> ->]. easy.
Qed.

Lemma numeral_endsWithDigit (p : string) :
  p <> "" -> allDigits p = true -> endsWithDigit p = true.
Proof.
  induction p as [|c p IH]; [easy|]. intros _ H. simpl in H.
  apply andb_true_iff in H as [Hc Hp]. simpl.
  destruct p as [|c' p]; [exact Hc|]. now apply IH.
Qed.

Lemma endsWithDigit_cons (c : ascii) (p : string) :
  endsWithDigit (String c p) = false ->
  endsWithDigit p = false /\ (p = "" -> isDigit c = false).
Proof.
  simpl. destruct p as [|c' p]; [easy|]. intros H. split; [exact H|easy].
Qed.

Lemma matchRangeAtEnd_Some (s d1 d2 : string) :
  matchRangeAtEnd s = Some (d1, d2) <->
  exists pre, s = pre +:+ d1 +:+ String dash d2
              /\ isNumeral d1 /\ isNumeral d2 /\ endsWithDigit pre = false.
Proof.
  split.
  - induction s as [|c s IH]; rewrite matchRangeAtEnd_unfold.
    + destruct (matchRangeAnchored "") as [m|] eqn:E; [|discriminate].
      intros [= ->]. apply matchRangeAnchored_spec in E as (E & H1 & H2).
      now exists "".
    + destruct (matchRangeAnchored (String c s)) as [m|] eqn:E.
      * intros [= ->]. apply matchRangeAnchored_spec in E as (E & H1 & H2).
        now exists "".
      * intros H. destruct (IH H) as (pre & -> & H1 & H2 & Hp).
        exists (String c pre). split; [reflexivity|]. split; [exact H1|]. split; [exact H2|].
        simpl. destruct pre as [|c' pre]; [|exact Hp].
        destruct (isDigit c) eqn:Ec; [|reflexivity]. exfalso.
        apply matchRangeAnchored_None in E. apply E.
        exists (String c d1), d2. split; [reflexivity|]. split; [|easy].
        split; [easy|]. simpl. rewrite Ec. apply H1.
  - intros (pre & -> & H1 & H2 & Hp).
    induction pre as [|c pre IH]; rewrite matchRangeAtEnd_unfold.
    + simpl. assert (matchRangeAnchored (d1 +:+ String dash d2) = Some (d1, d2)) as ->;
        [|reflexivity].
      now apply matchRangeAnchored_spec.
    + destruct (matchRangeAnchored (String c pre +:+ d1 +:+ String dash d2))
        as [[a b]|] eqn:E.
      * exfalso. apply matchRangeAnchored_spec in E as (E & Ha & Hb).
        rewrite <- append_assoc in E.
        apply last_separator_unique in E as [E _];
          [| apply allDigits_no_dash, H2 | apply allDigits_no_dash, Hb].
        destruct Ha as [_ Ha]. rewrite <- E, allDigits_app in Ha.
        apply andb_true_iff in Ha as [Ha _].
        rewrite numeral_endsWithDigit in Hp; easy.
      * simpl. apply IH. now apply endsWithDigit_cons in Hp.
Qed.

Lemma matchRangeAtEnd_None (s : string) :
  matchRangeAtEnd s = None <->
  ~ exists pre d1 d2, s = pre +:+ d1 +:+ String dash d2
                      /\ isNumeral d1 /\ isNumeral d2.
Proof.
  split.
  - intros H (pre & d1 & d2 & -> & H1 & H2). revert H.
    induction pre as [|c pre IH]; rewrite matchRangeAtEnd_unfold.
    + simpl. assert (matchRangeAnchored (d1 +:+ String dash d2) = Some (d1, d2)) as ->;
        [|discriminate].
      now apply matchRangeAnchored_spec.
    + destruct (matchRangeAnchored _); [discriminate|]. exact IH.
  - intros H. destruct (matchRangeAtEnd s) as [[d1 d2]|] eqn:E; [|reflexivity].
    apply matchRangeAtEnd_Some in E as (pre & E & H1 & H2 & _).
    exfalso. apply H. now exists pre, d1, d2.
Qed.

(** *** [trim] *)

Lemma trimEnd_idem (s : string) : trimEnd (trimEnd s) = trimEnd s.
Proof.
  induction s as [|c s IH]; simpl; [reflexivity|].
  destruct (isWhiteSpace c && isEmpty (trimEnd s)) eqn:E; [reflexivity|].
  simpl. now rewrite IH, E.
Qed.

Lemma trimStart_head (s : string) : headNotSpace (trimStart s) = true.
Proof.
  induction s as [|c s IH]; simpl; [reflexivity|].
  destruct (isWhiteSpace c) eqn:E; [exact IH|]. simpl. now rewrite E.
Qed.

Lemma trimStart_fixed (s : string) : headNotSpace s = true -> trimStart s = s.
Proof.
  destruct s as [|c s]; simpl; [reflexivity|].
  now destruct (isWhiteSpace c).
Qed.

Lemma trimEnd_head (s : string) :
  headNotSpace s = true -> headNotSpace (trimEnd s) = true.
Proof.
  destruct s as [|c s]; simpl; [reflexivity|].
  destruct (isWhiteSpace c) eqn:E; [discriminate|]. simpl. now rewrite E.
Qed.

Lemma trim_idem (s : string) : trim (trim s) = trim s.
Proof.
  unfold trim.
  rewrite (trimStart_fixed (trimEnd (trimStart s))).
  - apply trimEnd_idem.
  - apply trimEnd_head, trimStart_head.
Qed.

Lemma trimEnd_noWhiteSpace (s : string) : noWhiteSpace s = true -> trimEnd s = s.
Proof.
  induction s as [|c s IH]; simpl; [reflexivity|].
  intros H. apply andb_true_iff in H as [Hc Hs].
  rewrite (IH Hs). apply negb_true_iff in Hc. now rewrite Hc.
Qed.

Lemma trim_noWhiteSpace (s : string) : noWhiteSpace s = true -> trim s = s.
Proof.
  intros H. unfold trim. rewrite trimStart_fixed.
  - now apply trimEnd_noWhiteSpace.
  - destruct s as [|c s]; simpl in *; [reflexivity|].
    now apply andb_true_iff in H as [H _].
Qed.

Lemma noWhiteSpace_app (a b : string) :
  noWhiteSpace (a +:+ b) = noWhiteSpace a && noWhiteSpace b.
Proof.
  induction a as [|c a IH]; simpl; [reflexivity|].
  now rewrite IH, andb_assoc.
Qed.

Lemma includes_app (c : ascii) (a b : string) :
  includes c (a +:+ b) = includes c a || includes c b.
Proof.
  induction a as [|x a IH]; simpl; [reflexivity|].
  now rewrite IH, orb_assoc.
Qed.

(** *** [split(/\s+/)] *)

Lemma splitWs_noWhiteSpace (inRun : bool) (s : string) :
  Forall (fun p => noWhiteSpace p = true) (splitWs inRun s).
Proof.
  revert inRun. induction s as [|c s IH]; intros inRun; simpl.
  - now constructor.
  - destruct (isWhiteSpace c) eqn:E.
    + destruct inRun; [apply IH|]. constructor; [reflexivity | apply IH].
    + specialize (IH false). destruct (splitWs false s) as [|h t].
      * constructor; [|constructor]. simpl. now rewrite E.
      * inversion IH; subst. constructor; [|assumption]. simpl. now rewrite E.
Qed.

Lemma joinEmpty_noWhiteSpace (l : list string) :
  Forall (fun p => noWhiteSpace p = true) l -> noWhiteSpace (joinEmpty l) = true.
Proof.
  induction 1 as [|p l Hp Hl IH]; simpl; [reflexivity|].
  now rewrite noWhiteSpace_app, Hp, IH.
Qed.

Lemma lookup_noWhiteSpace (l : list string) (i : nat) :
  Forall (fun p => noWhiteSpace p = true) l ->
  noWhiteSpace (default "" (l !! i)) = true.
Proof.
  intros H. destruct (l !! i) as [p|] eqn:E; simpl; [|reflexivity].
  rewrite Forall_forall in H. apply H.
  eapply list_elem_of_lookup_2. exact E.
Qed.

(** *** [normalizeCircuitId] *)

Lemma normalizeCircuitId_comma (input : string) :
  includes comma (trim input) = true ->
  normalizeCircuitId input = trim input.
Proof. intros H. unfold normalizeCircuitId. now rewrite H. Qed.

Lemma normalizeCircuitId_idem (input : string) :
  normalizeCircuitId (normalizeCircuitId input) = normalizeCircuitId input.
Proof.
  unfold normalizeCircuitId at 2.
  destruct (includes comma (trim input)) eqn:Ec.
  - unfold normalizeCircuitId. now rewrite trim_idem, Ec.
  - destruct (length (splitWhitespace (trim input)) <? 3)%nat eqn:El.
    + unfold normalizeCircuitId. now rewrite trim_idem, Ec, El.
    + set (parts := splitWhitespace (trim input)).
      assert (Hparts : Forall (fun p => noWhiteSpace p = true) parts)
        by apply splitWs_noWhiteSpace.
      set (out := _ +:+ _).
      assert (Hout : noWhiteSpace out = true).
      { subst out. rewrite !noWhiteSpace_app.
        rewrite joinEmpty_noWhiteSpace by now apply Forall_take.
        rewrite !lookup_noWhiteSpace by assumption. reflexivity. }
      assert (Hcomma : includes comma out = true).
      { subst out. rewrite includes_app. simpl. now rewrite orb_true_r. }
      unfold normalizeCircuitId.
      rewrite (trim_noWhiteSpace out Hout), Hcomma, Ec, El. reflexivity.
Qed.

(** *** Binder segments *)

Lemma ceilDiv_25 (p : Z) : 25 * (ceilDiv p 25 - 1) < p <= 25 * ceilDiv p 25.
Proof. unfold ceilDiv. Z.to_euclidean_division_equations. lia. Qed.

Lemma tiles_app (b lo mid hi : Z) (l1 l2 : list Segment) :
  tiles b lo (mid - 1) l1 -> tiles b mid hi l2 -> tiles b lo hi (l1 ++ l2).
Proof.
  revert lo. induction l1 as [|seg l1 IH]; intros lo; simpl.
  - intros ->. now replace (mid - 1 + 1) with mid by lia.
  - intros (H1 & H2 & H3 & H4 & H5) H. repeat split; auto.
Qed.

Lemma tiles_full (b f : Z) (n : nat) :
  1 <= b ->
  tiles b ((f - 1) * b + 1) ((f + Z.of_nat n - 1) * b)
    ((fun r => mkSegment r 1 b) <$> seqZ f (Z.of_nat n)).
Proof.
  intros Hb. revert f. induction n as [|n IH]; intros f.
  - simpl. lia.
  - rewrite seqZ_cons by lia. simpl fmap. cbn [tiles].
    unfold segmentFirst, segmentLast. simpl.
    repeat split; try lia.
    replace (Z.pred (Z.of_nat (S n))) with (Z.of_nat n) by lia.
    specialize (IH (Z.succ f)).
    replace ((Z.succ f - 1) * b + 1) with ((f - 1) * b + b + 1) in IH by lia.
    replace ((Z.succ f + Z.of_nat n - 1) * b)
      with ((f + Z.of_nat (S n) - 1) * b) in IH by lia.
    exact IH.
Qed.

Lemma tiles_member (b lo hi p : Z) (segs : list Segment) :
  tiles b lo hi segs -> lo <= p <= hi ->
  exists seg, seg ∈ segs /\ segmentFirst b seg <= p <= segmentLast b seg.
Proof.
  revert lo. induction segs as [|seg rest IH]; intros lo; simpl.
  - lia.
  - intros (H1 & H2 & H3 & H4 & H5) Hp.
    destruct (Z_le_gt_dec p (segmentLast b seg)) as [Hle|Hgt].
    + exists seg. split; [left|lia].
    + destruct (IH _ H5) as (s & Hs & Hr); [lia|].
      exists s. split; [now right|exact Hr].
Qed.

Lemma tiles_within (b lo hi : Z) (segs : list Segment) :
  tiles b lo hi segs ->
  Forall (fun seg => 1 <= startInBinder seg /\ startInBinder seg <= endInBinder seg
                     /\ endInBinder seg <= b) segs.
Proof.
  revert lo. induction segs as [|seg rest IH]; intros lo; simpl.
  - constructor.
  - intros (H1 & H2 & H3 & H4 & H5). constructor; [auto|]. eapply IH, H5.
Qed.

(** Inside a segment that stays within the positions [1 .. 25], a pair has
    the binder of the segment and the position given by the remainder. *)
Lemma pair_in_segment (seg : Segment) (p : Z) :
  1 <= startInBinder seg -> endInBinder seg <= 25 ->
  segmentFirst 25 seg <= p <= segmentLast 25 seg ->
  1 <= p ->
  binder seg = ceilDiv p 25
  /\ startInBinder seg <= Z.rem (p - 1) 25 + 1 <= endInBinder seg.
Proof.
  unfold segmentFirst, segmentLast, ceilDiv. intros H1 H2 H3 H4.
  rewrite Z.rem_mod_nonneg by lia. Z.to_euclidean_division_equations. lia.
Qed.

Lemma seqZ_one (a : Z) : seqZ a 1 = [a].
Proof. rewrite seqZ_cons by lia. now rewrite seqZ_nil by lia. Qed.

Lemma seqZ_snoc (a n : Z) : 0 <= n -> seqZ a (n + 1) = seqZ a n ++ [a + n].
Proof. intros H. rewrite seqZ_app by lia. now rewrite seqZ_one. Qed.

Lemma binder_full (b : Z) (l : list Z) :
  binder <$> ((fun r => mkSegment r 1 b) <$> l) = l.
Proof. induction l as [|x l IH]; [reflexivity|]. rewrite !fmap_cons, IH. reflexivity. Qed.

Lemma tiles_fullZ (b f n : Z) :
  1 <= b -> 0 <= n ->
  tiles b ((f - 1) * b + 1) ((f + n - 1) * b)
    ((fun r => mkSegment r 1 b) <$> seqZ f n).
Proof.
  intros Hb Hn. pose proof (tiles_full b f (Z.to_nat n) Hb) as H.
  now rewrite Z2Nat.id in H by lia.
Qed.

Lemma display_segmentation (pairStart pairEnd : Z) :
  1 <= pairStart -> pairStart <= pairEnd ->
  match getBinderAndPairDisplay pairStart pairEnd 25 with
  | OneBinder seg => segmentation pairStart pairEnd [seg]
  | BinderParts segs => segmentation pairStart pairEnd segs
  | BinderSpan b1 b2 =>
      b1 = ceilDiv pairStart 25 /\ b2 = ceilDiv pairEnd 25 /\ b1 < b2
      /\ pairStart = (b1 - 1) * 25 + 1 /\ pairEnd = b2 * 25
  end.
Proof.
  intros H1 H2. unfold getBinderAndPairDisplay, segmentation, onePerBinder.
  pose proof (ceilDiv_25 pairStart) as Hs. pose proof (ceilDiv_25 pairEnd) as He.
  assert (Hsp : Z.rem (pairStart - 1) 25 + 1 = pairStart - 25 * (ceilDiv pairStart 25 - 1)).
  { unfold ceilDiv. rewrite Z.rem_mod_nonneg by lia.
    Z.to_euclidean_division_equations. lia. }
  assert (Hep : Z.rem (pairEnd - 1) 25 + 1 = pairEnd - 25 * (ceilDiv pairEnd 25 - 1)).
  { unfold ceilDiv. rewrite Z.rem_mod_nonneg by lia.
    Z.to_euclidean_division_equations. lia. }
  rewrite Hsp, Hep. clear Hsp Hep.
  set (sb := ceilDiv pairStart 25) in *. set (eb := ceilDiv pairEnd 25) in *.
  assert (Hle : sb <= eb) by lia.
  destruct (Z.eqb_spec sb eb) as [Heq|Hne].
  - split.
    + simpl. rewrite <- Heq. replace (sb - sb + 1) with 1 by lia.
      now rewrite seqZ_one.
    + simpl. unfold segmentFirst, segmentLast. simpl. lia.
  - destruct (Z.eqb_spec (pairStart - 25 * (sb - 1)) 1) as [Ps|Ps];
    destruct (Z.eqb_spec (pairEnd - 25 * (eb - 1)) 25) as [Pe|Pe];
      cbn [negb andb app].
    + lia.
    + (* full binders first, a partial binder last *)
      split.
      * rewrite fmap_app, binder_full. rewrite fmap_cons, fmap_nil. cbn [binder].
        replace (eb - sb + 1) with ((eb - 1 - sb + 1) + 1) by lia.
        rewrite (seqZ_snoc sb (eb - 1 - sb + 1)) by lia. f_equal. f_equal. lia.
      * eapply tiles_app with (mid := (eb - 1) * 25 + 1).
        -- pose proof (tiles_fullZ 25 sb (eb - 1 - sb + 1)) as T.
           replace ((sb - 1) * 25 + 1) with pairStart in T by lia.
           replace ((sb + (eb - 1 - sb + 1) - 1) * 25)
             with ((eb - 1) * 25 + 1 - 1) in T by lia.
           apply T; lia.
        -- simpl. unfold segmentFirst, segmentLast. simpl. lia.
    + (* a partial binder first, full binders after it *)
      split.
      * rewrite app_nil_r, fmap_cons, binder_full. cbn [binder].
        rewrite (seqZ_cons sb) by lia. f_equal. f_equal; lia.
      * cbn [tiles]. unfold segmentFirst, segmentLast. simpl.
        repeat split; try lia.
        rewrite app_nil_r.
        pose proof (tiles_fullZ 25 (sb + 1) (eb - (sb + 1) + 1)) as T.
        replace ((sb + 1 - 1) * 25 + 1) with ((sb - 1) * 25 + 25 + 1) in T by lia.
        replace ((sb + 1 + (eb - (sb + 1) + 1) - 1) * 25) with pairEnd in T by lia.
        apply T; lia.
    + (* partial binders at both ends *)
      split.
      * rewrite fmap_cons, fmap_app, binder_full, fmap_cons, fmap_nil.
        cbn [binder].
        rewrite (seqZ_cons sb) by lia. f_equal.
        replace (Z.pred (eb - sb + 1)) with ((eb - 1 - (sb + 1) + 1) + 1) by lia.
        rewrite (seqZ_snoc (Z.succ sb) (eb - 1 - (sb + 1) + 1)) by lia.
        replace (Z.succ sb) with (sb + 1) by lia. do 2 f_equal. lia.
      * cbn [tiles]. unfold segmentFirst, segmentLast. simpl.
        repeat split; try lia.
        eapply tiles_app with (mid := (eb - 1) * 25 + 1).
        -- pose proof (tiles_fullZ 25 (sb + 1) (eb - 1 - (sb + 1) + 1)) as T.
           replace ((sb + 1 - 1) * 25 + 1) with ((sb - 1) * 25 + 25 + 1) in T by lia.
           replace ((sb + 1 + (eb - 1 - (sb + 1) + 1) - 1) * 25)
             with ((eb - 1) * 25 + 1 - 1) in T by lia.
           apply T; lia.
        -- simpl. unfold segmentFirst, segmentLast. simpl. lia.
Qed.

(** Which of the three displays a range gets. *)
Lemma display_cases (pairStart pairEnd : Z) :
  1 <= pairStart -> pairStart <= pairEnd ->
  match getBinderAndPairDisplay pairStart pairEnd 25 with
  | OneBinder _ => ceilDiv pairStart 25 = ceilDiv pairEnd 25
  | BinderSpan b1 b2 =>
      b1 = ceilDiv pairStart 25 /\ b2 = ceilDiv pairEnd 25 /\ b1 < b2
      /\ pairStart = 25 * (b1 - 1) + 1 /\ pairEnd = 25 * b2
  | BinderParts _ =>
      ceilDiv pairStart 25 < ceilDiv pairEnd 25
      /\ (pairStart <> 25 * (ceilDiv pairStart 25 - 1) + 1
          \/ pairEnd <> 25 * ceilDiv pairEnd 25)
  end.
Proof.
  intros H1 H2. unfold getBinderAndPairDisplay.
  pose proof (ceilDiv_25 pairStart) as Hs. pose proof (ceilDiv_25 pairEnd) as He.
  assert (Hsp : Z.rem (pairStart - 1) 25 + 1 = pairStart - 25 * (ceilDiv pairStart 25 - 1)).
  { unfold ceilDiv. rewrite Z.rem_mod_nonneg by lia.
    Z.to_euclidean_division_equations. lia. }
  assert (Hep : Z.rem (pairEnd - 1) 25 + 1 = pairEnd - 25 * (ceilDiv pairEnd 25 - 1)).
  { unfold ceilDiv. rewrite Z.rem_mod_nonneg by lia.
    Z.to_euclidean_division_equations. lia. }
  rewrite Hsp, Hep. clear Hsp Hep.
  set (sb := ceilDiv pairStart 25) in *. set (eb := ceilDiv pairEnd 25) in *.
  assert (Hle : sb <= eb) by lia.
  destruct (Z.eqb_spec sb eb) as [Heq|Hne]; [exact Heq|].
  destruct (Z.eqb_spec (pairStart - 25 * (sb - 1)) 1) as [Ps|Ps];
    destruct (Z.eqb_spec (pairEnd - 25 * (eb - 1)) 25) as [Pe|Pe];
    cbn [negb andb]; lia.
Qed.

(** *** The position allocator *)

Lemma insertByPosition_Forall (P : Circuit -> Prop) (c : Circuit) (l : list Circuit) :
  Forall P (insertByPosition c l) <-> P c /\ Forall P l.
Proof.
  induction l as [|x l IH]; simpl.
  - rewrite Forall_singleton. rewrite Forall_nil. tauto.
  - destruct (position c <=? position x).
    + rewrite Forall_cons. tauto.
    + rewrite !Forall_cons, IH. tauto.
Qed.

Lemma sortByPosition_Forall (P : Circuit -> Prop) (l : list Circuit) :
  Forall P (sortByPosition l) <-> Forall P l.
Proof.
  induction l as [|x l IH]; simpl; [tauto|].
  rewrite insertByPosition_Forall, Forall_cons, IH. tauto.
Qed.

Lemma insertByPosition_sorted (c : Circuit) (l : list Circuit) :
  sortedByPosition l -> sortedByPosition (insertByPosition c l).
Proof.
  induction l as [|x l IH]; simpl.
  - intros _. split; [constructor | exact I].
  - intros [Hx Hl]. destruct (Z.leb_spec (position c) (position x)) as [Hle|Hgt].
    + simpl. split; [|split; assumption].
      constructor; [exact Hle|].
      eapply Forall_impl; [exact Hx|]. simpl. intros. lia.
    + simpl. split; [|apply IH, Hl].
      apply insertByPosition_Forall. split; [lia | exact Hx].
Qed.

Lemma sortByPosition_sorted (l : list Circuit) :
  sortedByPosition (sortByPosition l).
Proof.
  induction l as [|x l IH]; simpl; [exact I|].
  now apply insertByPosition_sorted.
Qed.

Lemma sortByPosition_fixed (l : list Circuit) :
  sortedByPosition l -> sortByPosition l = l.
Proof.
  induction l as [|x l IH]; simpl; [reflexivity|].
  intros [Hx Hl]. rewrite (IH Hl).
  destruct l as [|y l]; simpl; [reflexivity|].
  inversion Hx; subst.
  destruct (Z.leb_spec (position x) (position y)); [reflexivity | lia].
Qed.

Lemma assignRanges_same (next : Z) (l l' : list Circuit) :
  assignRanges next l = Some l' -> Forall2 sameButRange l l'.
Proof.
  revert next l'. induction l as [|c l IH]; intros next l'; simpl.
  - intros [= <-]. constructor.
  - destruct (pairCount (circuitId c)) as [n|]; [|discriminate].
    destruct (assignRanges (next + n) l) as [r'|] eqn:E; [|discriminate].
    intros [= <-]. constructor; [|eapply IH, E].
    unfold sameButRange. simpl. tauto.
Qed.


Lemma sameButRange_Forall_position (l l' : list Circuit) (p : Z) :
  Forall2 sameButRange l l' ->
  Forall (fun x => p <= position x) l -> Forall (fun x => p <= position x) l'.
Proof.
  induction 1 as [|c c' l l' Hc _ IH]; intros H; [constructor|].
  inversion H; subst. constructor; [|auto].
  destruct Hc as (_ & _ & _ & ->). assumption.
Qed.

Lemma sameButRange_sorted (l l' : list Circuit) :
  Forall2 sameButRange l l' -> sortedByPosition l -> sortedByPosition l'.
Proof.
  induction 1 as [|c c' l l' Hc Hl IH]; simpl; [tauto|].
  intros [Hx Hs]. split; [|auto].
  pose proof Hc as (_ & _ & _ & ->).
  eapply sameButRange_Forall_position; eassumption.
Qed.

Lemma sameButRange_inCable (cable : string) (l l' : list Circuit) :
  Forall2 sameButRange l l' ->
  Forall (inCable cable) l -> Forall (inCable cable) l'.
Proof.
  induction 1 as [|c c' l l' Hc _ IH]; intros H; [constructor|].
  inversion H; subst. constructor; [|auto].
  destruct Hc as (_ & Hk & _). unfold inCable in *. congruence.
Qed.

Lemma filter_inCable_all (cable : string) (l : list Circuit) :
  Forall (inCable cable) l -> filter (fun c => cableId c = cable) l = l.
Proof.
  induction 1 as [|c l Hc _ IH]; [reflexivity|].
  rewrite filter_cons_True by exact Hc. now rewrite IH.
Qed.



Lemma filter_same_cable (cable : string) (l : list Circuit) :
  filter (fun c => cableId c = cable) (filter (fun c => cableId c <> cable) l) = [].
Proof.
  induction l as [|c l IH]; [reflexivity|].
  destruct (decide (cableId c = cable)) as [E|E].
  - rewrite (filter_cons_False _ c) by tauto. exact IH.
  - rewrite (filter_cons_True (fun c => cableId c <> cable)) by exact E.
    rewrite filter_cons_False by exact E. exact IH.
Qed.

Lemma listCircuitsByCable_inCable (cable : string) (store : list Circuit) :
  Forall (inCable cable) (listCircuitsByCable cable store).
Proof.
  unfold listCircuitsByCable. apply sortByPosition_Forall.
  apply Forall_forall. intros c Hc. apply list_elem_of_filter in Hc. tauto.
Qed.

Lemma listCircuitsByCable_replace_same (cable : string) (cs store : list Circuit) :
  Forall (inCable cable) cs -> sortedByPosition cs ->
  listCircuitsByCable cable (replaceCircuits cable cs store) = cs.
Proof.
  intros Hin Hs. unfold listCircuitsByCable, replaceCircuits.
  rewrite filter_app, filter_same_cable, filter_inCable_all by assumption.
  simpl. now apply sortByPosition_fixed.
Qed.



(** *** Operations keep the allocation *)

Create HintDb cable.

Lemma mapWhere_inCable (cable : string) (P : Circuit -> bool)
    (f : Circuit -> Circuit) (cs : list Circuit) :
  (forall c, cableId (f c) = cableId c) ->
  Forall (inCable cable) cs -> Forall (inCable cable) (mapWhere P f cs).
Proof.
  intros Hf H. unfold mapWhere. apply Forall_fmap.
  eapply Forall_impl; [exact H|]. intros c Hc. simpl.
  destruct (P c); [|exact Hc]. unfold inCable in *. now rewrite Hf.
Qed.

Lemma filter_inCable (cable : string) (P : Circuit -> bool) (cs : list Circuit) :
  Forall (inCable cable) cs -> Forall (inCable cable) (List.filter P cs).
Proof.
  induction 1 as [|c l Hc _ IH]; simpl; [constructor|].
  destruct (P c); [constructor|]; assumption.
Qed.

#[local] Hint Resolve mapWhere_inCable filter_inCable : cable.







(** *** The splice matcher *)

Lemma find_first {A : Type} (p : A -> bool) (l : list A) (x : A) :
  List.find p l = Some x <->
  exists l1 l2, l = l1 ++ x :: l2 /\ p x = true
                /\ Forall (fun y => p y = false) l1.
Proof.
  induction l as [|a l IH]; simpl.
  - split; [discriminate|]. intros (l1 & l2 & E & _). now destruct l1.
  - destruct (p a) eqn:Ea.
    + split.
      * intros [= <-]. exists [], l. repeat split; auto.
      * intros (l1 & l2 & E & Hx & Hl1). destruct l1 as [|b l1]; simpl in E.
        -- now injection E as <- _.
        -- injection E as <- _. inversion Hl1; subst. congruence.
    + rewrite IH. split.
      * intros (l1 & l2 & -> & Hx & Hl1). exists (a :: l1), l2.
        repeat split; auto.
      * intros (l1 & l2 & E & Hx & Hl1). destruct l1 as [|b l1]; simpl in E.
        -- injection E as <- _. congruence.
        -- injection E as <- ->. inversion Hl1; subst. now exists l1, l2.
Qed.

Lemma find_none {A : Type} (p : A -> bool) (l : list A) :
  List.find p l = None <-> Forall (fun y => p y = false) l.
Proof.
  induction l as [|a l IH]; simpl.
  - split; [constructor | reflexivity].
  - destruct (p a) eqn:Ea.
    + split; [discriminate|]. intros H. inversion H; subst. congruence.
    + rewrite IH. split; [now constructor | intros H; now inversion H].
Qed.

Lemma readIdentifier_parts (s : string) (p : CircuitIdParts) :
  parseCircuitIdParts s = Some p ->
  readIdentifier s = Some (prefix p, Num (rangeStart p), Num (rangeEnd p)).
Proof.
  intros H. apply parseCircuitIdParts_Some in H
    as (a & b & d1 & d2 & Hs & (Hb & H1 & H2) & ->).
  unfold readIdentifier. apply split_two in Hs. rewrite Hs.
  assert (split dash (trim b) = [d1; d2]) as ->.
  { apply split_two. split; [exact Hb|].
    split; apply allDigits_no_dash; [apply H1 | apply H2]. }
  simpl. now rewrite !parseInt_numeral by auto.
Qed.

Section Matcher.

(** The cables known to the component, [allCables] of its query. *)
Variable allCables : list Cable.

Lemma isMatchingFeedCircuit_read (dp : string) (ds de : number)
    (c : Circuit) :
  isMatchingFeedCircuit allCables dp ds de c
  = isFeedCableOf allCables c
    && match readIdentifier (circuitId c) with
       | Some (fp, fs, fe) => String.eqb fp dp && numGe ds fs && numLe de fe
       | None => false
       end.
Proof.
  unfold isMatchingFeedCircuit, readIdentifier.
  destruct (isFeedCableOf allCables c); simpl; [|reflexivity].
  two_parts comma (circuitId c) as f0 f1; try reflexivity.
  destruct (String.eqb (trim f0) dp) eqn:E; simpl;
    two_parts dash (trim f1) as r0 r1; rewrite ?E; reflexivity.
Qed.

Lemma isFeedCableOf_true (c : Circuit) :
  isFeedCableOf allCables c = true <->
  exists cab, owningCable allCables c = Some cab /\ cable_type cab = Feed.
Proof.
  unfold isFeedCableOf. destruct (owningCable allCables c) as [cab|].
  - destruct (cable_type cab) eqn:E; split; try discriminate.
    + intros _. now exists cab.
    + reflexivity.
    + intros (cab' & [= <-] & H). congruence.
  - split; [discriminate|]. now intros (cab & H & _).
Qed.

Lemma isMatchingFeedCircuit_qualifies (pd : CircuitIdParts) (c : Circuit) :
  isMatchingFeedCircuit allCables (prefix pd) (Num (rangeStart pd))
    (Num (rangeEnd pd)) c = true
  <-> qualifies allCables pd c.
Proof.
  rewrite isMatchingFeedCircuit_read, andb_true_iff, isFeedCableOf_true.
  unfold qualifies. apply and_iff_compat_l.
  destruct (readIdentifier (circuitId c)) as [[[fp fs] fe]|].
  - split.
    + intros H. apply andb_true_iff in H as [H H3].
      apply andb_true_iff in H as [H1 H2].
      apply String.eqb_eq in H1 as ->.
      destruct fs as [|fs]; [discriminate|]. destruct fe as [|fe]; [discriminate|].
      unfold numGe in H2. simpl in *. exists fs, fe. repeat split; lia.
    + intros (fs' & fe' & [= -> -> ->] & H1 & H2).
      rewrite String.eqb_refl. unfold numGe. simpl.
      apply andb_true_iff. split; lia.
  - split; [discriminate|]. now intros (fs & fe & H & _).
Qed.

Lemma findMatchingFeedCircuit_first (allCircuits : list Circuit)
    (pd : CircuitIdParts) (f : Circuit) :
  findMatchingFeedCircuit allCables allCircuits (prefix pd)
    (Num (rangeStart pd)) (Num (rangeEnd pd)) = Some f
  <-> firstQualifying allCables pd allCircuits f.
Proof.
  unfold findMatchingFeedCircuit, firstQualifying. rewrite find_first.
  split; intros (l1 & l2 & E & Hf & Hl); exists l1, l2;
    (split; [exact E|]); split.
  - now apply isMatchingFeedCircuit_qualifies.
  - eapply Forall_impl; [exact Hl|]. simpl. intros c Hc Hq.
    apply isMatchingFeedCircuit_qualifies in Hq. congruence.
  - now apply isMatchingFeedCircuit_qualifies.
  - eapply Forall_impl; [exact Hl|]. simpl. intros c Hc.
    destruct (isMatchingFeedCircuit _ _ _ _ c) eqn:E'; [|reflexivity].
    apply isMatchingFeedCircuit_qualifies in E'. contradiction.
Qed.

Lemma findMatchingFeedCircuit_none (allCircuits : list Circuit)
    (pd : CircuitIdParts) :
  findMatchingFeedCircuit allCables allCircuits (prefix pd)
    (Num (rangeStart pd)) (Num (rangeEnd pd)) = None
  <-> Forall (fun c => ~ qualifies allCables pd c) allCircuits.
Proof.
  unfold findMatchingFeedCircuit. rewrite find_none.
  split; intros H; (eapply Forall_impl; [exact H|]); simpl; intros c Hc.
  - intros Hq. apply isMatchingFeedCircuit_qualifies in Hq. congruence.
  - destruct (isMatchingFeedCircuit _ _ _ _ c) eqn:E'; [|reflexivity].
    apply isMatchingFeedCircuit_qualifies in E'. contradiction.
Qed.

Lemma owningCable_id (c : Circuit) (cab : Cable) :
  owningCable allCables c = Some cab -> cable_id cab = cableId c.
Proof.
  unfold owningCable. intros H. apply find_some in H as [_ H].
  now apply String.eqb_eq in H.
Qed.

(** The handler when no feed circuit matches. *)
Lemma handleCheckboxChange_no_match (cable : Cable)
    (allCircuits : list Circuit) (d : Circuit) (pd : CircuitIdParts) :
  cable_type cable = Distribution ->
  parseCircuitIdParts (circuitId d) = Some pd ->
  findMatchingFeedCircuit allCables allCircuits (prefix pd)
    (Num (rangeStart pd)) (Num (rangeEnd pd)) = None ->
  handleCheckboxChange cable allCables allCircuits d true =
  ShowToast
    {| title := "No matching Feed circuit found";
       description :=
         Some (noMatchDescription (prefix pd) (Num (rangeStart pd))
                 (Num (rangeEnd pd))) |}.
Proof.
  intros Hc Hp Hf. unfold handleCheckboxChange. rewrite Hc.
  pose proof (readIdentifier_parts _ _ Hp) as Hr. unfold readIdentifier in Hr.
  two_parts comma (circuitId d) as d0 d1; try discriminate.
  two_parts dash (trim d1) as r0 r1; try discriminate.
  injection Hr as -> -> ->. now rewrite Hf.
Qed.

(** The handler when the feed circuit [f] matches. *)
Lemma handleCheckboxChange_match (cable : Cable)
    (allCircuits : list Circuit) (d : Circuit) (pd : CircuitIdParts)
    (f : Circuit) :
  cable_type cable = Distribution ->
  parseCircuitIdParts (circuitId d) = Some pd ->
  findMatchingFeedCircuit allCables allCircuits (prefix pd)
    (Num (rangeStart pd)) (Num (rangeEnd pd)) = Some f ->
  exists fs fe,
    readIdentifier (circuitId f) = Some (prefix pd, Num fs, Num fe)
    /\ handleCheckboxChange cable allCables allCircuits d true =
       Mutate (ToggleSpliced (id d) (Some (cableId f))
                 (Some (Num (fiberStart f + (rangeStart pd - fs))))
                 (Some (Num (fiberStart f + (rangeEnd pd - fs))))).
Proof.
  intros Hc Hp Hf.
  pose proof Hf as Hq. apply findMatchingFeedCircuit_first in Hq
    as (_ & _ & _ & ((cab & Hcab & _) & fs & fe & Hrf & _) & _).
  exists fs, fe. split; [exact Hrf|].
  unfold handleCheckboxChange. rewrite Hc.
  pose proof (readIdentifier_parts _ _ Hp) as Hr. unfold readIdentifier in Hr.
  two_parts comma (circuitId d) as d0 d1; try discriminate.
  two_parts dash (trim d1) as r0 r1; try discriminate.
  injection Hr as -> -> ->. rewrite Hf, Hcab.
  rewrite <- (owningCable_id _ _ Hcab).
  unfold readIdentifier in Hrf.
  two_parts comma (circuitId f) as f0 f1; try discriminate.
  simpl. two_parts dash (trim f1) as q0 q1; try discriminate.
  injection Hrf as _ Hq _. change ([q0; q1] !! 0%nat) with (Some q0).
  simpl. now rewrite Hq.
Qed.

(** For a feed circuit whose identifier parses, [qualifies] speaks of the
    parts that [parseCircuitIdParts] returns. *)
Lemma qualifies_parts (pd pf : CircuitIdParts) (f : Circuit) :
  parseCircuitIdParts (circuitId f) = Some pf ->
  qualifies allCables pd f <->
  (exists cab, owningCable allCables f = Some cab /\ cable_type cab = Feed)
  /\ prefix pf = prefix pd
  /\ rangeStart pf <= rangeStart pd /\ rangeEnd pd <= rangeEnd pf.
Proof.
  intros Hp. unfold qualifies. rewrite (readIdentifier_parts _ _ Hp).
  apply and_iff_compat_l. split.
  - intros (fs & fe & [= -> -> ->] & H1 & H2). auto.
  - intros (-> & H1 & H2). now exists (rangeStart pf), (rangeEnd pf).
Qed.

End Matcher.

(** *** The conflict detector *)

Lemma feedPairConflict_true (cid feed : string) (s e : Z) (o : Circuit) :
  feedPairConflict cid feed s e o = true <->
  id o <> cid /\ feedCableId o = Some feed
  /\ exists existingStart existingEnd,
       feedFiberStart o = Some existingStart
       /\ feedFiberEnd o = Some existingEnd
       /\ s <= existingEnd /\ existingStart <= e.
Proof.
  unfold feedPairConflict, hasId. rewrite andb_true_iff, negb_true_iff, eqb_neq.
  apply and_iff_compat_l.
  destruct (feedCableId o) as [f|]; [|split; [discriminate | now intros [? _]]].
  destruct (feedFiberStart o) as [es|];
    [|split; [discriminate | now intros (_ & ? & ? & ? & _)]].
  destruct (feedFiberEnd o) as [ee|];
    [|split; [discriminate | now intros (_ & ? & ? & _ & ? & _)]].
  rewrite !andb_true_iff, String.eqb_eq, !Z.leb_le. split.
  - intros [[-> H1] H2]. split; [reflexivity|]. now exists es, ee.
  - intros ([= ->] & es' & ee' & [= <-] & [= <-] & H1 & H2). auto.
Qed.

Lemma toggleSpliced_conflict (cid feed : string) (s e : Z)
    (store : list Circuit) (o : Circuit) :
  o ∈ store -> feedPairConflict cid feed s e o = true ->
  exists o', toggleSpliced cid (Some feed) (Some (Num s)) (Some (Num e)) store
             = FeedPairConflict o'
             /\ o' ∈ store /\ feedPairConflict cid feed s e o' = true.
Proof.
  intros Hin Ho. unfold toggleSpliced.
  destruct (List.find _ store) as [o'|] eqn:E.
  - exists o'. apply find_some in E as [E1 E2].
    split; [reflexivity|]. split; [now apply list_elem_of_In | exact E2].
  - apply find_none in E. rewrite Forall_forall in E.
    specialize (E o Hin). simpl in E. congruence.
Qed.

(** *** Trimming an identifier does not change how it parses *)

Lemma split_length (sep : ascii) (s : string) :
  length (split sep s) = S (countChar sep s).
Proof.
  induction s as [|c s IH]; simpl; [reflexivity|].
  destruct (Ascii.eqb c sep); simpl; [now rewrite IH|].
  destruct (split sep s); simpl in *; [discriminate | exact IH].
Qed.

Lemma space_not_sep (sep c : ascii) :
  isWhiteSpace sep = false -> isWhiteSpace c = true -> Ascii.eqb c sep = false.
Proof.
  intros Hs Hc. destruct (Ascii.eqb_spec c sep) as [->|]; congruence.
Qed.

Lemma countChar_trimStart (sep : ascii) (s : string) :
  isWhiteSpace sep = false -> countChar sep (trimStart s) = countChar sep s.
Proof.
  intros Hs. induction s as [|c s IH]; simpl; [reflexivity|].
  destruct (isWhiteSpace c) eqn:Ec; [|reflexivity].
  now rewrite (space_not_sep sep c Hs Ec).
Qed.

Lemma countChar_trimEnd (sep : ascii) (s : string) :
  isWhiteSpace sep = false -> countChar sep (trimEnd s) = countChar sep s.
Proof.
  intros Hs. induction s as [|c s IH]; simpl; [reflexivity|].
  destruct (isWhiteSpace c) eqn:Ec; simpl.
  - rewrite (space_not_sep sep c Hs Ec).
    destruct (trimEnd s) eqn:Et; simpl in *; [exact IH|].
    now rewrite (space_not_sep sep c Hs Ec).
  - now rewrite IH.
Qed.

Lemma countChar_trim (sep : ascii) (s : string) :
  isWhiteSpace sep = false -> countChar sep (trim s) = countChar sep s.
Proof.
  intros Hs. unfold trim.
  now rewrite countChar_trimEnd, countChar_trimStart.
Qed.

Lemma trimStart_before (sep : ascii) (a b : string) :
  isWhiteSpace sep = false ->
  trimStart (a +:+ String sep b) = trimStart a +:+ String sep b.
Proof.
  intros Hs. induction a as [|c a IH]; simpl.
  - now rewrite Hs.
  - destruct (isWhiteSpace c); [exact IH | reflexivity].
Qed.

Lemma trimEnd_after (sep : ascii) (a b : string) :
  isWhiteSpace sep = false ->
  trimEnd (a +:+ String sep b) = a +:+ String sep (trimEnd b).
Proof.
  intros Hs. induction a as [|c a IH]; simpl.
  - now rewrite Hs.
  - rewrite IH. destruct (a +:+ String sep (trimEnd b)) eqn:E.
    + destruct a; discriminate.
    + simpl. now rewrite andb_false_r.
Qed.

Lemma includes_trimStart (c : ascii) (s : string) :
  includes c s = false -> includes c (trimStart s) = false.
Proof.
  induction s as [|x s IH]; simpl; [reflexivity|].
  intros H. apply orb_false_iff in H as [H1 H2].
  destruct (isWhiteSpace x); [auto|]. simpl. now rewrite H1, H2.
Qed.

Lemma includes_trimEnd (c : ascii) (s : string) :
  includes c s = false -> includes c (trimEnd s) = false.
Proof.
  induction s as [|x s IH]; simpl; [reflexivity|].
  intros H. apply orb_false_iff in H as [H1 H2].
  destruct (isWhiteSpace x && isEmpty (trimEnd s)); [reflexivity|].
  simpl. now rewrite H1, IH.
Qed.

Lemma trimStart_idem (s : string) : trimStart (trimStart s) = trimStart s.
Proof. apply trimStart_fixed, trimStart_head. Qed.

Lemma trimStart_trimEnd (s : string) : trimStart (trimEnd s) = trimEnd (trimStart s).
Proof.
  induction s as [|c s IH]; simpl; [reflexivity|].
  destruct (isWhiteSpace c) eqn:Ec; simpl.
  - destruct (trimEnd s) eqn:Et; simpl in *.
    + exact IH.
    + rewrite Ec. exact IH.
  - now rewrite Ec.
Qed.

Lemma trim_trimStart (s : string) : trim (trimStart s) = trim s.
Proof. unfold trim. now rewrite trimStart_idem. Qed.

Lemma trim_trimEnd (s : string) : trim (trimEnd s) = trim s.
Proof. unfold trim. now rewrite trimStart_trimEnd, trimEnd_idem. Qed.

Lemma comma_not_space : isWhiteSpace comma = false.
Proof. reflexivity. Qed.

Lemma split_comma_trim (s a b : string) :
  split comma s = [a; b] -> split comma (trim s) = [trimStart a; trimEnd b].
Proof.
  intros H. apply split_two in H as (-> & Ha & Hb). apply split_two.
  unfold trim. rewrite trimStart_before, trimEnd_after by apply comma_not_space.
  split; [reflexivity|].
  split; [now apply includes_trimStart | now apply includes_trimEnd].
Qed.

Lemma parseCircuitIdParts_trim (s : string) :
  parseCircuitIdParts (trim s) = parseCircuitIdParts s.
Proof.
  unfold parseCircuitIdParts.
  pose proof (split_length comma s) as L.
  pose proof (split_length comma (trim s)) as L'.
  rewrite countChar_trim in L' by apply comma_not_space.
  destruct (split comma s) as [|a [|b [|x r]]] eqn:E.
  - discriminate.
  - destruct (split comma (trim s)) as [|a' [|b' [|]]]; simpl in *;
      try reflexivity; lia.
  - rewrite (split_comma_trim _ _ _ E).
    now rewrite trim_trimEnd, trim_trimStart.
  - destruct (split comma (trim s)) as [|a' [|b' [|]]]; simpl in *;
      try reflexivity; lia.
Qed.

Lemma circuitIdsOverlap_trim (a b : string) :
  circuitIdsOverlap (trim a) b = circuitIdsOverlap a b.
Proof. unfold circuitIdsOverlap. now rewrite parseCircuitIdParts_trim. Qed.

(** *** [circuitIdsOverlap] *)

Lemma circuitIdsOverlap_true (a b : string) :
  circuitIdsOverlap a b = true <->
  exists pa pb,
    parseCircuitIdParts a = Some pa /\ parseCircuitIdParts b = Some pb
    /\ prefix pa = prefix pb
    /\ rangeStart pa <= rangeEnd pb /\ rangeStart pb <= rangeEnd pa.
Proof.
  unfold circuitIdsOverlap.
  destruct (parseCircuitIdParts a) as [pa|];
    [|split; [discriminate | now intros (? & ? & ? & _)]].
  destruct (parseCircuitIdParts b) as [pb|];
    [|split; [discriminate | now intros (? & ? & _ & ? & _)]].
  destruct (String.eqb_spec (prefix pa) (prefix pb)) as [E|E]; simpl.
  - rewrite andb_true_iff, !Z.leb_le. split.
    + intros [H1 H2]. now exists pa, pb.
    + now intros (? & ? & [= <-] & [= <-] & _ & H1 & H2).
  - split; [discriminate|].
    now intros (? & ? & [= <-] & [= <-] & H & _).
Qed.

Lemma circuitIdsOverlap_sym (a b : string) :
  circuitIdsOverlap a b = circuitIdsOverlap b a.
Proof.
  destruct (circuitIdsOverlap a b) eqn:E1, (circuitIdsOverlap b a) eqn:E2;
    try reflexivity.
  - apply circuitIdsOverlap_true in E1 as (pa & pb & H1 & H2 & H3 & H4 & H5).
    assert (circuitIdsOverlap b a = true); [|congruence].
    apply circuitIdsOverlap_true. exists pb, pa. auto.
  - apply circuitIdsOverlap_true in E2 as (pa & pb & H1 & H2 & H3 & H4 & H5).
    assert (circuitIdsOverlap a b = true); [|congruence].
    apply circuitIdsOverlap_true. exists pb, pa. auto.
Qed.

(** *** The validator of the component *)

Lemma overlapsExisting_read (p : string) (s e : number)
    (ex : option string) (c : Circuit) :
  overlapsExisting p s e ex c
  = negb (isExcluded ex c)
    && match readIdentifier (circuitId c) with
       | Some (ep, es, ee) =>
           negb (isNaN es || isNaN ee)
           && (String.eqb p ep && numLe s ee && numGe e es)
       | None => false
       end.
Proof.
  unfold overlapsExisting, readIdentifier.
  destruct (isExcluded ex c); simpl; [reflexivity|].
  two_parts comma (circuitId c) as e0 e1; try reflexivity.
  two_parts dash (trim e1) as r0 r1; try reflexivity.
  destruct (isNaN (parseInt None r0) || isNaN (parseInt None r1)); reflexivity.
Qed.

Lemma overlapsExisting_overlap (new : string) (pn : CircuitIdParts)
    (ex : option string) (c : Circuit) :
  parseCircuitIdParts new = Some pn ->
  isExcluded ex c = false ->
  circuitIdsOverlap new (circuitId c) = true ->
  overlapsExisting (prefix pn) (Num (rangeStart pn)) (Num (rangeEnd pn)) ex c
  = true.
Proof.
  intros Hn Hex Ho.
  apply circuitIdsOverlap_true in Ho as (pa & pc & Ha & Hc & Hp & H1 & H2).
  rewrite Hn in Ha. injection Ha as <-.
  rewrite overlapsExisting_read, Hex, (readIdentifier_parts _ _ Hc). simpl.
  rewrite Hp, String.eqb_refl. unfold numGe. simpl.
  apply andb_true_iff. split; lia.
Qed.

Lemma parseAndCheckCircuitId_read (circuits : list Circuit) (new : string)
    (ex : option string) (p : string) (s e : Z) :
  readIdentifier new = Some (p, Num s, Num e) ->
  parseAndCheckCircuitId circuits new ex =
  match List.find (overlapsExisting p (Num s) (Num e) ex) circuits with
  | Some circuit => Invalid (overlapError new (circuitId circuit))
  | None => Valid
  end.
Proof.
  unfold readIdentifier, parseAndCheckCircuitId.
  two_parts comma new as p0 p1; try discriminate.
  two_parts dash (trim p1) as r0 r1; try discriminate.
  intros [= -> -> ->]. reflexivity.
Qed.

(** An identifier that overlaps a circuit of the list that is not excluded
    does not pass the validator. *)
Lemma parseAndCheckCircuitId_overlap (circuits : list Circuit) (new : string)
    (ex : option string) (c : Circuit) :
  c ∈ circuits -> isExcluded ex c = false ->
  circuitIdsOverlap new (circuitId c) = true ->
  exists other,
    other ∈ circuits
    /\ parseAndCheckCircuitId circuits new ex
       = Invalid (overlapError new (circuitId other)).
Proof.
  intros Hin Hex Ho. pose proof Ho as Ho'.
  apply circuitIdsOverlap_true in Ho' as (pn & _ & Hn & _).
  rewrite (parseAndCheckCircuitId_read _ _ _ _ _ _ (readIdentifier_parts _ _ Hn)).
  destruct (List.find _ circuits) as [other|] eqn:E.
  - exists other. split; [|reflexivity].
    apply find_some in E as [E _]. now apply list_elem_of_In.
  - apply find_none in E. rewrite Forall_forall in E.
    specialize (E c Hin). simpl in E.
    rewrite (overlapsExisting_overlap new pn ex c Hn Hex Ho) in E. discriminate.
Qed.

Lemma parseAndCheckCircuitId_valid (circuits : list Circuit) (new : string)
    (ex : option string) :
  parseAndCheckCircuitId circuits new ex = Valid ->
  Forall (fun c => isExcluded ex c = false ->
                   circuitIdsOverlap new (circuitId c) = false) circuits.
Proof.
  intros Hv. apply Forall_forall. intros c Hin Hex.
  destruct (circuitIdsOverlap new (circuitId c)) eqn:Ho; [|reflexivity].
  destruct (parseAndCheckCircuitId_overlap circuits new ex c Hin Hex Ho)
    as (other & _ & E).
  congruence.
Qed.

Lemma isExcluded_other (cid : string) (c : Circuit) :
  id c <> cid -> isExcluded (Some cid) c = false.
Proof.
  intros H. unfold isExcluded. apply eqb_neq in H. rewrite H.
  now rewrite andb_false_r.
Qed.

Lemma handleAddCircuit_overlap (cable : Cable) (circuits : list Circuit)
    (input : string) (c : Circuit) :
  c ∈ circuits ->
  circuitIdsOverlap (trim input) (circuitId c) = true ->
  exists other,
    other ∈ circuits
    /\ handleAddCircuit cable circuits input
       = ShowToast {| title := "Invalid Circuit ID";
                      description :=
                        Some (overlapError (trim input) (circuitId other)) |}.
Proof.
  intros Hin Ho. unfold handleAddCircuit.
  destruct (isEmpty (trim input)) eqn:Ee.
  - apply isEmpty_true in Ee. rewrite Ee in Ho. discriminate.
  - destruct (parseAndCheckCircuitId_overlap circuits (trim input) None c
                Hin eq_refl Ho) as (other & Hother & ->).
    now exists other.
Qed.

Lemma handleSaveEdit_overlap (circuits : list Circuit) (cid value : string)
    (c : Circuit) :
  c ∈ circuits -> id c <> cid ->
  circuitIdsOverlap value (circuitId c) = true ->
  exists other,
    other ∈ circuits
    /\ handleSaveEdit circuits cid value
       = ShowToast {| title := "Invalid Circuit ID";
                      description :=
                        Some (overlapError (trim value) (circuitId other)) |}.
Proof.
  intros Hin Hid Ho. unfold handleSaveEdit.
  rewrite <- circuitIdsOverlap_trim in Ho.
  destruct (isEmpty (trim value)) eqn:Ee.
  - apply isEmpty_true in Ee. rewrite Ee in Ho. discriminate.
  - destruct (parseAndCheckCircuitId_overlap circuits (trim value) (Some cid) c
                Hin (isExcluded_other cid c Hid) Ho) as (other & Hother & ->).
    now exists other.
Qed.

(** *** Accepted identifiers keep a cable free of overlaps *)

Lemma insertByPosition_perm (c : Circuit) (l : list Circuit) :
  insertByPosition c l ≡ₚ c :: l.
Proof.
  induction l as [|x l IH]; simpl; [reflexivity|].
  destruct (position c <=? position x); [reflexivity|].
  rewrite IH. apply perm_swap.
Qed.

Lemma sortByPosition_perm (l : list Circuit) : sortByPosition l ≡ₚ l.
Proof.
  induction l as [|x l IH]; simpl; [reflexivity|].
  now rewrite insertByPosition_perm, IH.
Qed.

Lemma sameButRange_identifiers (l l' : list Circuit) :
  Forall2 sameButRange l l' -> circuitId <$> l' = circuitId <$> l.
Proof.
  induction 1 as [|c c' l l' Hc _ IH]; [reflexivity|].
  rewrite !fmap_cons, IH. destruct Hc as (_ & _ & -> & _). reflexivity.
Qed.

Lemma pairwiseNonOverlapping_perm (ids ids' : list string) :
  ids ≡ₚ ids' -> pairwiseNonOverlapping ids -> pairwiseNonOverlapping ids'.
Proof.
  induction 1 as [|x l l' Hp IH|x y l|l l' l'' _ IH1 _ IH2]; simpl.
  - tauto.
  - intros [H1 H2]. split; [|auto]. now rewrite <- Hp.
  - intros (Hy & Hx & Hl). inversion Hy as [|? ? Hyx Hyl]; subst.
    repeat split; try assumption.
    constructor; [|assumption]. now rewrite circuitIdsOverlap_sym.
  - auto.
Qed.

Lemma pairwiseNonOverlapping_snoc (ids : list string) (x : string) :
  pairwiseNonOverlapping ids ->
  Forall (fun b => circuitIdsOverlap x b = false) ids ->
  pairwiseNonOverlapping (ids ++ [x]).
Proof.
  intros H1 H2. apply (pairwiseNonOverlapping_perm (x :: ids)).
  - apply Permutation_cons_append.
  - simpl. auto.
Qed.

Lemma rewriteCable_identifiers (cable : string)
    (f : list Circuit -> list Circuit) (store store' : list Circuit) :
  (forall cs, Forall (inCable cable) cs -> Forall (inCable cable) (f cs)) ->
  rewriteCable cable f store = Some store' ->
  circuitId <$> listCircuitsByCable cable store'
  ≡ₚ circuitId <$> f (listCircuitsByCable cable store).
Proof.
  intros Hf. unfold rewriteCable.
  destruct (assignRanges 1 _) as [cs|] eqn:E; [|discriminate].
  intros [= <-]. pose proof (assignRanges_same _ _ _ E) as Hsame.
  rewrite listCircuitsByCable_replace_same.
  - rewrite (sameButRange_identifiers _ _ Hsame).
    now rewrite sortByPosition_perm.
  - eapply sameButRange_inCable; [exact Hsame|].
    apply sortByPosition_Forall, Hf, listCircuitsByCable_inCable.
  - eapply sameButRange_sorted; [exact Hsame | apply sortByPosition_sorted].
Qed.

Lemma add_keeps_identifiers_apart (newId : string) (cable : Cable)
    (store : list Circuit) (input : string) :
  pairwiseNonOverlapping
    (circuitId <$> listCircuitsByCable (cable_id cable) store) ->
  pairwiseNonOverlapping
    (circuitId <$>
       listCircuitsByCable (cable_id cable)
         (dispatch newId
            (handleAddCircuit cable
               (listCircuitsByCable (cable_id cable) store) input)
            store)).
Proof.
  intros Hp. unfold handleAddCircuit.
  destruct (isEmpty (trim input)); [exact Hp|].
  destruct (parseAndCheckCircuitId _ _ _) eqn:Ev; [|exact Hp].
  simpl. unfold applyOp. simpl.
  destruct (createCircuit _ _ _ store) as [store'|] eqn:Ec; [|exact Hp]. simpl.
  unfold createCircuit in Ec. apply rewriteCable_identifiers in Ec.
  - eapply pairwiseNonOverlapping_perm; [symmetry; exact Ec|].
    rewrite fmap_app. simpl. apply pairwiseNonOverlapping_snoc; [exact Hp|].
    apply parseAndCheckCircuitId_valid in Ev. apply Forall_fmap.
    eapply Forall_impl; [exact Ev|]. simpl. intros c Hc. now apply Hc.
  - intros cs Hcs. apply Forall_app. split; [exact Hcs|].
    constructor; [reflexivity | constructor].
Qed.

Lemma unique_by_id (l : list Circuit) (a b : Circuit) :
  NoDup (id <$> l) -> a ∈ l -> b ∈ l -> id a = id b -> a = b.
Proof.
  induction l as [|x l IH]; intros Hn Ha Hb E.
  - now apply elem_of_nil in Ha.
  - rewrite fmap_cons in Hn. apply NoDup_cons in Hn as [Hx Hn].
    apply elem_of_cons in Ha as [->|Ha]; apply elem_of_cons in Hb as [->|Hb].
    + reflexivity.
    + exfalso. apply Hx. rewrite E. now apply list_elem_of_fmap_2.
    + exfalso. apply Hx. rewrite <- E. now apply list_elem_of_fmap_2.
    + now apply IH.
Qed.

Lemma listCircuitsByCable_elem (cable : string) (store : list Circuit)
    (c : Circuit) :
  c ∈ listCircuitsByCable cable store <-> c ∈ store /\ cableId c = cable.
Proof.
  unfold listCircuitsByCable. rewrite sortByPosition_perm.
  rewrite list_elem_of_filter. tauto.
Qed.

Lemma listCircuitsByCable_NoDup (cable : string) (store : list Circuit) :
  NoDup (id <$> store) -> NoDup (id <$> listCircuitsByCable cable store).
Proof.
  intros H. unfold listCircuitsByCable. rewrite sortByPosition_perm.
  eapply sublist_NoDup; [exact H|]. apply fmap_sublist, sublist_filter.
Qed.

(** Replacing the identifier of the one circuit called [cid]. *)
Lemma edit_identifiers_apart (cid ident : string) (cs : list Circuit) :
  NoDup (id <$> cs) ->
  pairwiseNonOverlapping (circuitId <$> cs) ->
  Forall (fun c => id c <> cid -> circuitIdsOverlap ident (circuitId c) = false) cs ->
  pairwiseNonOverlapping
    (circuitId <$> mapWhere (hasId cid) (fun c => setCircuitId c ident) cs).
Proof.
  unfold mapWhere. induction cs as [|c r IH]; intros Hn Hp Hv; [exact I|].
  rewrite !fmap_cons in *. apply NoDup_cons in Hn as [Hc Hn].
  destruct Hp as [Hp1 Hp2]. inversion Hv as [|? ? Hv1 Hv2]; subst.
  simpl. split; [|now apply IH].
  rewrite <- list_fmap_compose. apply Forall_fmap, Forall_forall.
  intros x Hx. simpl.
  assert (Hxc : id x <> id c).
  { intros E. apply Hc. rewrite <- E. now apply list_elem_of_fmap_2. }
  rewrite Forall_forall in Hv2. rewrite Forall_forall in Hp1.
  unfold hasId. destruct (String.eqb_spec (id c) cid) as [Ec|Ec];
    destruct (String.eqb_spec (id x) cid) as [Ex|Ex]; simpl.
  - congruence.
  - now apply Hv2.
  - rewrite circuitIdsOverlap_sym. now apply Hv1.
  - apply Hp1. now apply list_elem_of_fmap_2.
Qed.

Lemma edit_keeps_identifiers_apart (newId cable : string)
    (store : list Circuit) (cid value : string) :
  NoDup (id <$> store) ->
  (exists e, e ∈ listCircuitsByCable cable store /\ id e = cid) ->
  pairwiseNonOverlapping (circuitId <$> listCircuitsByCable cable store) ->
  pairwiseNonOverlapping
    (circuitId <$>
       listCircuitsByCable cable
         (dispatch newId
            (handleSaveEdit (listCircuitsByCable cable store) cid value)
            store)).
Proof.
  intros Hn (e & He & Hid) Hp. unfold handleSaveEdit.
  destruct (isEmpty (trim value)); [exact Hp|].
  destruct (parseAndCheckCircuitId _ _ _) eqn:Ev; [|exact Hp].
  simpl. unfold applyOp. simpl.
  destruct (updateCircuitId cid value store) as [store'|] eqn:Eu; [|exact Hp].
  simpl. unfold updateCircuitId in Eu.
  destruct (List.find (hasId cid) store) as [e'|] eqn:Ef; [|discriminate].
  apply find_some in Ef as [Hin' Hid']. apply list_elem_of_In in Hin'.
  unfold hasId in Hid'. apply String.eqb_eq in Hid'.
  apply listCircuitsByCable_elem in He as [Hin Hk].
  assert (e' = e) as -> by (eapply unique_by_id; eauto; congruence).
  rewrite Hk in Eu. apply rewriteCable_identifiers in Eu.
  - eapply pairwiseNonOverlapping_perm; [symmetry; exact Eu|].
    apply edit_identifiers_apart.
    + now apply listCircuitsByCable_NoDup.
    + exact Hp.
    + apply parseAndCheckCircuitId_valid in Ev.
      eapply Forall_impl; [exact Ev|]. simpl. intros c Hc Hne.
      rewrite <- circuitIdsOverlap_trim. apply Hc.
      now apply isExcluded_other.
  - intros cs Hcs. now apply mapWhere_inCable.
Qed.

Lemma segmentation_pairsPlaced (lo hi : Z) (segs : list Segment) :
  1 <= lo -> segmentation lo hi segs -> pairsPlaced lo hi segs.
Proof.
  intros Hlo [_ Ht] p Hp.
  destruct (tiles_member _ _ _ p _ Ht Hp) as (seg & Hin & Hr).
  pose proof (tiles_within _ _ _ _ Ht) as Hw. rewrite Forall_forall in Hw.
  destruct (Hw seg Hin) as (H1 & H2 & H3).
  exists seg. split; [exact Hin|].
  unfold getBinderNumber, getPairPositionInBinder.
  apply pair_in_segment; auto. lia.
Qed.

(** *** The splice toggle end to end *)


Lemma spliceToggle_toast (cable : Cable) (allCables : list Cable)
    (store : list Circuit) (d : Circuit) (checked : bool) (t : Toast) :
  handleCheckboxChange cable allCables store d checked = ShowToast t ->
  spliceToggle cable allCables store d checked = (store, Failed t).
Proof. intros H. unfold spliceToggle. now rewrite H. Qed.

(** *** Operations take effect *)






(** * The claims *)

(** ** C1: the allocation invariant *)



(** The same from a table that is not empty: a circuit added to a cable
    that holds the pairs 1 to 5 gets the pairs 6 to 13, and once moved up
    it holds the pairs 1 to 8, the other circuit coming right after it. *)
Example allocation_example :
  let store := [mkCircuit "c1" "k" "a,1-5" 0 1 5 0 None None None] in
  (fun c => (circuitId c, fiberStart c, fiberEnd c))
    <$> listCircuitsByCable "k"
          (runOps [AddCircuit "c2" "k" "pon,1-8"; MoveCircuit "c2" Up] store)
  = [("pon,1-8", 1, 8); ("a,1-5", 9, 13)].
Proof. reflexivity. Qed.

(** ** C2: the splice matcher *)

(** C2. Take a distribution circuit [d] whose identifier parses to the
    parts [pd]. The matcher selects the feed circuit [f] exactly when [f] is
    the first circuit, in the order of the circuit list, that qualifies:
    its owning cable is a Feed cable, its prefix is that of [d], and its
    range contains that of [d] (f.start <= d.start and d.end <= f.end, so
    equal ranges qualify). The handler reads the identifier of [f] by
    splitting and [parseInt]; for an identifier that parses these are the
    parts [parseCircuitIdParts] returns. The toggle then goes to the
    storage layer with the cable of [f]. When no circuit qualifies the
    handler only shows the toast "No matching Feed circuit found", whose
    description carries the prefix and the range searched, no mutation is
    started, and the store with every [isSpliced] flag is as before. *)
Theorem splice_matcher_first_containing_feed (cable : Cable)
    (allCables : list Cable) (allCircuits : list Circuit) (d : Circuit)
    (pd : CircuitIdParts) :
  cable_type cable = Distribution ->
  parseCircuitIdParts (circuitId d) = Some pd ->
  (forall f,
     findMatchingFeedCircuit allCables allCircuits (prefix pd)
       (Num (rangeStart pd)) (Num (rangeEnd pd)) = Some f
     <-> firstQualifying allCables pd allCircuits f)
  /\ (forall f pf,
        parseCircuitIdParts (circuitId f) = Some pf ->
        qualifies allCables pd f <->
        (exists cab, owningCable allCables f = Some cab
                     /\ cable_type cab = Feed)
        /\ prefix pf = prefix pd
        /\ rangeStart pf <= rangeStart pd /\ rangeEnd pd <= rangeEnd pf)
  /\ (forall f,
        firstQualifying allCables pd allCircuits f ->
        exists s e,
          handleCheckboxChange cable allCables allCircuits d true
          = Mutate (ToggleSpliced (id d) (Some (cableId f)) (Some s) (Some e)))
  /\ (Forall (fun c => ~ qualifies allCables pd c) allCircuits ->
      handleCheckboxChange cable allCables allCircuits d true
      = ShowToast
          {| title := "No matching Feed circuit found";
             description :=
               Some ("Could not find a Feed circuit with prefix " +:+ dq
                     +:+ prefix pd +:+ dq +:+ " that contains the range "
                     +:+ showZ (rangeStart pd) +:+ "-"
                     +:+ showZ (rangeEnd pd)) |}
      /\ fst (spliceToggle cable allCables allCircuits d true) = allCircuits).
Proof.
  intros Hc Hp. split; [|split; [|split]].
  - intros f. apply findMatchingFeedCircuit_first.
  - intros f pf. apply qualifies_parts.
  - intros f Hf. apply findMatchingFeedCircuit_first in Hf.
    destruct (handleCheckboxChange_match _ _ _ _ _ _ Hc Hp Hf)
      as (fs & fe & _ & ->).
    eauto.
  - intros Hn. apply findMatchingFeedCircuit_none in Hn.
    pose proof (handleCheckboxChange_no_match _ _ _ _ _ Hc Hp Hn) as E.
    split; [exact E|]. now rewrite (spliceToggle_toast _ _ _ _ _ _ E).
Qed.

Lemma splice_matcher_witness :
  let feed := mkCircuit "c1" "f1" "test,1-12" 1 9 20 0 None None None in
  let other := mkCircuit "c0" "f1" "pon,9-20" 0 1 8 0 None None None in
  let d := mkCircuit "c2" "d1" "test,3-4" 0 1 2 0 None None None in
  let pd := {| prefix := "test"; rangeStart := 3; rangeEnd := 4 |} in
  cable_type distCable1 = Distribution
  /\ parseCircuitIdParts (circuitId d) = Some pd
  /\ firstQualifying [feedCable1; distCable1] pd [other; feed; d] feed.
Proof.
  intros feed other d pd.
  split; [reflexivity|]. split; [reflexivity|].
  apply (proj1 (splice_matcher_first_containing_feed distCable1
                  [feedCable1; distCable1] [other; feed; d] d pd
                  eq_refl eq_refl)).
  reflexivity.
Defined.

(** The examples of the spec: "test,3-4" is contained in the feed
    identifier "test,1-12", "exact,15-20" in "exact,15-20", and "pon,1-8" is
    not contained in "pon,9-20". *)
Example splice_matcher_examples :
  let feedOf ident := mkCircuit "c1" "f1" ident 0 1 12 0 None None None in
  isMatchingFeedCircuit [feedCable1; distCable1] "test" (Num 3) (Num 4)
    (feedOf "test,1-12") = true
  /\ isMatchingFeedCircuit [feedCable1; distCable1] "exact" (Num 15) (Num 20)
       (feedOf "exact,15-20") = true
  /\ isMatchingFeedCircuit [feedCable1; distCable1] "pon" (Num 1) (Num 8)
       (feedOf "pon,9-20") = false.
Proof. repeat split; reflexivity. Qed.

(** ** C3: the derived feed pair range *)



(** The physical start of a feed circuit differs from the start its
    identifier names: "test,1-12" lies on the pairs 9 to 20 of its cable,
    and "test,3-4" is mapped to the pairs 11 and 12, not 3 and 4. *)
Example feed_pair_range_example :
  let feed := mkCircuit "c1" "f1" "test,1-12" 1 9 20 0 None None None in
  let other := mkCircuit "c0" "f1" "pon,9-16" 0 1 8 0 None None None in
  let d := mkCircuit "c2" "d1" "test,3-4" 0 1 2 0 None None None in
  handleCheckboxChange distCable1 [feedCable1; distCable1] [other; feed; d]
    d true
  = Mutate (ToggleSpliced "c2" (Some "f1") (Some (Num 11)) (Some (Num 12))).
Proof. reflexivity. Qed.

(** ** C4: feed pair conflicts *)

(** C4. When the checkbox handler has derived the candidate range [s .. e]
    on the feed cable [feed] for the circuit [d], and some other circuit [o]
    refers to the same feed cable with an assignment that intersects it
    (s <= existingEnd and existingStart <= e), the toggle ends with the
    feed-pair conflict that names such a circuit, and the store, with the
    [isSpliced] flag of [d], is as before: the check comes after the range
    is derived and before anything is written. *)
Theorem feed_pair_conflict_rejected (cable : Cable) (allCables : list Cable)
    (store : list Circuit) (d o : Circuit) (feed : string)
    (s e existingStart existingEnd : Z) :
  handleCheckboxChange cable allCables store d true
  = Mutate (ToggleSpliced (id d) (Some feed) (Some (Num s)) (Some (Num e))) ->
  o ∈ store -> id o <> id d ->
  feedCableId o = Some feed ->
  feedFiberStart o = Some existingStart -> feedFiberEnd o = Some existingEnd ->
  s <= existingEnd -> existingStart <= e ->
  exists conflicting,
    spliceToggle cable allCables store d true = (store, Conflict conflicting)
    /\ conflicting ∈ store /\ id conflicting <> id d
    /\ feedCableId conflicting = Some feed
    /\ exists cs ce,
         feedFiberStart conflicting = Some cs
         /\ feedFiberEnd conflicting = Some ce /\ s <= ce /\ cs <= e.
Proof.
  intros Hh Hin Hid Hf Hs He H1 H2.
  assert (Ho : feedPairConflict (id d) feed s e o = true).
  { apply feedPairConflict_true. split; [exact Hid|]. split; [exact Hf|].
    now exists existingStart, existingEnd. }
  destruct (toggleSpliced_conflict _ _ _ _ _ _ Hin Ho) as (c & Et & Hc & Hcc).
  exists c. unfold spliceToggle. rewrite Hh, Et.
  apply feedPairConflict_true in Hcc as (E1 & E2 & E3).
  repeat split; assumption.
Qed.

(** The example of the spec: "pon,1-8" of one distribution cable holds the
    pairs 1 to 8 of the feed cable; "pon,8-12" of another would take the
    pairs 8 to 12 and is refused, pair 8 being taken. *)
Lemma feed_pair_conflict_witness :
  let feed := mkCircuit "c1" "f1" "pon,1-12" 0 1 12 0 None None None in
  let d2 := mkCircuit "c2" "d1" "pon,1-8" 0 1 8 1 (Some "f1") (Some 1) (Some 8) in
  let d3 := mkCircuit "c3" "d2" "pon,8-12" 0 1 5 0 None None None in
  let cables := [feedCable1; distCable1; distCable2] in
  let store := [feed; d2; d3] in
  handleCheckboxChange distCable2 cables store d3 true
  = Mutate (ToggleSpliced (id d3) (Some "f1") (Some (Num 8)) (Some (Num 12)))
  /\ d2 ∈ store /\ id d2 <> id d3
  /\ exists conflicting,
       spliceToggle distCable2 cables store d3 true
       = (store, Conflict conflicting)
       /\ id conflicting <> id d3.
Proof.
  intros feed d2 d3 cables store.
  assert (Hin : d2 ∈ store) by (right; left).
  assert (Hid : id d2 <> id d3) by discriminate.
  split; [reflexivity|]. split; [exact Hin|]. split; [exact Hid|].
  destruct (feed_pair_conflict_rejected distCable2 cables store d3 d2 "f1"
              8 12 1 8 eq_refl Hin Hid eq_refl eq_refl eq_refl
              ltac:(lia) ltac:(lia)) as (c & E & _ & Hc & _).
  exists c. split; [exact E | exact Hc].
Defined.

Example feed_pair_conflict_example :
  let feed := mkCircuit "c1" "f1" "pon,1-12" 0 1 12 0 None None None in
  let d2 := mkCircuit "c2" "d1" "pon,1-8" 0 1 8 1 (Some "f1") (Some 1) (Some 8) in
  let d3 := mkCircuit "c3" "d2" "pon,8-12" 0 1 5 0 None None None in
  let cables := [feedCable1; distCable1; distCable2] in
  spliceToggle distCable2 cables [feed; d2; d3] d3 true
  = ([feed; d2; d3], Conflict d2).
Proof. reflexivity. Qed.

(** ** C5: overlap of two identifiers *)

(** C5. [circuitIdsOverlap a b] is true exactly when both identifiers
    parse, their prefixes are equal and their numeric ranges intersect
    (startA <= endB and startB <= endA). When a side does not parse the
    result is false, no failure comes out; with different prefixes it is
    false whatever the ranges. "pon,1-8" and "pon,8-12" overlap, "pon,1-8"
    and "pon,9-12" do not, "pon,1-8" and "lg,1-8" do not. *)
Theorem circuitIdsOverlap_spec (a b : string) :
  (circuitIdsOverlap a b = true <->
   exists pa pb,
     parseCircuitIdParts a = Some pa /\ parseCircuitIdParts b = Some pb
     /\ prefix pa = prefix pb
     /\ rangeStart pa <= rangeEnd pb /\ rangeStart pb <= rangeEnd pa)
  /\ match parseCircuitIdParts a, parseCircuitIdParts b with
     | Some pa, Some pb =>
         circuitIdsOverlap a b
         = (String.eqb (prefix pa) (prefix pb)
            && (rangeStart pa <=? rangeEnd pb)
            && (rangeStart pb <=? rangeEnd pa))
     | _, _ => circuitIdsOverlap a b = false
     end
  /\ circuitIdsOverlap "pon,1-8" "pon,8-12" = true
  /\ circuitIdsOverlap "pon,1-8" "pon,9-12" = false
  /\ circuitIdsOverlap "pon,1-8" "lg,1-8" = false.
Proof.
  split; [apply circuitIdsOverlap_true|].
  split; [|repeat split; reflexivity].
  unfold circuitIdsOverlap.
  destruct (parseCircuitIdParts a) as [pa|]; [|reflexivity].
  destruct (parseCircuitIdParts b) as [pb|]; [|reflexivity].
  destruct (String.eqb (prefix pa) (prefix pb)); reflexivity.
Qed.

(** ** C6: failures of the parser *)

(** C6, as the code has it. [parseCircuitIdParts] fails exactly when the
    string is not of the form a,b with a single comma, or the trimmed part
    after the comma is not digits-digits. On success it returns the trimmed
    part before the comma and the two integers, the values of the two
    numerals when these are at most 2^53 - 1. A range whose start is
    greater than its end is not refused. This holds for every string, so
    also for a normalized one. The validator of the component,
    [parseAndCheckCircuitId], reports "Invalid circuit ID format" when the
    string is not of the form a,b, and for a string that
    [parseCircuitIdParts] accepts it reports no format error: the only
    error left is the overlap with a circuit of the cable. Its test of the
    range is weaker than digits-digits: "a,1x-2" passes. *)
Theorem parseCircuitIdParts_format (s : string) :
  (parseCircuitIdParts s = None <->
   ~ exists a b d1 d2, twoParts s a b /\ digitsDashDigits (trim b) d1 d2)
  /\ (forall p,
        parseCircuitIdParts s = Some p ->
        exists a b d1 d2,
          twoParts s a b /\ digitsDashDigits (trim b) d1 d2
          /\ prefix p = trim a
          /\ (safeNumeral d1 -> rangeStart p = digitsValue d1)
          /\ (safeNumeral d2 -> rangeEnd p = digitsValue d2))
  /\ (forall a b d1 d2,
        twoParts s a b -> digitsDashDigits (trim b) d1 d2 ->
        exists p,
          parseCircuitIdParts s = Some p
          /\ prefix p = trim a
          /\ (safeNumeral d1 -> rangeStart p = digitsValue d1)
          /\ (safeNumeral d2 -> rangeEnd p = digitsValue d2))
  /\ (forall circuits ex,
        (~ exists a b, twoParts s a b) ->
        parseAndCheckCircuitId circuits s ex
        = Invalid ("Invalid circuit ID format. Expected format: " +:+ dq
                   +:+ "prefix,start-end" +:+ dq))
  /\ (forall circuits ex p,
        parseCircuitIdParts s = Some p ->
        parseAndCheckCircuitId circuits s ex
        = match List.find (overlapsExisting (prefix p) (Num (rangeStart p))
                             (Num (rangeEnd p)) ex) circuits with
          | Some circuit => Invalid (overlapError s (circuitId circuit))
          | None => Valid
          end)
  /\ parseCircuitIdParts "a,1x-2" = None
  /\ parseAndCheckCircuitId [] "a,1x-2" None = Valid.
Proof.
  split; [apply parseCircuitIdParts_None|].
  split; [|split; [|split; [|split; [|split; reflexivity]]]].
  - intros p H.
    apply parseCircuitIdParts_Some in H as (a & b & d1 & d2 & Hs & Hr & ->).
    exists a, b, d1, d2. cbn. auto.
  - intros a b d1 d2 Hs Hr. eexists. split.
    + apply parseCircuitIdParts_Some. exists a, b, d1, d2. eauto.
    + cbn. auto.
  - intros circuits ex Hn. unfold parseAndCheckCircuitId.
    destruct (split comma s) as [|p0 [|p1 [|]]] eqn:E; try reflexivity.
    exfalso. apply Hn. exists p0, p1. now apply split_two.
  - intros circuits ex p Hp.
    apply parseAndCheckCircuitId_read, readIdentifier_parts, Hp.
Qed.

Lemma parseCircuitIdParts_format_witness :
  twoParts " pon , 8-12 " " pon " " 8-12 "
  /\ digitsDashDigits (trim " 8-12 ") "8" "12"
  /\ safeNumeral "8" /\ safeNumeral "12"
  /\ exists p,
       parseCircuitIdParts " pon , 8-12 " = Some p
       /\ prefix p = "pon" /\ rangeStart p = 8 /\ rangeEnd p = 12.
Proof.
  assert (H1 : twoParts " pon , 8-12 " " pon " " 8-12 ")
    by (repeat split; reflexivity).
  assert (H2 : digitsDashDigits (trim " 8-12 ") "8" "12")
    by (repeat split; (reflexivity || discriminate)).
  assert (H3 : safeNumeral "8") by (vm_compute; discriminate).
  assert (H4 : safeNumeral "12") by (vm_compute; discriminate).
  split; [exact H1|]. split; [exact H2|]. split; [exact H3|].
  split; [exact H4|].
  destruct (parseCircuitIdParts_format " pon , 8-12 ") as (_ & _ & H & _).
  destruct (H " pon " " 8-12 " "8" "12" H1 H2) as (p & Hp & Ha & Hb & Hc).
  exists p. split; [exact Hp|]. split; [exact Ha|].
  split; [exact (Hb H3) | exact (Hc H4)].
Defined.

(** C6 as stated fails: the identifier "pon,8-1" has start 8 greater than
    end 1, it is unchanged by normalization, parsing it succeeds, and the
    validator of the component accepts it. *)
Lemma parse_reversed_range_counterexample :
  normalizeCircuitId "pon,8-1" = "pon,8-1"
  /\ parseCircuitIdParts (normalizeCircuitId "pon,8-1")
     = Some {| prefix := "pon"; rangeStart := 8; rangeEnd := 1 |}
  /\ 8 > 1
  /\ parseAndCheckCircuitId [] "pon,8-1" None = Valid.
Proof. repeat split; reflexivity. Qed.

(** ** C7: overlapping identifiers are refused *)

(** C7. Let [circuits] be the circuits of the cable shown. Adding [input]
    is refused when its trimmed text overlaps the identifier of a circuit
    of the cable, and saving the edited text [value] for the circuit [cid]
    is refused when it overlaps the identifier of another circuit of the
    cable: the handler shows the "Invalid Circuit ID" toast that names an
    overlapping circuit and starts no mutation, so the storage layer, and
    with it the allocator, is not reached and the store is as before. As a
    consequence identifiers of the cable that were pairwise non-overlapping
    are so after any add or edit that goes through the handlers. *)
Theorem overlapping_identifier_rejected (newId : string) (cable : Cable)
    (store : list Circuit) (input cid value : string) :
  (forall c,
     c ∈ listCircuitsByCable (cable_id cable) store ->
     circuitIdsOverlap (trim input) (circuitId c) = true ->
     (exists other,
        other ∈ listCircuitsByCable (cable_id cable) store
        /\ handleAddCircuit cable
             (listCircuitsByCable (cable_id cable) store) input
           = ShowToast
               {| title := "Invalid Circuit ID";
                  description :=
                    Some (overlapError (trim input) (circuitId other)) |})
     /\ dispatch newId
          (handleAddCircuit cable
             (listCircuitsByCable (cable_id cable) store) input) store
        = store)
  /\ (forall c,
        c ∈ listCircuitsByCable (cable_id cable) store -> id c <> cid ->
        circuitIdsOverlap value (circuitId c) = true ->
        (exists other,
           other ∈ listCircuitsByCable (cable_id cable) store
           /\ handleSaveEdit (listCircuitsByCable (cable_id cable) store)
                cid value
              = ShowToast
                  {| title := "Invalid Circuit ID";
                     description :=
                       Some (overlapError (trim value) (circuitId other)) |})
        /\ dispatch newId
             (handleSaveEdit (listCircuitsByCable (cable_id cable) store)
                cid value) store
           = store)
  /\ (pairwiseNonOverlapping
        (circuitId <$> listCircuitsByCable (cable_id cable) store) ->
      pairwiseNonOverlapping
        (circuitId <$>
           listCircuitsByCable (cable_id cable)
             (dispatch newId
                (handleAddCircuit cable
                   (listCircuitsByCable (cable_id cable) store) input)
                store)))
  /\ (NoDup (id <$> store) ->
      (exists e, e ∈ listCircuitsByCable (cable_id cable) store /\ id e = cid) ->
      pairwiseNonOverlapping
        (circuitId <$> listCircuitsByCable (cable_id cable) store) ->
      pairwiseNonOverlapping
        (circuitId <$>
           listCircuitsByCable (cable_id cable)
             (dispatch newId
                (handleSaveEdit (listCircuitsByCable (cable_id cable) store)
                   cid value)
                store))).
Proof.
  split; [|split; [|split]].
  - intros c Hin Ho.
    destruct (handleAddCircuit_overlap cable _ input c Hin Ho)
      as (other & Hother & E).
    split; [now exists other|]. now rewrite E.
  - intros c Hin Hid Ho.
    destruct (handleSaveEdit_overlap _ cid value c Hin Hid Ho)
      as (other & Hother & E).
    split; [now exists other|]. now rewrite E.
  - apply add_keeps_identifiers_apart.
  - apply edit_keeps_identifiers_apart.
Qed.

Lemma overlapping_identifier_witness :
  let c1 := mkCircuit "c1" "d1" "pon,1-8" 0 1 8 0 None None None in
  let c2 := mkCircuit "c2" "d1" "lg,1-8" 1 9 16 0 None None None in
  let store := [c1; c2] in
  c1 ∈ listCircuitsByCable (cable_id distCable1) store
  /\ circuitIdsOverlap (trim " pon,8-12 ") (circuitId c1) = true
  /\ id c1 <> "c2"
  /\ circuitIdsOverlap "pon,8-12" (circuitId c1) = true
  /\ dispatch "c3"
       (handleAddCircuit distCable1
          (listCircuitsByCable (cable_id distCable1) store) " pon,8-12 ")
       store = store
  /\ dispatch "c3"
       (handleSaveEdit (listCircuitsByCable (cable_id distCable1) store)
          "c2" "pon,8-12")
       store = store.
Proof.
  intros c1 c2 store.
  assert (Hin : c1 ∈ listCircuitsByCable (cable_id distCable1) store) by left.
  assert (Hid : id c1 <> "c2") by discriminate.
  split; [exact Hin|]. split; [reflexivity|]. split; [exact Hid|].
  split; [reflexivity|].
  destruct (overlapping_identifier_rejected "c3" distCable1 store
              " pon,8-12 " "c2" "pon,8-12") as (HA & HB & _).
  split.
  - exact (proj2 (HA c1 Hin eq_refl)).
  - exact (proj2 (HB c1 Hin Hid eq_refl)).
Defined.

(** ** C8: binder segmentation *)

(** C8, as the code has it. For a pair range [pairStart .. pairEnd] that
    starts at pair 1 or later, with binders of 25 pairs, the display of
    [getBinderAndPairDisplay] is one of three things. A range inside one
    binder gives that one segment. A range over several binders that starts
    on the first pair of a binder and ends on the last pair of a binder,
    from pair 25 k + 1 to pair 25 m with k + 1 < m, gives no segments but
    the span "first binder - last binder", k + 1 and m, however many
    binders it covers. Every other range gives segments in order, one for
    every binder touched, that cover the range with no gap and no overlap.
    In a segment list every pair p sits in the segment of binder
    ceil(p / 25), the number b with 25 (b - 1) < p <= 25 b that
    [getBinderNumber] returns, at position ((p - 1) mod 25) + 1, which is
    one more than the zero-based [getPairPositionInBinder]. Range [1,25]
    gives the single segment binder 1, 1-25, and range [20,30] gives
    binder 1, 20-25 followed by binder 2, 1-5. *)
Theorem binder_display_segments (pairStart pairEnd : Z) :
  1 <= pairStart -> pairStart <= pairEnd ->
  match getBinderAndPairDisplay pairStart pairEnd 25 with
  | OneBinder seg =>
      segmentation pairStart pairEnd [seg]
      /\ pairsPlaced pairStart pairEnd [seg]
  | BinderParts segs =>
      segmentation pairStart pairEnd segs
      /\ pairsPlaced pairStart pairEnd segs
  | BinderSpan b1 b2 =>
      b1 = getBinderNumber pairStart 25 /\ b2 = getBinderNumber pairEnd 25
      /\ b1 < b2
      /\ pairStart = (b1 - 1) * 25 + 1 /\ pairEnd = b2 * 25
  end
  /\ getBinderAndPairDisplay 1 25 25 = OneBinder (mkSegment 1 1 25)
  /\ getBinderAndPairDisplay 20 30 25
     = BinderParts [mkSegment 1 20 25; mkSegment 2 1 5]
  /\ (getBinderNumber pairStart 25 = getBinderNumber pairEnd 25 ->
      exists seg, getBinderAndPairDisplay pairStart pairEnd 25 = OneBinder seg)
  /\ (forall k m,
        pairStart = 25 * k + 1 -> pairEnd = 25 * m -> k + 1 < m ->
        getBinderAndPairDisplay pairStart pairEnd 25 = BinderSpan (k + 1) m)
  /\ (getBinderNumber pairStart 25 < getBinderNumber pairEnd 25 ->
      (forall k, pairStart <> 25 * k + 1) \/ (forall m, pairEnd <> 25 * m) ->
      exists segs,
        getBinderAndPairDisplay pairStart pairEnd 25 = BinderParts segs)
  /\ (forall p,
        pairStart <= p <= pairEnd ->
        25 * (getBinderNumber p 25 - 1) < p <= 25 * getBinderNumber p 25
        /\ getPairPositionInBinder p 25 = (p - 1) mod 25).
Proof.
  intros H1 H2. split; [|split; [reflexivity|split; [reflexivity|]]].
  - pose proof (display_segmentation pairStart pairEnd H1 H2) as H.
    destruct (getBinderAndPairDisplay pairStart pairEnd 25) as [seg|b1 b2|segs].
    + split; [exact H | now apply segmentation_pairsPlaced].
    + exact H.
    + split; [exact H | now apply segmentation_pairsPlaced].
  - pose proof (display_cases pairStart pairEnd H1 H2) as H.
    unfold getBinderNumber. split; [|split; [|split]].
    + intros Hb. destruct (getBinderAndPairDisplay pairStart pairEnd 25)
        as [seg|b1 b2|segs]; [now exists seg | lia | lia].
    + intros k m Hs He Hkm.
      pose proof (ceilDiv_25 pairStart). pose proof (ceilDiv_25 pairEnd).
      destruct (getBinderAndPairDisplay pairStart pairEnd 25)
        as [seg|b1 b2|segs].
      * lia.
      * destruct H as (-> & -> & _). f_equal; lia.
      * destruct H as [_ [H|H]]; lia.
    + intros Hb Hn.
      pose proof (ceilDiv_25 pairStart). pose proof (ceilDiv_25 pairEnd).
      destruct (getBinderAndPairDisplay pairStart pairEnd 25)
        as [seg|b1 b2|segs]; [lia | | now exists segs].
      destruct H as (-> & -> & _ & Hs & He).
      exfalso. destruct Hn as [Hn|Hn];
        [apply (Hn (ceilDiv pairStart 25 - 1)) | apply (Hn (ceilDiv pairEnd 25))];
        lia.
    + intros p Hp. split; [apply ceilDiv_25|].
      unfold getPairPositionInBinder. apply Z.rem_mod_nonneg; lia.
Qed.

Lemma binder_display_segments_witness :
  1 <= 20 /\ 20 <= 130
  /\ (exists segs,
        getBinderAndPairDisplay 20 130 25 = BinderParts segs
        /\ segmentation 20 130 segs /\ pairsPlaced 20 130 segs)
  /\ getBinderAndPairDisplay 26 100 25 = BinderSpan 2 4.
Proof.
  split; [lia|]. split; [lia|]. split.
  - pose proof (binder_display_segments 20 130 ltac:(lia) ltac:(lia)) as [H _].
    exists [mkSegment 1 20 25; mkSegment 2 1 25; mkSegment 3 1 25;
            mkSegment 4 1 25; mkSegment 5 1 25; mkSegment 6 1 5].
    split; [reflexivity|]. exact H.
  - pose proof (binder_display_segments 26 100 ltac:(lia) ltac:(lia))
      as (_ & _ & _ & _ & H & _).
    apply (H 1 4); lia.
Defined.

(** C8 as stated fails: the range [1,50] touches binders 1 and 2, yet the
    display is the collapsed span "B1 - B2" and not one segment per binder;
    and the schema helper [getPairPositionInBinder] gives pair 1 the
    position 0, not ((1 - 1) mod 25) + 1 = 1. *)
Lemma binder_display_span_counterexample :
  getBinderAndPairDisplay 1 50 25 = BinderSpan 1 2
  /\ getPairPositionInBinder 1 25 = 0
  /\ Z.rem (1 - 1) 25 + 1 = 1.
Proof. repeat split; reflexivity. Qed.

(** ** C9: normalization *)

(** C9. [normalizeCircuitId "pon 1 25"] is "pon,1-25" and
    [normalizeCircuitId "BR 021 365 372"] is "BR021,365-372"; in general,
    for an input without a comma whose tokens are [pre ++ [s; e]] with at
    least one token in [pre], the result is the tokens of [pre] joined with
    nothing between them, a comma, [s], a dash and [e]. An input that has a
    comma comes back trimmed and otherwise unchanged, and normalizing twice
    gives what normalizing once gives; "pon,1-25" is a fixed point. *)
Theorem normalizeCircuitId_spec (input : string) (pre : list string)
    (s e : string) :
  normalizeCircuitId "pon 1 25" = "pon,1-25"
  /\ normalizeCircuitId "BR 021 365 372" = "BR021,365-372"
  /\ normalizeCircuitId "pon,1-25" = "pon,1-25"
  /\ (includes comma (trim input) = false ->
      splitWhitespace (trim input) = pre ++ [s; e] -> pre <> [] ->
      normalizeCircuitId input = joinEmpty pre +:+ "," +:+ s +:+ "-" +:+ e)
  /\ (includes comma (trim input) = true ->
      normalizeCircuitId input = trim input)
  /\ normalizeCircuitId (normalizeCircuitId input) = normalizeCircuitId input.
Proof.
  split; [reflexivity|]. split; [reflexivity|]. split; [reflexivity|].
  split; [|split; [apply normalizeCircuitId_comma | apply normalizeCircuitId_idem]].
  intros Hc Hs Hp. unfold normalizeCircuitId. rewrite Hc, Hs.
  assert (Hl : length (pre ++ [s; e]) = (length pre + 2)%nat)
    by (rewrite length_app; reflexivity).
  rewrite Hl.
  destruct (Nat.ltb_spec (length pre + 2) 3) as [Hlt|_].
  - destruct pre; [contradiction | simpl in Hlt; lia].
  - replace (length pre + 2 - 2)%nat with (length pre) by lia.
    replace (length pre + 2 - 1)%nat with (length pre + 1)%nat by lia.
    rewrite take_app_length.
    rewrite (lookup_app_r pre [s; e] (length pre + 1)) by lia.
    rewrite (lookup_app_r pre [s; e] (length pre)) by lia.
    replace (length pre + 1 - length pre)%nat with 1%nat by lia.
    replace (length pre - length pre)%nat with 0%nat by lia.
    reflexivity.
Qed.

Lemma normalizeCircuitId_spec_witness :
  includes comma (trim " BR 021  365 372 ") = false
  /\ splitWhitespace (trim " BR 021  365 372 ") = ["BR"; "021"] ++ ["365"; "372"]
  /\ ["BR"; "021"] <> []
  /\ includes comma (trim " pon,1-25 ") = true
  /\ normalizeCircuitId " BR 021  365 372 "
     = joinEmpty ["BR"; "021"] +:+ "," +:+ "365" +:+ "-" +:+ "372"
  /\ normalizeCircuitId " pon,1-25 " = trim " pon,1-25 ".
Proof.
  split; [reflexivity|]. split; [reflexivity|]. split; [discriminate|].
  split; [reflexivity|]. split.
  - pose proof (normalizeCircuitId_spec " BR 021  365 372 "
                  ["BR"; "021"] "365" "372") as (_ & _ & _ & H & _).
    apply H; [reflexivity | reflexivity | discriminate].
  - pose proof (normalizeCircuitId_spec " pon,1-25 " [] "" "")
      as (_ & _ & _ & _ & H & _).
    apply H. reflexivity.
Defined.

(** ** C10: the pair count *)

(** C10. [parseCircuitId] looks only at the end of the string: it returns a
    count exactly when the string ends with digits-digits, whatever comes
    before (no comma, no prefix needed), and the count is end - start + 1
    for the two numerals of that ending, the first numeral taken as long as
    possible; the numerals are read as the integers they stand for up to
    2^53 - 1, where the arithmetic of the code is exact. The count is zero
    or negative when end < start. It fails (the source throws) exactly
    when the string does not end with digits-digits. *)
Theorem parseCircuitId_trailing_range (s : string) :
  (forall n,
     parseCircuitId s = Some n ->
     exists pre d1 d2,
       s = pre +:+ d1 +:+ String dash d2
       /\ isNumeral d1 /\ isNumeral d2 /\ endsWithDigit pre = false
       /\ (safeNumeral d1 -> safeNumeral d2 ->
           n = digitsValue d2 - digitsValue d1 + 1))
  /\ (forall pre d1 d2,
        s = pre +:+ d1 +:+ String dash d2 ->
        isNumeral d1 -> isNumeral d2 -> endsWithDigit pre = false ->
        exists n,
          parseCircuitId s = Some n
          /\ (safeNumeral d1 -> safeNumeral d2 ->
              n = digitsValue d2 - digitsValue d1 + 1))
  /\ (parseCircuitId s = None <->
      ~ exists pre d1 d2,
          s = pre +:+ d1 +:+ String dash d2 /\ isNumeral d1 /\ isNumeral d2)
  /\ parseCircuitId "12-34" = Some 23
  /\ parseCircuitId "lg,4-3" = Some 0
  /\ parseCircuitId "lg,5-3" = Some (-1).
Proof.
  split; [|split; [|split; [|repeat split; reflexivity]]].
  - intros n. unfold parseCircuitId.
    destruct (matchRangeAtEnd s) as [[m1 m2]|] eqn:E; [|discriminate].
    apply matchRangeAtEnd_Some in E as (pre & -> & H1 & H2 & Hp).
    intros [= <-]. exists pre, m1, m2.
    rewrite (decimal_numeral m1 H1), (decimal_numeral m2 H2). auto.
  - intros pre d1 d2 -> H1 H2 Hp. unfold parseCircuitId.
    assert (matchRangeAtEnd (pre +:+ d1 +:+ String dash d2) = Some (d1, d2)) as ->.
    { apply matchRangeAtEnd_Some. now exists pre. }
    rewrite (decimal_numeral d1 H1), (decimal_numeral d2 H2).
    eexists. split; [reflexivity|]. auto.
  - unfold parseCircuitId. rewrite <- matchRangeAtEnd_None.
    destruct (matchRangeAtEnd s) as [[m1 m2]|]; split; congruence.
Qed.

Lemma parseCircuitId_trailing_range_witness :
  isNumeral "21" /\ isNumeral "365" /\ endsWithDigit "BR 0x" = false
  /\ safeNumeral "21" /\ safeNumeral "365"
  /\ parseCircuitId "BR 0x21-365" = Some 345.
Proof.
  assert (H1 : isNumeral "21") by (split; [discriminate | reflexivity]).
  assert (H2 : isNumeral "365") by (split; [discriminate | reflexivity]).
  assert (H3 : safeNumeral "21") by (vm_compute; discriminate).
  assert (H4 : safeNumeral "365") by (vm_compute; discriminate).
  split; [exact H1|]. split; [exact H2|]. split; [reflexivity|].
  split; [exact H3|]. split; [exact H4|].
  destruct (parseCircuitId_trailing_range "BR 0x21-365") as (_ & H & _).
  destruct (H "BR 0x" "21" "365" eq_refl H1 H2 eq_refl) as (n & Hn & Hv).
  rewrite Hn, (Hv H3 H4). reflexivity.
Defined.

(** * Further properties of the code *)

(** ** The colour code *)

Lemma below25 (P : Z -> Prop) :
  Forall P (seqZ 0 25) -> forall i, 0 <= i < 25 -> P i.
Proof.
  intros H i Hi. rewrite Forall_forall in H. apply H.
  apply elem_of_seqZ. lia.
Qed.

Lemma rem25_range (n : Z) : 1 <= n -> 0 <= Z.rem (n - 1) 25 < 25.
Proof.
  intros H. rewrite Z.rem_mod_nonneg by lia. apply Z.mod_pos_bound. lia.
Qed.

Lemma getColorForNumber_from_1 (num : Z) :
  PairDisplay.getColorForNumber num
  = JSArray.index PairDisplay.pairColors ((Z.max num 1 - 1) mod 25).
Proof.
  unfold PairDisplay.getColorForNumber. destruct (Z.ltb_spec num 1).
  - replace (Z.max num 1) with 1 by lia. reflexivity.
  - replace (Z.max num 1) with num by lia.
    now rewrite Z.rem_mod_nonneg by lia.
Qed.

(** X1. [getColorForNumber] never returns [undefined]: a number below 1
    is given the colour of pair 1, and every number from 1 on the colour of
    its place in the 25-pair code, whose tip colour changes every five pairs
    and whose ring colour runs through the five ring colours. *)
Theorem getColorForNumber_code (num : Z) :
  exists c,
    PairDisplay.getColorForNumber num = Some c
    /\ tipColors !! Z.to_nat ((Z.max num 1 - 1) mod 25 / 5)
       = Some (PairDisplay.tip c)
    /\ ringColors !! Z.to_nat ((Z.max num 1 - 1) mod 5)
       = Some (PairDisplay.ring c).
Proof.
  rewrite getColorForNumber_from_1.
  replace ((Z.max num 1 - 1) mod 5) with (((Z.max num 1 - 1) mod 25) mod 5)
    by (apply (Z.mod_mod_divide _ 25 5); now exists 5).
  assert (Hr : 0 <= (Z.max num 1 - 1) mod 25 < 25) by (apply Z.mod_pos_bound; lia).
  revert Hr. generalize ((Z.max num 1 - 1) mod 25). apply below25.
  vm_compute seqZ. repeat constructor; eexists; repeat split; reflexivity.
Qed.

Lemma index_lookup {A : Type} (arr : list A) (i : Z) :
  0 <= i -> JSArray.index arr i = arr !! Z.to_nat i.
Proof.
  intros H. unfold JSArray.index.
  destruct (Z.ltb_spec i 0); [lia|reflexivity].
Qed.

Lemma index_is_Some {A : Type} (arr : list A) (i : Z) :
  is_Some (JSArray.index arr i) <-> 0 <= i < Z.of_nat (length arr).
Proof.
  unfold JSArray.index. destruct (Z.ltb_spec i 0).
  - split; [intros [x Hx]; discriminate | lia].
  - rewrite lookup_lt_is_Some. lia.
Qed.

Lemma pairColors_NoDup : NoDup PairDisplay.pairColors.
Proof.
  apply (NoDup_fmap_1 (fun c => (PairDisplay.tip c, PairDisplay.ring c))).
  apply (bool_decide_unpack _). vm_compute. reflexivity.
Qed.

(** X2. From pair 1 on the colours repeat with period 25 and with no
    shorter period: two numbers get the same colour exactly when they
    differ by a multiple of 25. *)
Theorem pair_colours_repeat_every_25 (n m : Z) :
  1 <= n -> 1 <= m ->
  (PairDisplay.getColorForNumber n = PairDisplay.getColorForNumber m
   <-> (n - m) mod 25 = 0).
Proof.
  intros Hn Hm. rewrite !getColorForNumber_from_1.
  replace (Z.max n 1) with n by lia. replace (Z.max m 1) with m by lia.
  assert (Hi : 0 <= (n - 1) mod 25 < 25) by (apply Z.mod_pos_bound; lia).
  assert (Hj : 0 <= (m - 1) mod 25 < 25) by (apply Z.mod_pos_bound; lia).
  rewrite !index_lookup by lia.
  split.
  - intros E.
    destruct (lookup_lt_is_Some_2 PairDisplay.pairColors (Z.to_nat ((n - 1) mod 25)))
      as [c Hc]; [change (length PairDisplay.pairColors) with 25%nat; lia|].
    assert (Z.to_nat ((n - 1) mod 25) = Z.to_nat ((m - 1) mod 25)) as Hnm.
    { apply (NoDup_lookup _ _ _ c pairColors_NoDup Hc). now rewrite <- E. }
    revert Hi Hj Hnm. Z.to_euclidean_division_equations. lia.
  - intros E. replace ((n - 1) mod 25) with ((m - 1) mod 25); [reflexivity|].
    revert Hi Hj E. Z.to_euclidean_division_equations. lia.
Qed.

Lemma pair_colours_repeat_every_25_witness :
  1 <= 3 /\ 1 <= 53 /\ (3 - 53) mod 25 = 0
  /\ PairDisplay.getColorForNumber 3 = PairDisplay.getColorForNumber 53.
Proof.
  split; [lia|]. split; [lia|]. split; [reflexivity|].
  apply (pair_colours_repeat_every_25 3 53); [lia | lia | reflexivity].
Defined.

(** X3. [getPairColor] of the schema returns [undefined] exactly for a
    negative index that is not a multiple of 25 (the remainder of
    JavaScript is then negative). Otherwise it returns the entry whose
    [pair] is one more than the remainder, with the tip and ring colours of
    that place in the code. *)
Theorem getPairColor_defined (pairIndex : Z) :
  (ColorCode.getPairColor pairIndex = None
   <-> pairIndex < 0 /\ Z.rem pairIndex 25 <> 0)
  /\ forall c,
       ColorCode.getPairColor pairIndex = Some c ->
       ColorCode.pair c = Z.rem pairIndex 25 + 1
       /\ tipColors !! Z.to_nat (Z.rem pairIndex 25 / 5) = Some (ColorCode.tip c)
       /\ ringColors !! Z.to_nat (Z.rem pairIndex 25 mod 5)
          = Some (ColorCode.ring c).
Proof.
  unfold ColorCode.getPairColor.
  assert (Hr : -25 < Z.rem pairIndex 25 < 25)
    by (Z.to_euclidean_division_equations; lia).
  destruct (Z.ltb_spec (Z.rem pairIndex 25) 0) as [Hneg|Hpos].
  - unfold JSArray.index. destruct (Z.ltb_spec (Z.rem pairIndex 25) 0); [|lia]. split.
    + split; [intros _|reflexivity].
      revert Hneg. Z.to_euclidean_division_equations. lia.
    + discriminate.
  - split.
    + split.
      * intros E. exfalso.
        assert (is_Some (JSArray.index ColorCode.pairColors (Z.rem pairIndex 25))) as [c Hc].
        { apply index_is_Some. change (length ColorCode.pairColors) with 25%nat. lia. }
        congruence.
      * intros [H1 H2]. exfalso. revert H1 H2 Hpos.
        Z.to_euclidean_division_equations. lia.
    + assert (Hr' : 0 <= Z.rem pairIndex 25 < 25) by lia.
      revert Hr'. generalize (Z.rem pairIndex 25).
      apply (below25 (fun z => forall c, JSArray.index ColorCode.pairColors z = Some c -> _)).
      vm_compute seqZ.
      repeat (apply List.Forall_cons;
              [intros c [= <-]; repeat split; reflexivity|]).
      apply List.Forall_nil.
Qed.

(** X4. The three copies of the colour table agree. For every number
    from 1 on, the colour the component shows, the colour the page shows
    and the colour the schema gives for the position of the pair in its
    binder have the same tip and ring colour; the component and the page
    use the same two colour values; and the schema and the page number the
    entry alike, one more than the remainder of number - 1 by 25. *)
Theorem colour_tables_agree (n : Z) :
  1 <= n ->
  exists c s h,
    PairDisplay.getColorForNumber n = Some c
    /\ ColorCode.getPairColor (getPairPositionInBinder n 25) = Some s
    /\ Home.getColorForPair n = Some h
    /\ Home.getColorForBinder n = Some h
    /\ PairDisplay.tip c = ColorCode.tip s
    /\ PairDisplay.ring c = ColorCode.ring s
    /\ PairDisplay.tip c = Home.tip h
    /\ PairDisplay.ring c = Home.ring h
    /\ PairDisplay.tipColor c = Home.tipColor h
    /\ PairDisplay.ringColor c = Home.ringColor h
    /\ ColorCode.pair s = (n - 1) mod 25 + 1
    /\ Home.pair h = (n - 1) mod 25 + 1.
Proof.
  intros Hn. unfold PairDisplay.getColorForNumber, ColorCode.getPairColor,
    Home.getColorForPair, Home.getColorForBinder, getPairPositionInBinder.
  destruct (Z.ltb_spec n 1); [lia|].
  rewrite (Z.rem_mod_nonneg (n - 1) 25) by lia.
  assert (Hr : 0 <= (n - 1) mod 25 < 25) by (apply Z.mod_pos_bound; lia).
  rewrite (Z.rem_mod_nonneg ((n - 1) mod 25) 25) by lia.
  rewrite Z.mod_mod by lia.
  revert Hr. generalize ((n - 1) mod 25).
  apply (below25 (fun z => exists c s h, _ /\ _)).
  vm_compute seqZ.
  repeat (apply List.Forall_cons;
          [do 3 eexists; repeat split; reflexivity|]).
  apply List.Forall_nil.
Qed.

Lemma colour_tables_agree_witness :
  exists c s h,
    PairDisplay.getColorForNumber 32 = Some c
    /\ ColorCode.getPairColor (getPairPositionInBinder 32 25) = Some s
    /\ Home.getColorForPair 32 = Some h
    /\ PairDisplay.tip c = ColorCode.tip s
    /\ PairDisplay.tip c = Home.tip h
    /\ ColorCode.pair s = 7.
Proof.
  destruct (colour_tables_agree 32 ltac:(lia))
    as (c & s & h & H1 & H2 & H3 & _ & H4 & _ & H5 & _ & _ & _ & H6 & _).
  exists c, s, h. repeat split; assumption.
Defined.

(** ** Totals of a cable *)

Lemma totalAssignedPairs_cons (c : Circuit) (cs : list Circuit) :
  PairDisplay.totalAssignedPairs (c :: cs)
  = (fiberEnd c - fiberStart c + 1) + PairDisplay.totalAssignedPairs cs.
Proof.
  unfold PairDisplay.totalAssignedPairs. cbn [fold_left].
  assert (G : forall (l : list Circuit) (a : Z),
            fold_left (fun sum circuit =>
                         sum + (fiberEnd circuit - fiberStart circuit + 1)) l a
            = a + fold_left (fun sum circuit =>
                         sum + (fiberEnd circuit - fiberStart circuit + 1)) l 0).
  { induction l as [|d l IH]; intros a; cbn [fold_left]; [lia|].
    rewrite (IH (a + _)), (IH (0 + _)). lia. }
  rewrite G. lia.
Qed.

(** X5. On a cable whose circuits have contiguous ranges from pair 1 on,
    the total of assigned pairs is the last pair assigned (nothing when the
    cable has no circuit), it is the sum of the pair counts of the
    identifiers, and the cable is shown as valid exactly when that last
    pair is the pair count of the cable. *)
Theorem totalAssignedPairs_contiguous (cable : Cable) (cs : list Circuit) :
  contiguousFrom 1 cs ->
  PairDisplay.totalAssignedPairs cs = default 0 (fiberEnd <$> last cs)
  /\ PairDisplay.totalAssignedPairs cs
     = foldr Z.add 0 ((fun c => default 0 (parseCircuitId (circuitId c))) <$> cs)
  /\ (PairDisplay.validationStatus cable cs = true
      <-> default 0 (fiberEnd <$> last cs) = fiberCount cable).
Proof.
  intros H.
  assert (G : forall next l, contiguousFrom next l ->
            PairDisplay.totalAssignedPairs l = default (next - 1) (fiberEnd <$> last l) - next + 1
            /\ PairDisplay.totalAssignedPairs l
               = foldr Z.add 0
                   ((fun c => default 0 (parseCircuitId (circuitId c))) <$> l)).
  { clear. intros next l. revert next.
    induction l as [|c l IH]; intros next Hc.
    - cbn. split; [lia|reflexivity].
    - destruct Hc as (Hs & Hp & Hr). destruct (IH _ Hr) as [IH1 IH2].
      rewrite totalAssignedPairs_cons, fmap_cons. cbn [foldr].
      rewrite Hp. cbn [default from_option Datatypes.id]. split; [|lia].
      rewrite IH1. destruct l as [|d l]; [cbn; lia|].
      rewrite last_cons_cons.
      destruct (last (d :: l)) eqn:E; [cbn; lia|].
      apply last_None in E. discriminate. }
  destruct (G 1 cs H) as [G1 G2]. split; [|split; [exact G2|]].
  - rewrite G1. destruct (last cs); cbn; lia.
  - unfold PairDisplay.validationStatus. rewrite Z.eqb_eq, G1.
    destruct (last cs); cbn; lia.
Qed.

Lemma totalAssignedPairs_contiguous_witness :
  let cs := [mkCircuit "c1" "d1" "lg,33-36" 0 1 4 0 None None None;
             mkCircuit "c2" "d1" "pon,1-46" 1 5 50 0 None None None] in
  contiguousFrom 1 cs
  /\ PairDisplay.totalAssignedPairs cs = 50
  /\ PairDisplay.validationStatus distCable1 cs = true.
Proof.
  intros cs.
  assert (H : contiguousFrom 1 cs) by (repeat split; reflexivity).
  split; [exact H|].
  destruct (totalAssignedPairs_contiguous distCable1 cs H) as (H1 & _ & H3).
  split; [rewrite H1; reflexivity | apply H3; reflexivity].
Defined.

(** ** The splice toggle *)

Lemma owningCable_elem (allCables : list Cable) (c : Circuit) (cab : Cable) :
  owningCable allCables c = Some cab -> cab ∈ allCables.
Proof.
  unfold owningCable. intros H. apply find_some in H as [H _].
  now apply list_elem_of_In.
Qed.

(** What the handler does on a checked circuit of a Distribution cable, in
    terms of how it reads the identifier. *)
Lemma handleCheckboxChange_read (cable : Cable) (allCables : list Cable)
    (allCircuits : list Circuit) (d : Circuit) :
  cable_type cable = Distribution ->
  match readIdentifier (circuitId d) with
  | None => exists t, handleCheckboxChange cable allCables allCircuits d true
                      = ShowToast t
  | Some (dp, ds, de) =>
      match findMatchingFeedCircuit allCables allCircuits dp ds de with
      | None => exists t, handleCheckboxChange cable allCables allCircuits d true
                          = ShowToast t
      | Some f =>
          exists cab x y fs fe,
            f ∈ allCircuits
            /\ owningCable allCables f = Some cab /\ cable_type cab = Feed
            /\ ds = Num x /\ de = Num y
            /\ readIdentifier (circuitId f) = Some (dp, Num fs, Num fe)
            /\ fs <= x /\ y <= fe
            /\ handleCheckboxChange cable allCables allCircuits d true
               = Mutate (ToggleSpliced (id d) (Some (cable_id cab))
                           (Some (Num (fiberStart f + (x - fs))))
                           (Some (Num (fiberStart f + (y - fs)))))
      end
  end.
Proof.
  intros Hc. unfold handleCheckboxChange, readIdentifier. rewrite Hc.
  two_parts comma (circuitId d) as d0 d1; try (eexists; reflexivity).
  two_parts dash (trim d1) as r0 r1; try (eexists; reflexivity).
  destruct (findMatchingFeedCircuit _ _ _ _ _) as [f|] eqn:Hf;
    [|eexists; reflexivity].
  unfold findMatchingFeedCircuit in Hf. apply find_some in Hf as [Hin Hm].
  rewrite isMatchingFeedCircuit_read in Hm.
  apply andb_true_iff in Hm as [Hfeed Hm].
  apply isFeedCableOf_true in Hfeed as (cab & Hcab & Hty).
  destruct (readIdentifier (circuitId f)) as [[[fp fs] fe]|] eqn:Hrf;
    [|discriminate].
  apply andb_true_iff in Hm as [Hm H3]. apply andb_true_iff in Hm as [H1 H2].
  apply String.eqb_eq in H1 as ->.
  unfold numGe in H2.
  destruct (parseInt None r0) as [|x], (parseInt None r1) as [|y],
    fs as [|fs], fe as [|fe]; cbn in H2, H3; try discriminate.
  exists cab, x, y, fs, fe. rewrite Hcab.
  split; [now apply list_elem_of_In|]. do 5 (split; [auto|]).
  split; [lia|]. split; [lia|].
  unfold readIdentifier in Hrf.
  two_parts comma (circuitId f) as f0 f1; try discriminate.
  cbn [lookup list_lookup default from_option Datatypes.id].
  two_parts dash (trim f1) as q0 q1; try discriminate.
  injection Hrf as _ Hq _.
  cbn [lookup list_lookup default from_option Datatypes.id fmap option_fmap option_map].
  now rewrite Hq.
Qed.

(** X7. When every circuit has a well-formed identifier and a pair range
    as long as the range of its identifier, the feed pairs that the handler
    sends for a distribution identifier with start <= end lie inside the
    pair range of a circuit of the feed cable named: the splice never
    reaches pairs outside the matched feed circuit. *)
Theorem spliced_pairs_inside_feed_circuit (cable : Cable)
    (allCables : list Cable) (allCircuits : list Circuit) (d : Circuit)
    (pd : CircuitIdParts) (i feed : string) (s e : Z) :
  Forall (fun f => exists pf,
            parseCircuitIdParts (circuitId f) = Some pf
            /\ fiberEnd f - fiberStart f = rangeEnd pf - rangeStart pf)
         allCircuits ->
  parseCircuitIdParts (circuitId d) = Some pd ->
  rangeStart pd <= rangeEnd pd ->
  handleCheckboxChange cable allCables allCircuits d true
  = Mutate (ToggleSpliced i (Some feed) (Some (Num s)) (Some (Num e))) ->
  exists f,
    f ∈ allCircuits /\ cableId f = feed
    /\ fiberStart f <= s /\ s <= e /\ e <= fiberEnd f.
Proof.
  intros Hall Hpd Hle H.
  destruct (cable_type cable) eqn:Hc.
  { unfold handleCheckboxChange in H. rewrite Hc in H. discriminate. }
  pose proof (handleCheckboxChange_read cable allCables allCircuits d Hc) as R.
  rewrite (readIdentifier_parts _ _ Hpd) in R.
  destruct (findMatchingFeedCircuit _ _ _ _ _) as [f|];
    [|destruct R as [t R]; congruence].
  destruct R as (cab & x & y & fs & fe & Hin & Hcab & Hty & [= <-] & [= <-]
                 & Hrf & H1 & H2 & R).
  rewrite R in H. injection H as _ Hfeed <- <-.
  rewrite Forall_forall in Hall. destruct (Hall f Hin) as (pf & Hpf & Hlen).
  rewrite (readIdentifier_parts _ _ Hpf) in Hrf. injection Hrf as _ <- <-.
  exists f. split; [exact Hin|]. split; [|lia].
  rewrite <- Hfeed. symmetry. eapply owningCable_id; eauto.
Qed.

Lemma spliced_pairs_inside_feed_circuit_witness :
  let feed := mkCircuit "c1" "f1" "test,1-12" 1 9 20 0 None None None in
  let d := mkCircuit "c2" "d1" "test,3-4" 0 1 2 0 None None None in
  exists f, f ∈ [feed; d] /\ cableId f = "f1"
            /\ fiberStart f <= 11 /\ 11 <= 12 /\ 12 <= fiberEnd f.
Proof.
  intros feed d.
  apply (spliced_pairs_inside_feed_circuit distCable1 [feedCable1; distCable1]
           [feed; d] d {| prefix := "test"; rangeStart := 3; rangeEnd := 4 |}
           "c2" "f1" 11 12).
  - repeat constructor.
    + exists {| prefix := "test"; rangeStart := 1; rangeEnd := 12 |}.
      split; reflexivity.
    + exists {| prefix := "test"; rangeStart := 3; rangeEnd := 4 |}.
      split; reflexivity.
  - reflexivity.
  - simpl. lia.
  - reflexivity.
Defined.

(** X8. The checkbox handler does not report a range that is not
    numeric as a format error: when the identifier of a checked circuit of
    a Distribution cable has one comma and one dash but a start or an end
    that [parseInt] reads as [NaN], no feed circuit can match, and the
    handler shows "No matching Feed circuit found" with the range as read,
    whatever cables and circuits there are. *)
Theorem non_numeric_range_finds_no_feed (cable : Cable)
    (allCables : list Cable) (allCircuits : list Circuit) (d : Circuit)
    (dp : string) (ds de : number) :
  cable_type cable = Distribution ->
  readIdentifier (circuitId d) = Some (dp, ds, de) ->
  ds = NaN \/ de = NaN ->
  handleCheckboxChange cable allCables allCircuits d true
  = ShowToast {| title := "No matching Feed circuit found";
                 description := Some (noMatchDescription dp ds de) |}.
Proof.
  intros Hc Hr Hnan. unfold handleCheckboxChange. rewrite Hc.
  unfold readIdentifier in Hr.
  two_parts comma (circuitId d) as d0 d1; try discriminate.
  two_parts dash (trim d1) as r0 r1; try discriminate.
  injection Hr as <- <- <-.
  assert (findMatchingFeedCircuit allCables allCircuits (trim d0)
            (parseInt None r0) (parseInt None r1) = None) as ->;
    [|reflexivity].
  apply find_none, Forall_forall. intros c _.
  rewrite isMatchingFeedCircuit_read.
  destruct (isFeedCableOf allCables c); [|reflexivity]. cbn [andb].
  destruct (readIdentifier (circuitId c)) as [[[fp fs] fe]|]; [|reflexivity].
  unfold numGe.
  destruct Hnan as [-> | ->]; destruct fs, fe, (String.eqb fp (trim d0));
    cbn; try reflexivity; now rewrite ?andb_false_r.
Qed.

Lemma non_numeric_range_finds_no_feed_witness :
  let feed := mkCircuit "c1" "f1" "test,1-12" 1 9 20 0 None None None in
  let d := mkCircuit "c2" "d1" "test,a-4" 0 1 2 0 None None None in
  handleCheckboxChange distCable1 [feedCable1; distCable1] [feed; d] d true
  = ShowToast {| title := "No matching Feed circuit found";
                 description :=
                   Some (noMatchDescription "test" NaN (Num 4)) |}.
Proof.
  intros feed d.
  apply (non_numeric_range_finds_no_feed distCable1 [feedCable1; distCable1]
           [feed; d] d "test" NaN (Num 4)); [reflexivity|reflexivity|now left].
Defined.

(** ** The validator of the component, further *)

Lemma digitOfRadix_nonneg (R : Z) (c : ascii) (d : Z) :
  digitOfRadix R c = Some d -> 0 <= d.
Proof.
  unfold digitOfRadix.
  destruct ((48 <=? code c) && (code c <=? 57)) eqn:E1;
    [|destruct ((97 <=? code c) && (code c <=? 122)) eqn:E2;
      [|destruct ((65 <=? code c) && (code c <=? 90)) eqn:E3]];
    try discriminate;
    match goal with |- context [?a <? R] => destruct (a <? R) end;
    intros [= <-]; lia.
Qed.

Lemma radixDigits_nonneg (R : Z) (s : string) (acc : number) (z : Z) :
  0 <= R ->
  match acc with Num a => 0 <= a | NaN => True end ->
  radixDigits R acc s = Num z -> 0 <= z.
Proof.
  intros HR. revert acc. induction s as [|c r IH]; intros acc Hacc; cbn.
  - intros ->. exact Hacc.
  - destruct (digitOfRadix R c) as [d|] eqn:Ed.
    + apply IH. apply digitOfRadix_nonneg in Ed. destruct acc; nia.
    + intros ->. exact Hacc.
Qed.

(** A text without a dash never reads as a negative number. *)
Lemma parseInt_nonneg (s : string) (z : Z) :
  includes dash s = false -> parseInt None s = Num z -> 0 <= z.
Proof.
  intros Hd. apply includes_trimStart in Hd. unfold parseInt.
  destruct (trimStart s) as [|c r] eqn:E.
  - cbn. discriminate.
  - cbn in Hd. apply orb_false_iff in Hd as [Hc Hr].
    change (Ascii.eqb c "-") with (Ascii.eqb c dash). rewrite Hc.
    assert (G : forall t, radixAbsent None = true ->
              (let '(R, s3) :=
                 if (default 10 None =? 16) || radixAbsent None then
                   match stripHexPrefix t with
                   | Some r => (16, r)
                   | None => (default 10 None, t)
                   end
                 else (default 10 None, t) in
               numScale 1 (radixDigits R NaN s3)) = Num z -> 0 <= z).
    { intros t _. cbn. destruct (stripHexPrefix t) as [h|]; cbn.
      - destruct (radixDigits 16 NaN h) as [|v] eqn:Ev; [discriminate|].
        intros [= <-]. apply radixDigits_nonneg in Ev; [lia|lia|exact I].
      - destruct (radixDigits 10 NaN t) as [|v] eqn:Ev; [discriminate|].
        intros [= <-]. apply radixDigits_nonneg in Ev; [lia|lia|exact I]. }
    destruct (Ascii.eqb c "+"); apply G; reflexivity.
Qed.

Lemma split_parts_no_sep (sep : ascii) (s : string) :
  Forall (fun p => includes sep p = false) (split sep s).
Proof.
  induction s as [|c r IH]; cbn.
  - repeat constructor.
  - destruct (Ascii.eqb c sep) eqn:E.
    + constructor; [reflexivity|exact IH].
    + destruct (split sep r) as [|h t].
      * repeat constructor. cbn. now rewrite E.
      * inversion IH; subst. constructor; [|assumption]. cbn. now rewrite E.
Qed.

Lemma readIdentifier_nonneg (s p : string) (a b : Z) :
  readIdentifier s = Some (p, Num a, Num b) -> 0 <= a /\ 0 <= b.
Proof.
  unfold readIdentifier.
  two_parts comma s as p0 p1; try discriminate.
  pose proof (split_parts_no_sep dash (trim p1)) as Hd.
  two_parts dash (trim p1) as r0 r1; try discriminate.
  inversion Hd as [|? ? H0 Hd']; subst. inversion Hd' as [|? ? H1 _]; subst.
  intros [= _ Ha Hb].
  split; [exact (parseInt_nonneg r0 a H0 Ha) | exact (parseInt_nonneg r1 b H1 Hb)].
Qed.

(** X6. Take identifiers whose numbers are at most 2^52 and circuits whose
    first pair is at most 2^52 in absolute value, so that the arithmetic of
    the handler is exact. A mutation started by the checkbox handler is
    then one of two things. It clears the splice (no feed cable, no range),
    when the cable is a Feed cable or the box was unchecked. Or it names a
    cable of [allCables] that is a Feed cable and owns a circuit of
    [allCircuits] whose identifier has the prefix of the distribution
    identifier and contains its range; the range sent then consists of two
    integers of at most 2^53 in absolute value, never [NaN], it starts at
    the first pair of that feed circuit plus the offset of the two
    identifier ranges, and it is as long as the range of the distribution
    identifier. *)
Theorem splice_mutation_sound (cable : Cable) (allCables : list Cable)
    (allCircuits : list Circuit) (d : Circuit) (checked : bool)
    (m : Mutation) :
  exactNumbers d -> Forall exactNumbers allCircuits ->
  handleCheckboxChange cable allCables allCircuits d checked = Mutate m ->
  (m = ToggleSpliced (id d) None None None
   /\ (cable_type cable = Feed \/ checked = false))
  \/ exists f cab dp ds de fs fe s e,
       cable_type cable = Distribution /\ checked = true
       /\ f ∈ allCircuits /\ cab ∈ allCables
       /\ cable_id cab = cableId f /\ cable_type cab = Feed
       /\ readIdentifier (circuitId d) = Some (dp, Num ds, Num de)
       /\ readIdentifier (circuitId f) = Some (dp, Num fs, Num fe)
       /\ fs <= ds /\ de <= fe
       /\ m = ToggleSpliced (id d) (Some (cable_id cab))
                (Some (Num s)) (Some (Num e))
       /\ s = fiberStart f + (ds - fs)
       /\ e - s = de - ds
       /\ - 2 ^ 53 <= s <= 2 ^ 53 /\ - 2 ^ 53 <= e <= 2 ^ 53.
Proof.
  intros Hd Hall H.
  destruct (cable_type cable) eqn:Hc.
  { left. unfold handleCheckboxChange in H. rewrite Hc in H.
    injection H as <-. auto. }
  destruct checked.
  2:{ left. unfold handleCheckboxChange in H. rewrite Hc in H.
      injection H as <-. auto. }
  right. pose proof (handleCheckboxChange_read cable allCables allCircuits d Hc) as R.
  destruct (readIdentifier (circuitId d)) as [[[dp ds] de]|] eqn:Hrd;
    [|destruct R as [t R]; congruence].
  destruct (findMatchingFeedCircuit _ _ _ _ _) as [f|];
    [|destruct R as [t R]; congruence].
  destruct R as (cab & x & y & fs & fe & Hin & Hcab & Hty & -> & -> & Hrf
                 & H1 & H2 & R).
  rewrite R in H. injection H as <-.
  destruct (readIdentifier_nonneg _ _ _ _ Hrd) as [Hx0 Hy0].
  destruct (readIdentifier_nonneg _ _ _ _ Hrf) as [Hfs0 Hfe0].
  destruct Hd as [_ Hd]. destruct (Hd _ _ _ Hrd) as [Hx1 Hy1].
  rewrite Forall_forall in Hall. destruct (Hall f Hin) as [Hf1 Hf2].
  destruct (Hf2 _ _ _ Hrf) as [Hfs1 Hfe1].
  exists f, cab, dp, x, y, fs, fe, (fiberStart f + (x - fs)),
    (fiberStart f + (y - fs)).
  change (2 ^ 52) with 4503599627370496 in *.
  change (2 ^ 53) with 9007199254740992.
  repeat split; auto; try lia.
  - eapply owningCable_elem; eauto.
  - eapply owningCable_id; eauto.
Qed.

Lemma splice_mutation_sound_witness :
  let feed := mkCircuit "c1" "f1" "test,1-12" 1 9 20 0 None None None in
  let d := mkCircuit "c2" "d1" "test,3-4" 0 1 2 0 None None None in
  exactNumbers feed /\ exactNumbers d
  /\ exists s e,
       handleCheckboxChange distCable1 [feedCable1; distCable1] [feed; d] d true
       = Mutate (ToggleSpliced "c2" (Some "f1") (Some (Num s)) (Some (Num e)))
       /\ e - s = 4 - 3.
Proof.
  intros feed d.
  assert (Hf : exactNumbers feed).
  { split; [vm_compute; discriminate|]. intros p a b Hr.
    vm_compute in Hr. injection Hr as _ <- <-. split; vm_compute; discriminate. }
  assert (Hd : exactNumbers d).
  { split; [vm_compute; discriminate|]. intros p a b Hr.
    vm_compute in Hr. injection Hr as _ <- <-. split; vm_compute; discriminate. }
  split; [exact Hf|]. split; [exact Hd|].
  assert (H : handleCheckboxChange distCable1 [feedCable1; distCable1]
                [feed; d] d true
              = Mutate (ToggleSpliced "c2" (Some "f1") (Some (Num 11))
                          (Some (Num 12))))
    by (vm_compute; reflexivity).
  destruct (splice_mutation_sound distCable1 [feedCable1; distCable1] [feed; d]
              d true _ Hd
              (List.Forall_cons _ _ _ Hf
                 (List.Forall_cons _ _ _ Hd (List.Forall_nil _))) H)
    as [[H' _]|(f & cab & dp & ds & de & fs & fe & s & e & _ & _ & _ & _ & _ & _
               & Hrd & _ & _ & _ & Hm & _ & He & _)].
  - discriminate H'.
  - exists s, e. vm_compute in Hrd. injection Hrd as _ <- <-.
    split; [|exact He]. injection Hm as _ <- <-. exact H.
Defined.

(** X9. An identifier that the validator accepts has exactly one comma,
    exactly one dash after it, and two numbers around the dash that are
    integers and not negative (a minus sign would be a second dash); and no
    circuit of the cable other than the excluded one makes the overlap test
    of the validator true. *)
Theorem accepted_identifier_shape (circuits : list Circuit)
    (newCircuitId : string) (excludeCircuitId : option string) :
  parseAndCheckCircuitId circuits newCircuitId excludeCircuitId = Valid ->
  exists p s e,
    readIdentifier newCircuitId = Some (p, Num s, Num e)
    /\ 0 <= s /\ 0 <= e
    /\ countChar comma newCircuitId = 1%nat
    /\ Forall (fun c => overlapsExisting p (Num s) (Num e) excludeCircuitId c
                        = false) circuits.
Proof.
  unfold parseAndCheckCircuitId, readIdentifier.
  pose proof (split_length comma newCircuitId) as Hlen.
  two_parts comma newCircuitId as p0 p1; try discriminate.
  pose proof (split_parts_no_sep dash (trim p1)) as Hnd.
  two_parts dash (trim p1) as r0 r1; try discriminate.
  destruct (parseInt None r0) as [|s] eqn:E0; [discriminate|].
  destruct (parseInt None r1) as [|e] eqn:E1; [discriminate|].
  cbn [isNaN orb].
  destruct (List.find _ circuits) eqn:Ef; [discriminate|]. intros _.
  inversion Hnd as [|? ? H0 Hnd']; subst. inversion Hnd' as [|? ? H1 _]; subst.
  exists (trim p0), s, e. split; [reflexivity|].
  split; [exact (parseInt_nonneg r0 s H0 E0)|].
  split; [exact (parseInt_nonneg r1 e H1 E1)|].
  split; [cbn in Hlen; lia|].
  now apply find_none.
Qed.

Lemma accepted_identifier_shape_witness :
  let c := mkCircuit "c1" "d1" "pon,9-16" 0 1 8 0 None None None in
  exists p s e,
    readIdentifier "pon,1-8" = Some (p, Num s, Num e) /\ 0 <= s /\ 0 <= e.
Proof.
  intros c.
  destruct (accepted_identifier_shape [c] "pon,1-8" None eq_refl)
    as (p & s & e & H & Hs & He & _).
  now exists p, s, e.
Defined.

(** X10. Whether the validator accepts an identifier does not depend on the
    order of the circuits nor on how often one occurs, and taking circuits
    away never turns an accepted identifier into a refused one: accepted
    against a list, it is accepted against every list whose circuits all
    occur in the first. *)
Theorem accepted_against_fewer_circuits (circuits circuits' : list Circuit)
    (newCircuitId : string) (excludeCircuitId : option string) :
  (forall c, c ∈ circuits' -> c ∈ circuits) ->
  parseAndCheckCircuitId circuits newCircuitId excludeCircuitId = Valid ->
  parseAndCheckCircuitId circuits' newCircuitId excludeCircuitId = Valid.
Proof.
  intros Hsub. unfold parseAndCheckCircuitId.
  two_parts comma newCircuitId as p0 p1; try discriminate.
  two_parts dash (trim p1) as r0 r1; try discriminate.
  destruct (isNaN (parseInt None r0) || isNaN (parseInt None r1));
    [discriminate|].
  destruct (List.find _ circuits) eqn:Ef; [discriminate|]. intros _.
  apply find_none in Ef. rewrite Forall_forall in Ef.
  assert (List.find (overlapsExisting (trim p0) (parseInt None r0)
                       (parseInt None r1) excludeCircuitId) circuits' = None)
    as ->; [|reflexivity].
  apply find_none, Forall_forall. intros c Hc. apply Ef, Hsub, Hc.
Qed.

Lemma accepted_against_fewer_circuits_witness :
  let a := mkCircuit "c1" "d1" "pon,9-16" 0 1 8 0 None None None in
  let b := mkCircuit "c2" "d1" "lg,1-8" 1 9 16 0 None None None in
  parseAndCheckCircuitId [a; b] "pon,1-8" None = Valid
  /\ parseAndCheckCircuitId [b; a; b] "pon,1-8" None = Valid
  /\ parseAndCheckCircuitId [b] "pon,1-8" None = Valid.
Proof.
  intros a b.
  assert (H : parseAndCheckCircuitId [a; b] "pon,1-8" None = Valid)
    by reflexivity.
  split; [exact H|]. split.
  - apply (accepted_against_fewer_circuits [a; b] [b; a; b]); [|exact H].
    intros c. rewrite !elem_of_cons, !elem_of_nil. tauto.
  - apply (accepted_against_fewer_circuits [a; b] [b]); [|exact H].
    intros c. rewrite !elem_of_cons, !elem_of_nil. tauto.
Defined.

Lemma overlapsExisting_parts (new : string) (pn pc : CircuitIdParts)
    (ex : option string) (c : Circuit) :
  parseCircuitIdParts new = Some pn ->
  parseCircuitIdParts (circuitId c) = Some pc ->
  overlapsExisting (prefix pn) (Num (rangeStart pn)) (Num (rangeEnd pn)) ex c
  = negb (isExcluded ex c) && circuitIdsOverlap new (circuitId c).
Proof.
  intros Hn Hc. rewrite overlapsExisting_read.
  rewrite (readIdentifier_parts _ _ Hc). unfold circuitIdsOverlap.
  rewrite Hn, Hc. cbn [isNaN orb negb andb]. unfold numGe. cbn [numLe].
  destruct (isExcluded ex c); cbn [negb andb]; [reflexivity|].
  destruct (String.eqb (prefix pn) (prefix pc)); reflexivity.
Qed.

(** X11. On well-formed identifiers the validator of the component and
    [circuitIdsOverlap] of the schema agree: when the new identifier and
    all identifiers of the cable parse, the new one is accepted exactly
    when it overlaps no circuit of the cable other than the excluded
    one. *)
Theorem validator_agrees_with_schema (circuits : list Circuit)
    (newCircuitId : string) (excludeCircuitId : option string) :
  is_Some (parseCircuitIdParts newCircuitId) ->
  Forall (fun c => is_Some (parseCircuitIdParts (circuitId c))) circuits ->
  (parseAndCheckCircuitId circuits newCircuitId excludeCircuitId = Valid
   <-> Forall (fun c => isExcluded excludeCircuitId c = false ->
                        circuitIdsOverlap newCircuitId (circuitId c) = false)
              circuits).
Proof.
  intros [pn Hn] Hall. split; [apply parseAndCheckCircuitId_valid|].
  intros H.
  rewrite (parseAndCheckCircuitId_read _ _ _ _ _ _ (readIdentifier_parts _ _ Hn)).
  assert (List.find (overlapsExisting (prefix pn) (Num (rangeStart pn))
                       (Num (rangeEnd pn)) excludeCircuitId) circuits = None)
    as ->; [|reflexivity].
  apply find_none. rewrite Forall_forall in *. intros c Hc.
  destruct (Hall c Hc) as [pc Hpc].
  rewrite (overlapsExisting_parts _ _ _ _ _ Hn Hpc).
  destruct (isExcluded excludeCircuitId c) eqn:E; [reflexivity|].
  now rewrite (H c Hc E).
Qed.

Lemma validator_agrees_with_schema_witness :
  let a := mkCircuit "c1" "d1" "pon,9-16" 0 1 8 0 None None None in
  let b := mkCircuit "c2" "d1" "pon,1-8" 1 9 16 0 None None None in
  is_Some (parseCircuitIdParts "pon,8-9")
  /\ circuitIdsOverlap "pon,8-9" (circuitId a) = true
  /\ parseAndCheckCircuitId [a; b] "pon,8-9" (Some "c2") <> Valid.
Proof.
  intros a b.
  assert (Hn : is_Some (parseCircuitIdParts "pon,8-9")) by (eexists; reflexivity).
  split; [exact Hn|]. split; [reflexivity|].
  intros H.
  apply (validator_agrees_with_schema [a; b] "pon,8-9" (Some "c2") Hn) in H.
  - inversion H as [|? ? Ha _]; subst. discriminate (Ha eq_refl).
  - repeat constructor; eexists; reflexivity.
Defined.

(** ** Adding and editing, further *)

Lemma trimStart_blank (s : string) :
  trimStart s = "" <-> allWhiteSpace s = true.
Proof.
  induction s as [|c r IH]; cbn; [tauto|].
  destruct (isWhiteSpace c); cbn; [exact IH|]. split; discriminate.
Qed.

Lemma trimEnd_empty (s : string) : trimEnd s = "" -> trimStart s = "".
Proof.
  induction s as [|c r IH]; cbn; [reflexivity|].
  destruct (isWhiteSpace c) eqn:E; cbn.
  - destruct (isEmpty (trimEnd r)) eqn:E'; [|discriminate].
    intros _. apply IH. now apply isEmpty_true.
  - discriminate.
Qed.

Lemma trim_blank (s : string) : trim s = "" <-> allWhiteSpace s = true.
Proof.
  rewrite <- trimStart_blank. unfold trim. split.
  - intros H. apply trimEnd_empty in H. now rewrite trimStart_idem in H.
  - now intros ->.
Qed.

(** X12. The two handlers refuse blank input before anything else: adding
    shows "Missing circuit ID" exactly when the text is empty or all white
    space, and saving an edit shows "Circuit ID required" exactly then,
    whatever circuits the cable has. *)
Theorem blank_input_refused (cable : Cable) (circuits : list Circuit)
    (circuitId input : string) :
  (handleAddCircuit cable circuits input
   = ShowToast {| title := "Missing circuit ID";
                  description :=
                    Some "Please enter a circuit ID (e.g., lg,33-36)" |}
   <-> allWhiteSpace input = true)
  /\ (handleSaveEdit circuits circuitId input
      = ShowToast {| title := "Circuit ID required";
                     description := Some "Please enter a valid circuit ID" |}
      <-> allWhiteSpace input = true).
Proof.
  rewrite <- !trim_blank, <- !isEmpty_true.
  unfold handleAddCircuit, handleSaveEdit.
  destruct (isEmpty (trim input)); split; split; try reflexivity;
    try discriminate;
    destruct (parseAndCheckCircuitId _ _ _); discriminate.
Qed.

Lemma trimEnd_snoc_space (w : ascii) (v : string) :
  isWhiteSpace w = true -> trimEnd (v +:+ String w "") = trimEnd v.
Proof.
  intros Hw. induction v as [|c r IH]; cbn.
  - now rewrite Hw.
  - now rewrite IH.
Qed.

Lemma trim_snoc_space (w : ascii) (v : string) :
  isWhiteSpace w = true -> trim (v +:+ String w "") = trim v.
Proof.
  intros Hw. unfold trim. rewrite <- !trimStart_trimEnd.
  now rewrite trimEnd_snoc_space.
Qed.

Lemma endsWithDigit_app (a b : string) :
  b <> "" -> endsWithDigit (a +:+ b) = endsWithDigit b.
Proof.
  intros Hb. induction a as [|c r IH]; [reflexivity|].
  cbn [String.append]. cbn [endsWithDigit]. rewrite IH.
  destruct (r +:+ b) eqn:E; [|reflexivity].
  destruct r; [cbn in E; congruence | discriminate].
Qed.

Lemma parseCircuitId_ends_with_digit (s : string) :
  endsWithDigit s = false -> parseCircuitId s = None.
Proof.
  intros H. unfold parseCircuitId.
  destruct (matchRangeAtEnd s) as [[d1 d2]|] eqn:E; [|reflexivity].
  apply matchRangeAtEnd_Some in E as (pre & -> & H1 & H2 & _).
  rewrite <- !append_assoc in H.
  change (String dash d2) with ("-" +:+ d2) in H.
  rewrite <- append_assoc in H.
  rewrite endsWithDigit_app in H by apply H2.
  rewrite numeral_endsWithDigit in H by apply H2. discriminate.
Qed.

(** X13. Saving an edit checks the trimmed text but sends the text as
    typed. So a text that is accepted is still accepted with a white-space
    character added at its end, and the identifier sent then ends with
    that character: [parseCircuitIdParts] reads it as it reads the text
    without it, while [parseCircuitId], whose pattern is anchored at the end
    of the string, fails on it. *)
Theorem edit_sends_text_as_typed (circuits : list Circuit)
    (circuitId value : string) (w : ascii) (m : Mutation) :
  isWhiteSpace w = true ->
  handleSaveEdit circuits circuitId value = Mutate m ->
  m = UpdateCircuitId circuitId value
  /\ handleSaveEdit circuits circuitId (value +:+ String w "")
     = Mutate (UpdateCircuitId circuitId (value +:+ String w ""))
  /\ parseCircuitIdParts (value +:+ String w "") = parseCircuitIdParts value
  /\ parseCircuitId (value +:+ String w "") = None.
Proof.
  intros Hw H. unfold handleSaveEdit in *. rewrite (trim_snoc_space w value Hw).
  destruct (isEmpty (trim value)); [discriminate|].
  destruct (parseAndCheckCircuitId _ _ _); [|discriminate].
  injection H as <-. repeat split.
  - rewrite <- (parseCircuitIdParts_trim (value +:+ String w "")).
    rewrite (trim_snoc_space w value Hw). apply parseCircuitIdParts_trim.
  - apply parseCircuitId_ends_with_digit.
    rewrite endsWithDigit_app by discriminate. cbn.
    destruct (isDigit w) eqn:E; [|reflexivity].
    apply digit_not_space in E. congruence.
Qed.

Lemma edit_sends_text_as_typed_witness :
  isWhiteSpace " " = true
  /\ handleSaveEdit [] "c1" "pon,1-8" = Mutate (UpdateCircuitId "c1" "pon,1-8")
  /\ handleSaveEdit [] "c1" "pon,1-8 " = Mutate (UpdateCircuitId "c1" "pon,1-8 ")
  /\ parseCircuitId "pon,1-8 " = None.
Proof.
  split; [reflexivity|]. split; [reflexivity|].
  destruct (edit_sends_text_as_typed [] "c1" "pon,1-8" " "
              (UpdateCircuitId "c1" "pon,1-8") eq_refl eq_refl)
    as (_ & H1 & _ & H2).
  split; [exact H1 | exact H2].
Defined.

(** X14. Adding sends the trimmed text: white space around the input
    changes nothing of what the handler does, and an identifier it sends
    has no white space at either end. *)
Theorem add_sends_trimmed_text (cable : Cable) (circuits : list Circuit)
    (input : string) :
  handleAddCircuit cable circuits (trim input)
  = handleAddCircuit cable circuits input
  /\ forall cableId circuitId,
       handleAddCircuit cable circuits input
       = Mutate (CreateCircuit cableId circuitId) ->
       cableId = cable_id cable /\ circuitId = trim input
       /\ trim circuitId = circuitId /\ circuitId <> "".
Proof.
  unfold handleAddCircuit. rewrite trim_idem. split; [reflexivity|].
  intros cid ident. destruct (isEmpty (trim input)) eqn:E; [discriminate|].
  destruct (parseAndCheckCircuitId _ _ _); [|discriminate].
  intros [= <- <-]. repeat split; [apply trim_idem|].
  intros H. apply isEmpty_true in H. congruence.
Qed.

Lemma add_sends_trimmed_text_witness :
  handleAddCircuit distCable1 [] " pon,1-8 "
  = Mutate (CreateCircuit "d1" "pon,1-8")
  /\ trim "pon,1-8" = "pon,1-8".
Proof.
  split; [reflexivity|].
  destruct (add_sends_trimmed_text distCable1 [] " pon,1-8 ") as [_ H].
  destruct (H "d1" "pon,1-8" eq_refl) as (_ & _ & Ht & _). exact Ht.
Defined.

(** ** Identifiers, further *)

(** X15. An identifier equal to that of the only circuit of a cable is
    accepted exactly when its range is reversed: a well-formed identifier
    overlaps itself when start <= end, and a reversed one overlaps
    nothing, not even itself. *)
Theorem duplicate_identifier (c : Circuit) (p : CircuitIdParts) :
  parseCircuitIdParts (circuitId c) = Some p ->
  (parseAndCheckCircuitId [c] (circuitId c) None = Valid
   <-> rangeEnd p < rangeStart p).
Proof.
  intros Hp.
  rewrite (parseAndCheckCircuitId_read _ _ _ _ _ _ (readIdentifier_parts _ _ Hp)).
  cbn [List.find]. rewrite (overlapsExisting_parts _ _ _ _ _ Hp Hp).
  cbn [isExcluded negb andb]. unfold circuitIdsOverlap.
  rewrite Hp, String.eqb_refl. cbn [negb].
  destruct ((rangeStart p <=? rangeEnd p) && (rangeStart p <=? rangeEnd p))
    eqn:E.
  - split; [discriminate|]. apply andb_true_iff in E. lia.
  - split; [|reflexivity]. intros _. apply andb_false_iff in E. lia.
Qed.

Lemma duplicate_identifier_witness :
  let c := mkCircuit "c1" "d1" "pon,8-1" 0 1 (-6) 0 None None None in
  parseCircuitIdParts (circuitId c)
  = Some {| prefix := "pon"; rangeStart := 8; rangeEnd := 1 |}
  /\ parseAndCheckCircuitId [c] "pon,8-1" None = Valid.
Proof.
  intros c. split; [reflexivity|].
  apply (duplicate_identifier c
           {| prefix := "pon"; rangeStart := 8; rangeEnd := 1 |} eq_refl).
  simpl. lia.
Defined.

Lemma trimStart_decompose (s : string) :
  exists ws, allWhiteSpace ws = true /\ s = ws +:+ trimStart s.
Proof.
  induction s as [|c r IH]; [now exists ""|]. cbn.
  destruct (isWhiteSpace c) eqn:E.
  - destruct IH as (ws & Hws & Hr). exists (String c ws). cbn.
    rewrite E, Hws. split; [reflexivity|]. now rewrite <- Hr.
  - now exists "".
Qed.

Lemma allWhiteSpace_endsWithDigit (ws : string) :
  allWhiteSpace ws = true -> endsWithDigit ws = false.
Proof.
  induction ws as [|c r IH]; [reflexivity|]. cbn [allWhiteSpace].
  intros H. apply andb_true_iff in H as [Hc Hr]. cbn [endsWithDigit].
  destruct r; [|now apply IH].
  destruct (isDigit c) eqn:E; [|reflexivity].
  apply digit_not_space in E. congruence.
Qed.

(** X16. The pair count agrees with the parsed parts: when
    [parseCircuitIdParts] reads an identifier as prefix, start and end,
    [parseCircuitId] of the trimmed identifier is end - start + 1. *)
Theorem parseCircuitId_of_parts (s : string) (p : CircuitIdParts) :
  parseCircuitIdParts s = Some p ->
  parseCircuitId (trim s) = Some (rangeEnd p - rangeStart p + 1).
Proof.
  intros H. apply parseCircuitIdParts_Some in H
    as (a & b & d1 & d2 & Hs & (Hb & H1 & H2) & ->).
  cbn [rangeStart rangeEnd].
  assert (Hsplit : split comma s = [a; b]) by now apply split_two.
  apply split_comma_trim in Hsplit. apply split_two in Hsplit as (Ht & _ & _).
  destruct (trimStart_decompose (trimEnd b)) as (ws & Hws & Hdec).
  rewrite trimStart_trimEnd in Hdec. fold (trim b) in Hdec. rewrite Hb in Hdec.
  unfold parseCircuitId.
  assert (matchRangeAtEnd (trim s) = Some (d1, d2)) as ->.
  { apply matchRangeAtEnd_Some.
    exists (trimStart a +:+ String comma ws). split; [|split; [exact H1|split; [exact H2|]]].
    - rewrite Ht, Hdec.
      change (String comma (ws +:+ d1 +:+ String dash d2))
        with ("," +:+ (ws +:+ (d1 +:+ String dash d2))).
      change (String comma ws) with ("," +:+ ws).
      now rewrite !append_assoc.
    - change (String comma ws) with ("," +:+ ws).
      destruct ws as [|c r].
      + rewrite endsWithDigit_app by discriminate. reflexivity.
      + rewrite <- append_assoc, endsWithDigit_app by discriminate.
        now apply allWhiteSpace_endsWithDigit. }
  now rewrite (decimal_numeral d1 H1), (decimal_numeral d2 H2).
Qed.

Lemma parseCircuitId_of_parts_witness :
  parseCircuitIdParts " ks , 219-228 "
  = Some {| prefix := "ks"; rangeStart := 219; rangeEnd := 228 |}
  /\ parseCircuitId (trim " ks , 219-228 ") = Some 10.
Proof.
  split; [reflexivity|].
  apply (parseCircuitId_of_parts " ks , 219-228 "
           {| prefix := "ks"; rangeStart := 219; rangeEnd := 228 |} eq_refl).
Defined.

Lemma normalizeCircuitId_tokens (input : string) (pre : list string)
    (s e : string) :
  includes comma (trim input) = false ->
  splitWhitespace (trim input) = pre ++ [s; e] -> pre <> [] ->
  normalizeCircuitId input = joinEmpty pre +:+ "," +:+ s +:+ "-" +:+ e.
Proof.
  intros Hc Hs Hp. unfold normalizeCircuitId. rewrite Hc, Hs.
  assert (Hl : length (pre ++ [s; e]) = (length pre + 2)%nat)
    by (rewrite length_app; reflexivity).
  rewrite Hl.
  destruct (Nat.ltb_spec (length pre + 2) 3) as [Hlt|_].
  - destruct pre; [contradiction | simpl in Hlt; lia].
  - replace (length pre + 2 - 2)%nat with (length pre) by lia.
    replace (length pre + 2 - 1)%nat with (length pre + 1)%nat by lia.
    rewrite take_app_length.
    rewrite (lookup_app_r pre [s; e] (length pre + 1)) by lia.
    rewrite (lookup_app_r pre [s; e] (length pre)) by lia.
    replace (length pre + 1 - length pre)%nat with 1%nat by lia.
    replace (length pre - length pre)%nat with 0%nat by lia.
    reflexivity.
Qed.

Lemma splitWs_no_char (c : ascii) (inRun : bool) (s : string) :
  includes c s = false ->
  Forall (fun p => includes c p = false) (splitWs inRun s).
Proof.
  revert inRun. induction s as [|a r IH]; intros inRun; cbn.
  - repeat constructor.
  - intros H. apply orb_false_iff in H as [Ha Hr].
    destruct (isWhiteSpace a).
    + destruct inRun; [now apply IH|]. constructor; [reflexivity|now apply IH].
    + specialize (IH false Hr). destruct (splitWs false r) as [|h t].
      * repeat constructor. cbn. now rewrite Ha.
      * inversion IH; subst. constructor; [|assumption]. cbn. now rewrite Ha.
Qed.

Lemma joinEmpty_no_char (c : ascii) (l : list string) :
  Forall (fun p => includes c p = false) l -> includes c (joinEmpty l) = false.
Proof.
  induction 1 as [|p l Hp Hl IH]; [reflexivity|].
  change (joinEmpty (p :: l)) with (p +:+ joinEmpty l).
  now rewrite includes_app, Hp, IH.
Qed.

Lemma includes_countChar (c : ascii) (s : string) :
  includes c s = false <-> countChar c s = 0%nat.
Proof.
  induction s as [|a r IH]; cbn; [tauto|].
  destruct (Ascii.eqb a c); cbn; [split; discriminate|exact IH].
Qed.

Lemma countChar_app (c : ascii) (a b : string) :
  countChar c (a +:+ b) = (countChar c a + countChar c b)%nat.
Proof.
  induction a as [|x r IH]; cbn; [reflexivity|].
  destruct (Ascii.eqb x c); cbn; now rewrite IH.
Qed.

(** X17. Normalization followed by parsing: for an input without a comma
    whose tokens are [pre ++ [s; e]] with [pre] not empty, the normalized
    identifier parses exactly when [s] and [e] are numerals, and it then
    has the joined tokens of [pre] as its prefix; when the two numerals are
    at most 2^53 - 1 it has their values as its range and end - start + 1
    as its pair count. *)
Theorem normalized_identifier_parses (input : string) (pre : list string)
    (s e : string) :
  includes comma (trim input) = false ->
  splitWhitespace (trim input) = pre ++ [s; e] -> pre <> [] ->
  (is_Some (parseCircuitIdParts (normalizeCircuitId input))
   <-> isNumeral s /\ isNumeral e)
  /\ (forall p,
        parseCircuitIdParts (normalizeCircuitId input) = Some p ->
        prefix p = joinEmpty pre)
  /\ (isNumeral s -> isNumeral e -> safeNumeral s -> safeNumeral e ->
      parseCircuitIdParts (normalizeCircuitId input)
      = Some {| prefix := joinEmpty pre;
                rangeStart := digitsValue s;
                rangeEnd := digitsValue e |}
      /\ parseCircuitId (normalizeCircuitId input)
         = Some (digitsValue e - digitsValue s + 1)).
Proof.
  intros Hc Hs Hp.
  rewrite (normalizeCircuitId_tokens input pre s e Hc Hs Hp).
  pose proof (splitWs_no_char comma false _ Hc) as Hnc.
  pose proof (splitWs_noWhiteSpace false (trim input)) as Hnw.
  fold (splitWhitespace (trim input)) in Hnc, Hnw. rewrite Hs in Hnc, Hnw.
  apply Forall_app in Hnc as [Hnc1 Hnc2]. apply Forall_app in Hnw as [Hnw1 Hnw2].
  inversion Hnc2 as [|? ? Hcs Hnc3]; subst. inversion Hnc3 as [|? ? Hce _]; subst.
  inversion Hnw2 as [|? ? Hws Hnw3]; subst. inversion Hnw3 as [|? ? Hwe _]; subst.
  assert (Hrange : includes comma (s +:+ "-" +:+ e) = false).
  { rewrite !includes_app, Hcs, Hce. reflexivity. }
  assert (Hsplit : split comma (joinEmpty pre +:+ "," +:+ s +:+ "-" +:+ e)
                   = [joinEmpty pre; s +:+ "-" +:+ e]).
  { apply split_two. split; [reflexivity|].
    split; [now apply joinEmpty_no_char | exact Hrange]. }
  assert (Htrim1 : trim (joinEmpty pre) = joinEmpty pre)
    by now apply trim_noWhiteSpace, joinEmpty_noWhiteSpace.
  assert (Htrim2 : trim (s +:+ "-" +:+ e) = s +:+ "-" +:+ e).
  { apply trim_noWhiteSpace. rewrite !noWhiteSpace_app, Hws, Hwe. reflexivity. }
  assert (Hparts : isNumeral s -> isNumeral e ->
            parseCircuitIdParts (joinEmpty pre +:+ "," +:+ s +:+ "-" +:+ e)
            = Some {| prefix := joinEmpty pre;
                      rangeStart := digitsValue s;
                      rangeEnd := digitsValue e |}).
  { intros H1 H2. apply parseCircuitIdParts_Some.
    exists (joinEmpty pre), (s +:+ "-" +:+ e), s, e.
    split; [now apply split_two|]. rewrite Htrim1, Htrim2.
    split; [|reflexivity]. split; [reflexivity|]. now split. }
  assert (Hiff : is_Some (parseCircuitIdParts
                            (joinEmpty pre +:+ "," +:+ s +:+ "-" +:+ e))
                 <-> isNumeral s /\ isNumeral e).
  { split; [|intros [H1 H2]; rewrite (Hparts H1 H2); now eexists].
    intros [p H]. unfold parseCircuitIdParts in H. rewrite Hsplit, Htrim2 in H.
    destruct (matchRangeAnchored (s +:+ "-" +:+ e)) as [[d1 d2]|] eqn:E;
      [|discriminate].
    apply matchRangeAnchored_spec in E as (E & H1 & H2).
    assert (Hcount : countChar dash (s +:+ "-" +:+ e)
                     = countChar dash (d1 +:+ String dash d2)) by now rewrite E.
    rewrite !countChar_app in Hcount. cbn [countChar] in Hcount.
    change (Ascii.eqb "-" dash) with true in Hcount.
    rewrite Ascii.eqb_refl in Hcount. cbn [countChar] in Hcount.
    pose proof (proj1 (includes_countChar dash d1) (allDigits_no_dash d1 (proj2 H1))).
    pose proof (proj1 (includes_countChar dash d2) (allDigits_no_dash d2 (proj2 H2))).
    assert (includes dash e = false) by (apply includes_countChar; lia).
    destruct (last_separator_unique dash s d1 e d2 E) as [-> ->]; auto.
    now apply allDigits_no_dash, H2. }
  split; [exact Hiff|]. split.
  - intros p H. destruct (proj1 Hiff (ex_intro _ p H)) as [H1 H2].
    rewrite (Hparts H1 H2) in H. now injection H as <-.
  - intros H1 H2 _ _. split; [now apply Hparts|].
    unfold parseCircuitId.
    assert (matchRangeAtEnd (joinEmpty pre +:+ "," +:+ s +:+ "-" +:+ e)
            = Some (s, e)) as ->.
    { apply matchRangeAtEnd_Some. exists (joinEmpty pre +:+ ",").
      split; [now rewrite !append_assoc|]. split; [exact H1|].
      split; [exact H2|].
      rewrite endsWithDigit_app by discriminate. reflexivity. }
    now rewrite (decimal_numeral s H1), (decimal_numeral e H2).
Qed.

Lemma normalized_identifier_parses_witness :
  includes comma (trim " BR 021  365 372 ") = false
  /\ splitWhitespace (trim " BR 021  365 372 ") = ["BR"; "021"] ++ ["365"; "372"]
  /\ safeNumeral "365" /\ safeNumeral "372"
  /\ parseCircuitIdParts (normalizeCircuitId " BR 021  365 372 ")
     = Some {| prefix := "BR021"; rangeStart := 365; rangeEnd := 372 |}
  /\ parseCircuitId (normalizeCircuitId " BR 021  365 372 ") = Some 8.
Proof.
  assert (H3 : safeNumeral "365") by (vm_compute; discriminate).
  assert (H4 : safeNumeral "372") by (vm_compute; discriminate).
  split; [reflexivity|]. split; [reflexivity|].
  split; [exact H3|]. split; [exact H4|].
  destruct (normalized_identifier_parses " BR 021  365 372 " ["BR"; "021"]
              "365" "372" eq_refl eq_refl ltac:(discriminate)) as (_ & _ & H).
  apply H; try assumption; split; (discriminate || reflexivity).
Defined.

(** ** Identifiers that are not well-formed *)

Lemma digitOfRadix_not_digit (c : ascii) :
  isDigit c = false -> digitOfRadix 10 c = None.
Proof.
  unfold isDigit, digitOfRadix. intros ->.
  destruct ((97 <=? code c) && (code c <=? 122)) eqn:E1.
  - destruct (Z.ltb_spec (code c - 87) 10); [lia|reflexivity].
  - destruct ((65 <=? code c) && (code c <=? 90)) eqn:E2; [|reflexivity].
    destruct (Z.ltb_spec (code c - 55) 10); [lia|reflexivity].
Qed.

Lemma radixDigits_numeral_then (d r : string) (c : ascii) (a : Z) :
  allDigits d = true -> isDigit c = false ->
  radixDigits 10 (Num a) (d +:+ String c r) = Num (digitsValueFrom a d).
Proof.
  intros Hd Hc. revert a. induction d as [|x d IH]; intros a; cbn.
  - now rewrite (digitOfRadix_not_digit c Hc).
  - cbn in Hd. apply andb_true_iff in Hd as [Hx Hd].
    rewrite (digitOfRadix_decimal x Hx). now apply IH.
Qed.

(** [parseInt] reads a numeral that is followed by something else. *)
Lemma parseInt_numeral_then (d r : string) (c : ascii) :
  isNumeral d -> isDigit c = false ->
  Ascii.eqb c "x" = false -> Ascii.eqb c "X" = false ->
  parseInt None (d +:+ String c r) = Num (digitsValue d).
Proof.
  intros [Hne Hd] Hc Hx HX. unfold parseInt.
  destruct d as [|a d]; [contradiction|].
  pose proof Hd as Hd'. cbn in Hd'. apply andb_true_iff in Hd' as [Ha Hd'].
  cbn [String.append trimStart]. rewrite (digit_not_space a Ha).
  destruct (Ascii.eqb_spec a "-") as [->|]; [discriminate|].
  destruct (Ascii.eqb_spec a "+") as [->|]; [discriminate|].
  cbn [default from_option Datatypes.id radixAbsent orb].
  rewrite orb_true_r.
  assert (stripHexPrefix (String a (d +:+ String c r)) = None) as ->.
  { destruct d as [|b d]; cbn.
    - now rewrite Hx, HX, andb_false_r.
    - cbn in Hd'. apply andb_true_iff in Hd' as [Hb _].
      destruct (Ascii.eqb_spec b "x") as [->|]; [discriminate|].
      destruct (Ascii.eqb_spec b "X") as [->|]; [discriminate|].
      now rewrite andb_false_r. }
  cbn [radixDigits]. rewrite (digitOfRadix_decimal a Ha).
  rewrite (radixDigits_numeral_then d r c _ Hd' Hc). cbn [numScale].
  unfold digitsValue. cbn [digitsValueFrom]. f_equal.
  destruct (digitsValueFrom _ d); reflexivity.
Qed.

Lemma includes_trim (c : ascii) (s : string) :
  isWhiteSpace c = false -> includes c s = true -> includes c (trim s) = true.
Proof.
  intros Hc Hs. destruct (includes c (trim s)) eqn:E; [reflexivity|].
  apply includes_countChar in E. rewrite countChar_trim in E by exact Hc.
  apply includes_countChar in E. congruence.
Qed.

Lemma allDigits_includes (c : ascii) (d : string) :
  allDigits d = true -> includes c d = true -> isDigit c = true.
Proof.
  induction d as [|x d IH]; cbn; [discriminate|].
  intros H Hc. apply andb_true_iff in H as [Hx Hd].
  apply orb_true_iff in Hc as [Hc|Hc]; [|now apply IH].
  apply Ascii.eqb_eq in Hc. now subst.
Qed.

Lemma numeral_no_char (c : ascii) (d : string) :
  allDigits d = true -> isDigit c = false -> includes c d = false.
Proof.
  intros Hd Hc. destruct (includes c d) eqn:E; [|reflexivity].
  apply (allDigits_includes c d Hd) in E. congruence.
Qed.

Lemma trimEnd_numeral_then (d r : string) (c : ascii) :
  allDigits d = true -> isWhiteSpace c = false ->
  exists t, trimEnd (d +:+ String c r) = d +:+ String c t.
Proof.
  intros Hd Hw. induction d as [|a d IH].
  - cbn [String.append trimEnd]. rewrite Hw. cbn [andb]. now eexists.
  - cbn in Hd. apply andb_true_iff in Hd as [Ha Hd].
    destruct (IH Hd) as [t Ht]. exists t.
    cbn [String.append trimEnd]. rewrite Ht, (digit_not_space a Ha).
    reflexivity.
Qed.

(** X18. The validator of the component is more lenient than the parsers
    of the schema: an identifier [p,d1-d2] followed by further text that
    starts with a character other than a digit, white space, "x", a comma
    or a dash (and has no comma or dash) is accepted by
    [parseAndCheckCircuitId] on a cable without circuits, because
    [parseInt] stops at that character, while [parseCircuitIdParts] and
    [parseCircuitId] both fail on it. *)
Theorem validator_more_lenient_than_parsers (p d1 d2 r : string) (c : ascii) :
  includes comma p = false -> isNumeral d1 -> isNumeral d2 ->
  isDigit c = false -> isWhiteSpace c = false ->
  Ascii.eqb c "x" = false -> Ascii.eqb c "X" = false ->
  Ascii.eqb c comma = false -> Ascii.eqb c dash = false ->
  includes comma r = false -> includes dash r = false ->
  parseAndCheckCircuitId []
    (p +:+ "," +:+ d1 +:+ "-" +:+ d2 +:+ String c r) None = Valid
  /\ parseCircuitIdParts (p +:+ "," +:+ d1 +:+ "-" +:+ d2 +:+ String c r)
     = None
  /\ parseCircuitId (p +:+ "," +:+ d1 +:+ "-" +:+ d2 +:+ String c r) = None.
Proof.
  intros Hp H1 H2 Hc Hw Hx HX Hcc Hcd Hrc Hrd.
  set (rest := d2 +:+ String c r).
  change ("-" +:+ rest) with (String dash rest).
  set (range := d1 +:+ String dash rest).
  change ("," +:+ range) with (String comma range).
  assert (Hrest_comma : includes comma rest = false).
  { subst rest. rewrite includes_app. cbn [includes].
    now rewrite (numeral_no_char comma d2 (proj2 H2) eq_refl), Hcc, Hrc. }
  assert (Hrest_dash : includes dash rest = false).
  { subst rest. rewrite includes_app, (allDigits_no_dash d2 (proj2 H2)).
    cbn [includes]. now rewrite Hcd, Hrd. }
  assert (Hrest_c : includes c rest = true).
  { subst rest. rewrite includes_app. cbn [includes].
    now rewrite Ascii.eqb_refl, orb_true_r. }
  assert (Hsplit : split comma (p +:+ String comma range) = [p; range]).
  { apply split_two. split; [reflexivity|]. split; [exact Hp|].
    subst range. rewrite includes_app. cbn [includes].
    now rewrite (numeral_no_char comma d1 (proj2 H1) eq_refl), Hrest_comma. }
  assert (Hhead : headNotSpace range = true).
  { subst range. destruct H1 as [Hne Hd]. destruct d1 as [|a d1]; [contradiction|].
    cbn in *. apply andb_true_iff in Hd as [Ha _].
    now rewrite (digit_not_space a Ha). }
  assert (Htrim : exists t, trim range = d1 +:+ String dash (d2 +:+ String c t)
                            /\ includes dash (d2 +:+ String c t) = false).
  { unfold trim. rewrite (trimStart_fixed range Hhead). subst range.
    rewrite trimEnd_after by reflexivity.
    destruct (trimEnd_numeral_then d2 r c (proj2 H2) Hw) as [t Ht].
    exists t. fold rest in Ht. rewrite Ht. split; [reflexivity|].
    rewrite <- Ht. now apply includes_trimEnd. }
  destruct Htrim as (t & Htrim & Htd).
  split; [|split].
  - unfold parseAndCheckCircuitId. rewrite Hsplit, Htrim.
    assert (split dash (d1 +:+ String dash (d2 +:+ String c t))
            = [d1; d2 +:+ String c t]) as ->.
    { apply split_two. split; [reflexivity|].
      split; [now apply allDigits_no_dash, H1 | exact Htd]. }
    rewrite (parseInt_numeral None d1 H1) by auto.
    rewrite (parseInt_numeral_then d2 t c H2 Hc Hx HX). reflexivity.
  - apply parseCircuitIdParts_None. intros (a & b & e1 & e2 & Hab & Hb & E1 & E2).
    apply split_two in Hab. rewrite Hsplit in Hab. injection Hab as <- <-.
    assert (Hin : includes c (trim range) = true).
    { apply includes_trim; [exact Hw|]. subst range.
      rewrite includes_app. cbn [includes]. now rewrite Hrest_c, !orb_true_r. }
    rewrite Hb, includes_app in Hin. cbn [includes] in Hin.
    rewrite Ascii.eqb_sym, Hcd in Hin.
    cbn [orb] in Hin. apply orb_true_iff in Hin as [Hin|Hin].
    + apply (allDigits_includes c e1 (proj2 E1)) in Hin. congruence.
    + apply (allDigits_includes c e2 (proj2 E2)) in Hin. congruence.
  - unfold parseCircuitId.
    assert (matchRangeAtEnd (p +:+ String comma range) = None) as ->;
      [|reflexivity].
    apply matchRangeAtEnd_None. intros (pre & e1 & e2 & E & E1 & E2).
    assert (E' : (p +:+ String comma d1) +:+ String dash rest
                 = (pre +:+ e1) +:+ String dash e2).
    { rewrite !append_assoc. exact E. }
    apply last_separator_unique in E' as [_ E'];
      [|exact Hrest_dash | now apply allDigits_no_dash, E2].
    rewrite <- E' in E2. destruct E2 as [_ E2]. subst rest.
    rewrite allDigits_app in E2. cbn [allDigits] in E2. rewrite Hc in E2.
    now rewrite andb_false_r in E2.
Qed.

Lemma validator_more_lenient_than_parsers_witness :
  parseAndCheckCircuitId [] "pon,1-8a" None = Valid
  /\ parseCircuitIdParts "pon,1-8a" = None
  /\ parseCircuitId "pon,1-8a" = None.
Proof.
  apply (validator_more_lenient_than_parsers "pon" "1" "8" "" "a");
    try reflexivity; split; (discriminate || reflexivity).
Defined.

(** ** The cable list and the splice tabs of the page *)

Lemma filter_isFeed_isDistribution (cables : list Cable) :
  List.filter Home.isFeed cables ++ List.filter Home.isDistribution cables
  ≡ₚ cables.
Proof.
  induction cables as [|c cs IH]; [reflexivity|]. cbn [List.filter].
  unfold Home.isFeed at 1, Home.isDistribution at 1.
  destruct (cable_type c); cbn [app].
  - now constructor.
  - rewrite <- Permutation_middle. now constructor.
Qed.

Lemma list_filter_idem {A : Type} (p : A -> bool) (l : list A) :
  List.filter p (List.filter p l) = List.filter p l.
Proof.
  induction l as [|a l IH]; [reflexivity|]. cbn.
  destruct (p a) eqn:E; cbn; rewrite ?E, IH; reflexivity.
Qed.

Lemma list_filter_none {A : Type} (p q : A -> bool) (l : list A) :
  (forall a, p a = true -> q a = false) ->
  List.filter q (List.filter p l) = [].
Proof.
  intros H. induction l as [|a l IH]; [reflexivity|]. cbn.
  destruct (p a) eqn:E; cbn; [rewrite (H a E)|]; exact IH.
Qed.

(** X19. The cable list of the page is a rearrangement of the cables in
    which no Distribution cable comes before a Feed cable, the cables of
    each type keep their order, and sorting a sorted list changes
    nothing. *)
Theorem sortedCables_feed_first (cables : list Cable) :
  Home.sortedCables cables ≡ₚ cables
  /\ (exists n,
        Forall (fun c => cable_type c = Feed) (take n (Home.sortedCables cables))
        /\ Forall (fun c => cable_type c = Distribution)
             (drop n (Home.sortedCables cables)))
  /\ List.filter Home.isFeed (Home.sortedCables cables)
     = List.filter Home.isFeed cables
  /\ List.filter Home.isDistribution (Home.sortedCables cables)
     = List.filter Home.isDistribution cables
  /\ Home.sortedCables (Home.sortedCables cables) = Home.sortedCables cables.
Proof.
  assert (Hf : List.filter Home.isFeed (Home.sortedCables cables)
               = List.filter Home.isFeed cables).
  { unfold Home.sortedCables. rewrite List.filter_app, list_filter_idem.
    rewrite (list_filter_none Home.isDistribution Home.isFeed), app_nil_r;
      [reflexivity|].
    intros a. unfold Home.isFeed, Home.isDistribution.
    now destruct (cable_type a). }
  assert (Hd : List.filter Home.isDistribution (Home.sortedCables cables)
               = List.filter Home.isDistribution cables).
  { unfold Home.sortedCables. rewrite List.filter_app, list_filter_idem.
    rewrite (list_filter_none Home.isFeed Home.isDistribution); [reflexivity|].
    intros a. unfold Home.isFeed, Home.isDistribution.
    now destruct (cable_type a). }
  split; [apply filter_isFeed_isDistribution|].
  split; [|split; [exact Hf|split; [exact Hd|]]].
  - exists (length (List.filter Home.isFeed cables)). unfold Home.sortedCables.
    rewrite take_app_length, drop_app_length. split.
    + apply Forall_forall. intros c Hc. apply list_elem_of_In, filter_In in Hc.
      destruct Hc as [_ Hc]. unfold Home.isFeed in Hc.
      now destruct (cable_type c).
    + apply Forall_forall. intros c Hc. apply list_elem_of_In, filter_In in Hc.
      destruct Hc as [_ Hc]. unfold Home.isDistribution in Hc.
      now destruct (cable_type c).
  - unfold Home.sortedCables at 1. now rewrite Hf, Hd.
Qed.

Lemma find_unique_id (cables : list Cable) (D : Cable) :
  NoDup (cable_id <$> cables) -> D ∈ cables ->
  List.find (fun c => String.eqb (cable_id c) (cable_id D)) cables = Some D.
Proof.
  induction cables as [|x cables IH]; intros Hnd Hin.
  - now apply elem_of_nil in Hin.
  - rewrite fmap_cons in Hnd. apply NoDup_cons in Hnd as [Hx Hnd].
    cbn [List.find]. apply elem_of_cons in Hin as [->|Hin].
    + now rewrite String.eqb_refl.
    + destruct (String.eqb_spec (cable_id x) (cable_id D)) as [E|_].
      * exfalso. apply Hx. rewrite E. now apply list_elem_of_fmap_2.
      * now apply IH.
Qed.

(** X20. When the cables have distinct ids, every spliced circuit of a
    Distribution cable is shown in the tab of exactly one Distribution
    cable, the cable it belongs to: no such circuit is left out and none is
    shown in two tabs. *)
Theorem spliced_circuit_in_one_tab (cables : list Cable)
    (allCircuits : list Circuit) (c : Circuit) :
  NoDup (cable_id <$> cables) ->
  c ∈ Home.splicedCircuits cables allCircuits ->
  exists D,
    D ∈ Home.distributionCables cables
    /\ cable_id D = cableId c
    /\ c ∈ Home.cableSplicedCircuits cables allCircuits D
    /\ forall D',
         D' ∈ Home.distributionCables cables ->
         c ∈ Home.cableSplicedCircuits cables allCircuits D' -> D' = D.
Proof.
  intros Hnd Hc. pose proof Hc as Hc'.
  unfold Home.splicedCircuits in Hc'.
  apply list_elem_of_In, filter_In in Hc' as [_ Hp].
  apply andb_true_iff in Hp as [_ Hp].
  destruct (List.find _ cables) as [D|] eqn:Ef; [|discriminate].
  pose proof Ef as Ef'. apply find_some in Ef' as [HD Hid].
  apply String.eqb_eq in Hid.
  exists D. split; [|split; [exact Hid|split]].
  - apply list_elem_of_In, filter_In. auto.
  - apply list_elem_of_In, filter_In. split; [now apply list_elem_of_In|].
    rewrite Hid. apply String.eqb_refl.
  - intros D' HD' Hc2.
    apply list_elem_of_In, filter_In in HD' as [HD' _].
    apply list_elem_of_In, filter_In in Hc2 as [_ Hid'].
    apply String.eqb_eq in Hid'.
    apply list_elem_of_In in HD'.
    pose proof (find_unique_id cables D' Hnd HD') as Hf.
    rewrite <- Hid' in Hf. congruence.
Qed.

Lemma spliced_circuit_in_one_tab_witness :
  let c := mkCircuit "c2" "d1" "test,3-6" 0 1 4 1 (Some "f1") (Some 49)
             (Some 52) in
  exists D,
    D ∈ Home.distributionCables [feedCable1; distCable1; distCable2]
    /\ cable_id D = "d1"
    /\ c ∈ Home.cableSplicedCircuits [feedCable1; distCable1; distCable2] [c] D.
Proof.
  intros c.
  destruct (spliced_circuit_in_one_tab [feedCable1; distCable1; distCable2]
              [c] c) as (D & H1 & H2 & H3 & _).
  - apply (bool_decide_unpack _). vm_compute. reflexivity.
  - apply list_elem_of_In. vm_compute. now left.
  - now exists D.
Defined.

(** ** The rows of the splice tabs *)

Lemma home_position (p : Z) :
  1 <= p ->
  (Home.getBinderNumber p - 1) * 25 + Home.getPairPositionInBinder p = p
  /\ 1 <= Home.getPairPositionInBinder p <= 25
  /\ 1 <= Home.getBinderNumber p.
Proof.
  intros H. unfold Home.getBinderNumber, Home.getPairPositionInBinder,
    Home.binderSize, ceilDiv.
  rewrite Z.rem_mod_nonneg by lia.
  Z.to_euclidean_division_equations. lia.
Qed.

Lemma home_colour_defined (n : Z) :
  1 <= n -> is_Some (JSArray.index Home.pairColors (Z.rem (n - 1) 25)).
Proof.
  intros H. apply index_is_Some.
  change (length Home.pairColors) with 25%nat.
  pose proof (rem25_range n H). lia.
Qed.

Lemma pairRow_defined (circuit : Circuit) (rangeStart i : Z) :
  1 <= fiberStart circuit ->
  1 <= Home.orElse (feedFiberStart circuit) (fiberStart circuit) ->
  0 <= i ->
  exists row,
    Home.pairRow circuit rangeStart i = Some row
    /\ Home.circuitNumber row = rangeStart + i
    /\ Home.distBinder row = Home.getBinderNumber (fiberStart circuit + i)
    /\ Home.distPairInBinder row
       = Home.getPairPositionInBinder (fiberStart circuit + i)
    /\ Home.feedBinder row
       = Home.getBinderNumber
           (Home.orElse (feedFiberStart circuit) (fiberStart circuit) + i)
    /\ Home.feedPairInBinder row
       = Home.getPairPositionInBinder
           (Home.orElse (feedFiberStart circuit) (fiberStart circuit) + i).
Proof.
  intros Hd Hf Hi. unfold Home.pairRow.
  set (dp := fiberStart circuit + i).
  set (fp := Home.orElse (feedFiberStart circuit) (fiberStart circuit) + i).
  destruct (home_position dp ltac:(lia)) as (_ & Hdpos & Hdb).
  destruct (home_position fp ltac:(lia)) as (_ & Hfpos & Hfb).
  unfold Home.getColorForPair, Home.getColorForBinder.
  destruct (home_colour_defined _ (proj1 Hfpos)) as [c1 ->].
  destruct (home_colour_defined _ (proj1 Hdpos)) as [c2 ->].
  destruct (home_colour_defined _ Hfb) as [c3 ->].
  destruct (home_colour_defined _ Hdb) as [c4 ->].
  eexists. split; [reflexivity|]. repeat split.
Qed.

(** X21. In the pair view the callback of the splice tab always returns
    for a circuit whose pairs and feed pairs start at pair 1 or later: it
    never fails on a colour that is missing. It returns either the single
    row with a message, and it does so whenever [fiberEnd] is 0 ("Invalid
    pair positions", unless an earlier check gave its message), or the
    rows of the circuit: one row for every pair of the circuit (none when
    the range is empty or reversed), where row [i] shows the circuit number
    [rangeStart + i], counted from the number that the page reads before
    the dash of the identifier, the distribution pair [fiberStart + i] and
    the feed pair [feedFiberStart + i], each as a binder number and a
    position from 1 to 25 that together give the pair back. *)
Theorem pair_view_rows (fuel : nat) (cables : list Cable) (circuit : Circuit) :
  1 <= fiberStart circuit ->
  1 <= Home.orElse (feedFiberStart circuit) (fiberStart circuit) ->
  exists r,
    Home.spliceRows fuel cables false circuit = Home.Finished r
    /\ (fiberEnd circuit = 0 -> exists m, r = Home.MessageRow m)
    /\ (r = Home.MessageRow Home.InvalidPositions -> fiberEnd circuit = 0)
    /\ match r with
       | Home.MessageRow _ => True
       | Home.BinderRows _ _ => False
       | Home.PairRows pre rows =>
           fiberEnd circuit <> 0
           /\ Z.of_nat (length rows)
              = Z.max 0 (fiberEnd circuit - fiberStart circuit + 1)
           /\ exists r0 r1 rangeStart,
                split dash
                  (default EmptyString
                     (split comma (circuitId circuit) !! 1%nat)) = [r0; r1]
                /\ parseInt None (trim r0) = Num rangeStart
                /\ forall (i : nat) (row : Home.PairRow),
                     rows !! i = Some row ->
                     Home.circuitNumber row = rangeStart + Z.of_nat i
                     /\ (Home.distBinder row - 1) * 25
                        + Home.distPairInBinder row
                        = fiberStart circuit + Z.of_nat i
                     /\ 1 <= Home.distPairInBinder row <= 25
                     /\ (Home.feedBinder row - 1) * 25
                        + Home.feedPairInBinder row
                        = Home.orElse (feedFiberStart circuit)
                            (fiberStart circuit) + Z.of_nat i
                     /\ 1 <= Home.feedPairInBinder row <= 25
       end.
Proof.
  intros Hd Hf. unfold Home.spliceRows.
  destruct (match feedCableId circuit with Some _ => _ | None => _ end);
    [|eexists; split; [reflexivity|];
      split; [eauto|split; [discriminate|exact I]]].
  destruct (split dash _) as [|r0 [|r1 [|]]] eqn:Edash;
    try (eexists; split; [reflexivity|];
         split; [eauto|split; [discriminate|exact I]]).
  destruct (isEmpty r0 || isEmpty r1);
    [eexists; split; [reflexivity|];
     split; [eauto|split; [discriminate|exact I]]|].
  destruct (parseInt None (trim r0)) as [|rs] eqn:Ers;
    [eexists; split; [reflexivity|];
     split; [eauto|split; [discriminate|exact I]]|].
  destruct (parseInt None (trim r1)) as [|re];
    [eexists; split; [reflexivity|];
     split; [eauto|split; [discriminate|exact I]]|].
  destruct (Z.eqb_spec (fiberStart circuit) 0) as [|_]; [lia|].
  destruct (Z.eqb_spec (fiberEnd circuit) 0) as [He|He]; cbn [orb].
  { eexists. split; [reflexivity|]. split; [eauto|]. split; [auto | exact I]. }
  unfold Home.pairRows.
  set (n := fiberEnd circuit - fiberStart circuit + 1).
  assert (Hsome : is_Some (mapM (Home.pairRow circuit rs) (seqZ 0 n))).
  { apply mapM_is_Some, Forall_forall. intros i Hi.
    apply elem_of_seqZ in Hi.
    destruct (pairRow_defined circuit rs i Hd Hf ltac:(lia))
      as (row & Hrow & _).
    cbn. rewrite Hrow. now eexists. }
  destruct Hsome as [rows Hrows]. rewrite Hrows.
  eexists. split; [reflexivity|]. split; [intros; contradiction|].
  split; [discriminate|]. split; [exact He|]. split.
  - rewrite <- (length_mapM _ _ _ Hrows), length_seqZ. lia.
  - exists r0, r1, rs. split; [reflexivity|]. split; [exact Ers|].
    intros i row Hi. apply mapM_Some in Hrows.
    destruct (Forall2_lookup_r _ _ _ _ _ Hrows Hi) as (z & Hz & Hrow).
    apply lookup_seqZ in Hz as [-> Hlt]. rewrite Z.add_0_l in Hrow.
    destruct (pairRow_defined circuit rs (Z.of_nat i) Hd Hf ltac:(lia))
      as (row' & Hrow' & Hn & Hdb & Hdp & Hfb & Hfp).
    assert (row' = row) as -> by congruence.
    rewrite Hn, Hdb, Hdp, Hfb, Hfp.
    destruct (home_position (fiberStart circuit + Z.of_nat i) ltac:(lia))
      as (H1 & H2 & _).
    destruct (home_position
                (Home.orElse (feedFiberStart circuit) (fiberStart circuit)
                 + Z.of_nat i) ltac:(lia)) as (H3 & H4 & _).
    repeat split; auto; lia.
Qed.

Lemma pair_view_rows_witness :
  let c := mkCircuit "c2" "d1" "test,3-6" 0 24 27 1 (Some "f1") (Some 49)
             (Some 52) in
  let c0 := mkCircuit "c3" "d1" "test,3-6" 0 1 0 1 (Some "f1") (Some 49)
              (Some 52) in
  (exists pre rows,
     Home.spliceRows 0 [feedCable1; distCable1] false c
     = Home.Finished (Home.PairRows pre rows)
     /\ Z.of_nat (length rows) = 4
     /\ Home.circuitNumber <$> rows = [3; 4; 5; 6])
  /\ Home.spliceRows 0 [feedCable1; distCable1] false c0
     = Home.Finished (Home.MessageRow Home.InvalidPositions).
Proof.
  intros c c0. split.
  - destruct (pair_view_rows 0 [feedCable1; distCable1] c
                ltac:(simpl; lia) ltac:(simpl; lia))
      as (r & Hr & _ & _ & H).
    destruct r as [m|pre rows|pre rows];
      [vm_compute in Hr; discriminate | contradiction |].
    destruct H as (_ & Hlen & _).
    exists pre, rows. split; [exact Hr|]. split; [rewrite Hlen; reflexivity|].
    vm_compute in Hr. injection Hr as _ <-. reflexivity.
  - destruct (pair_view_rows 0 [feedCable1; distCable1] c0
                ltac:(simpl; lia) ltac:(simpl; lia))
      as (r & Hr & Hm & _).
    destruct (Hm eq_refl) as [m ->]. rewrite Hr.
    vm_compute in Hr. injection Hr as <-. reflexivity.
Defined.

Lemma binderRows_unfold (fuel : nat) (rs ds de fe cd cf : Z) :
  Home.binderRows fuel rs ds de fe cd cf =
  if cd <=? de then
    match fuel with
    | O => Home.OutOfFuel
    | S fuel' =>
        let seg :=
          Z.min (Z.min (Home.getBinderNumber cd * 25) de - cd + 1)
                (Z.min (Home.getBinderNumber cf * 25) fe - cf + 1) in
        match Home.getColorForBinder (Home.getBinderNumber cf),
              Home.getColorForBinder (Home.getBinderNumber cd) with
        | Some fc, Some dc =>
            match Home.binderRows fuel' rs ds de fe (cd + seg) (cf + seg) with
            | Home.Finished rows =>
                Home.Finished
                  (Home.mkBinderRow cd (Home.getBinderNumber cf)
                     (Home.getPairPositionInBinder cf)
                     (Home.getPairPositionInBinder (cf + seg - 1))
                     (rs + (cd - ds)) (rs + (cd - ds) + seg - 1)
                     (Home.getBinderNumber cd)
                     (Home.getPairPositionInBinder cd)
                     (Home.getPairPositionInBinder (cd + seg - 1)) fc dc
                   :: rows)
            | Home.TypeError => Home.TypeError
            | Home.OutOfFuel => Home.OutOfFuel
            end
        | _, _ => Home.TypeError
        end
    end
  else Home.Finished [].
Proof. destruct fuel; reflexivity. Qed.

Lemma home_same_binder (p k : Z) :
  1 <= p -> 0 <= k -> p + k <= Home.getBinderNumber p * 25 ->
  Home.getPairPositionInBinder (p + k) = Home.getPairPositionInBinder p + k.
Proof.
  intros Hp Hk. unfold Home.getBinderNumber, Home.getPairPositionInBinder,
    Home.binderSize, ceilDiv.
  rewrite !Z.rem_mod_nonneg by lia.
  Z.to_euclidean_division_equations. lia.
Qed.

Lemma home_binder_end (p : Z) :
  1 <= p -> p <= Home.getBinderNumber p * 25.
Proof.
  intros Hp. unfold Home.getBinderNumber, Home.binderSize, ceilDiv.
  Z.to_euclidean_division_equations. lia.
Qed.

Lemma binderRows_cover (rs ds de fe : Z) (n : nat) :
  forall cd cf,
    1 <= cd -> 1 <= cf -> cd <= de + 1 ->
    de - cd <= fe - cf ->
    (Z.to_nat (de - cd + 1) <= n)%nat ->
    exists rows,
      rowsCover (rs + (cd - ds)) cd cf de rows
      /\ forall fuel, (n <= fuel)%nat ->
           Home.binderRows fuel rs ds de fe cd cf = Home.Finished rows.
Proof.
  induction n as [|n IH]; intros cd cf Hcd Hcf Hle Hlen Hn.
  - exists []. split; [cbn; lia|]. intros fuel _.
    rewrite binderRows_unfold. destruct (Z.leb_spec cd de); [lia|reflexivity].
  - destruct (Z.leb_spec cd de) as [Hin|Hout].
    2:{ exists []. split; [cbn; lia|]. intros fuel _.
        rewrite binderRows_unfold. destruct (Z.leb_spec cd de); [lia|reflexivity]. }
    set (seg := Z.min (Z.min (Home.getBinderNumber cd * 25) de - cd + 1)
                      (Z.min (Home.getBinderNumber cf * 25) fe - cf + 1)).
    pose proof (home_binder_end cd Hcd) as Hbd.
    pose proof (home_binder_end cf Hcf) as Hbf.
    assert (Hseg : 1 <= seg) by (subst seg; lia).
    assert (Hsegd : cd + (seg - 1) <= Home.getBinderNumber cd * 25)
      by (subst seg; lia).
    assert (Hsegf : cf + (seg - 1) <= Home.getBinderNumber cf * 25)
      by (subst seg; lia).
    assert (Hsegde : cd + seg <= de + 1) by (subst seg; lia).
    destruct (IH (cd + seg) (cf + seg)) as (rows & Hcov & Hrun); try lia.
    destruct (home_position cd Hcd) as (Hd1 & Hd2 & Hd3).
    destruct (home_position cf Hcf) as (Hf1 & Hf2 & Hf3).
    destruct (home_colour_defined _ Hd3) as [dc Hdc].
    destruct (home_colour_defined _ Hf3) as [fc Hfc].
    pose proof (home_same_binder cd (seg - 1) Hcd ltac:(lia) Hsegd) as Hpd.
    pose proof (home_same_binder cf (seg - 1) Hcf ltac:(lia) Hsegf) as Hpf.
    replace (cd + (seg - 1)) with (cd + seg - 1) in Hpd by lia.
    replace (cf + (seg - 1)) with (cf + seg - 1) in Hpf by lia.
    eexists. split.
    2:{ intros fuel Hfuel. destruct fuel as [|fuel]; [lia|].
        rewrite binderRows_unfold.
        destruct (Z.leb_spec cd de); [|lia]. cbv zeta. fold seg.
        unfold Home.getColorForBinder. rewrite Hfc, Hdc.
        rewrite (Hrun fuel) by lia. reflexivity. }
    cbn [rowsCover Home.distPairPosEnd Home.distPairPosStart
         Home.feedPairPosStart Home.feedPairPosEnd Home.currentDistBinder
         Home.currentFeedBinder Home.circuitStart Home.circuitEnd].
    rewrite Hpd, Hpf.
    replace (Home.getPairPositionInBinder cd + (seg - 1)
             - Home.getPairPositionInBinder cd + 1) with seg by lia.
    replace (rs + (cd - ds) + seg) with (rs + (cd + seg - ds)) by lia.
    repeat split; try lia. exact Hcov.
Qed.

Lemma rowsCover_length (rows : list Home.BinderRow) (n d f hi : Z) :
  rowsCover n d f hi rows ->
  d <= hi + 1 /\ Z.of_nat (length rows) <= hi - d + 1.
Proof.
  revert n d f. induction rows as [|r rows IH]; intros n d f; cbn [rowsCover].
  - intros ->. cbn. lia.
  - intros (H1 & _ & _ & _ & _ & _ & _ & _ & _ & _ & H).
    apply IH in H. cbn [length]. lia.
Qed.

(** X22. The full binder view of a circuit ends and covers the circuit
    when the feed range is at least as long as the distribution range and
    both start at pair 1 or later: after at most one turn of the loop per
    pair it has produced rows that cover the distribution pairs from first
    to last, and the feed pairs and circuit numbers in step with them,
    every row a run of pairs inside one binder on both sides and as long on
    one side as on the other. *)
Theorem binder_view_rows (rangeStart distPairStart distPairEnd
    feedPairStart feedPairEnd : Z) :
  1 <= distPairStart -> distPairStart <= distPairEnd ->
  1 <= feedPairStart ->
  distPairEnd - distPairStart <= feedPairEnd - feedPairStart ->
  exists rows,
    (forall fuel,
       (Z.to_nat (distPairEnd - distPairStart + 1) <= fuel)%nat ->
       Home.binderRows fuel rangeStart distPairStart distPairEnd feedPairEnd
         distPairStart feedPairStart = Home.Finished rows)
    /\ rowsCover rangeStart distPairStart feedPairStart distPairEnd rows
    /\ 1 <= Z.of_nat (length rows) <= distPairEnd - distPairStart + 1.
Proof.
  intros Hd Hde Hf Hlen.
  destruct (binderRows_cover rangeStart distPairStart distPairEnd feedPairEnd
              (Z.to_nat (distPairEnd - distPairStart + 1))
              distPairStart feedPairStart) as (rows & Hcov & Hrun); try lia.
  replace (rangeStart + (distPairStart - distPairStart)) with rangeStart
    in Hcov by lia.
  exists rows. split; [exact Hrun|]. split; [exact Hcov|].
  pose proof (rowsCover_length _ _ _ _ _ Hcov) as [_ Hl].
  split; [|exact Hl].
  destruct rows; [cbn in Hcov; lia | cbn [length]; lia].
Qed.

Lemma binder_view_rows_witness :
  exists rows,
    Home.binderRows 50 101 1 50 60 1 11 = Home.Finished rows
    /\ rowsCover 101 1 11 50 rows.
Proof.
  destruct (binder_view_rows 101 1 50 11 60) as (rows & H1 & H2 & _); try lia.
  exists rows. split; [apply H1; simpl; lia | exact H2].
Defined.

Example binder_view_example :
  (fun r => (Home.currentFeedBinder r, Home.feedPairPosStart r,
             Home.feedPairPosEnd r, Home.circuitStart r, Home.circuitEnd r,
             Home.currentDistBinder r, Home.distPairPosStart r,
             Home.distPairPosEnd r))
  <$> match Home.binderRows 50 101 1 50 60 1 11 with
      | Home.Finished rows => rows
      | _ => []
      end
  = [(1, 11, 25, 101, 115, 1, 1, 15);
     (2, 1, 10, 116, 125, 1, 16, 25);
     (2, 11, 25, 126, 140, 2, 1, 15);
     (3, 1, 10, 141, 150, 2, 16, 25)].
Proof. vm_compute. reflexivity. Qed.

Lemma binderRows_stuck (rs ds de fe : Z) (fuel : nat) :
  forall cd cf,
    1 <= cd -> 1 <= cf -> cf <= fe + 1 ->
    fe - cf < de - cd ->
    Home.binderRows fuel rs ds de fe cd cf = Home.OutOfFuel.
Proof.
  induction fuel as [|fuel IH]; intros cd cf Hcd Hcf Hfe Hlen;
    rewrite binderRows_unfold; (destruct (Z.leb_spec cd de); [|lia]);
    [reflexivity|].
  cbv zeta.
  set (seg := Z.min (Z.min (Home.getBinderNumber cd * 25) de - cd + 1)
                    (Z.min (Home.getBinderNumber cf * 25) fe - cf + 1)).
  pose proof (home_binder_end cd Hcd) as Hbd.
  pose proof (home_binder_end cf Hcf) as Hbf.
  destruct (home_position cd Hcd) as (_ & _ & Hd3).
  destruct (home_position cf Hcf) as (_ & _ & Hf3).
  destruct (home_colour_defined _ Hd3) as [dc Hdc].
  destruct (home_colour_defined _ Hf3) as [fc Hfc].
  unfold Home.getColorForBinder. rewrite Hfc, Hdc.
  rewrite IH; [reflexivity| | | |]; subst seg; lia.
Qed.

(** X23. The full binder view of a circuit never ends when the feed range
    is shorter than the distribution range: once the feed pairs are used
    up a turn of the loop advances by no pair at all, so whatever number of
    turns is allowed, the loop is still running (in the browser the page
    hangs while the list of rows grows). *)
Theorem binder_view_never_ends (rangeStart distPairStart distPairEnd
    feedPairStart feedPairEnd : Z) (fuel : nat) :
  1 <= distPairStart -> 1 <= feedPairStart ->
  feedPairStart <= feedPairEnd ->
  feedPairEnd - feedPairStart < distPairEnd - distPairStart ->
  Home.binderRows fuel rangeStart distPairStart distPairEnd feedPairEnd
    distPairStart feedPairStart = Home.OutOfFuel.
Proof.
  intros Hd Hf Hfe Hlen. apply binderRows_stuck; lia.
Qed.

Lemma binder_view_never_ends_witness :
  Home.binderRows 1000 1 1 50 25 1 1 = Home.OutOfFuel.
Proof. apply (binder_view_never_ends 1 1 50 1 25 1000); lia. Defined.

Lemma binderRows_aligned (rs ds fe : Z) (k : nat) :
  forall a b fuel,
    0 <= a -> 0 <= b ->
    25 * b + 25 * Z.of_nat k <= fe ->
    (k <= fuel)%nat ->
    exists rows,
      Home.binderRows fuel rs ds (25 * a + 25 * Z.of_nat k) fe
        (25 * a + 1) (25 * b + 1) = Home.Finished rows
      /\ length rows = k
      /\ Forall fullBinderRow rows.
Proof.
  induction k as [|k IH]; intros a b fuel Ha Hb Hfe Hfuel;
    rewrite binderRows_unfold.
  - destruct (Z.leb_spec (25 * a + 1) (25 * a + 25 * Z.of_nat 0)); [lia|].
    exists []. repeat split. constructor.
  - destruct (Z.leb_spec (25 * a + 1) (25 * a + 25 * Z.of_nat (S k))); [|lia].
    destruct fuel as [|fuel]; [lia|]. cbv zeta.
    assert (Hbd : Home.getBinderNumber (25 * a + 1) = a + 1).
    { unfold Home.getBinderNumber, Home.binderSize, ceilDiv.
      Z.to_euclidean_division_equations. lia. }
    assert (Hbf : Home.getBinderNumber (25 * b + 1) = b + 1).
    { unfold Home.getBinderNumber, Home.binderSize, ceilDiv.
      Z.to_euclidean_division_equations. lia. }
    rewrite Hbd, Hbf.
    replace (Z.min (Z.min ((a + 1) * 25) (25 * a + 25 * Z.of_nat (S k))
                    - (25 * a + 1) + 1)
                   (Z.min ((b + 1) * 25) fe - (25 * b + 1) + 1))
      with 25 by lia.
    destruct (home_colour_defined (a + 1) ltac:(lia)) as [dc Hdc].
    destruct (home_colour_defined (b + 1) ltac:(lia)) as [fc Hfc].
    unfold Home.getColorForBinder. rewrite Hfc, Hdc.
    destruct (IH (a + 1) (b + 1) fuel) as (rows & Hrun & Hlen & Hfull);
      try lia.
    replace (25 * (a + 1) + 25 * Z.of_nat k)
      with (25 * a + 25 * Z.of_nat (S k)) in Hrun by lia.
    replace (25 * (a + 1) + 1) with (25 * a + 1 + 25) in Hrun by lia.
    replace (25 * (b + 1) + 1) with (25 * b + 1 + 25) in Hrun by lia.
    rewrite Hrun. eexists. split; [reflexivity|].
    split; [cbn [length]; now rewrite Hlen|].
    constructor; [|exact Hfull].
    unfold fullBinderRow, Home.getPairPositionInBinder, Home.binderSize.
    cbn [Home.distPairPosStart Home.distPairPosEnd Home.feedPairPosStart
         Home.feedPairPosEnd].
    rewrite !Z.rem_mod_nonneg by lia.
    repeat split; Z.to_euclidean_division_equations; lia.
Qed.

(** X24. For a circuit of whole binders (its distribution pairs and its
    feed pairs start on the first pair of a binder, its pair count is a
    positive multiple of 25, and the feed range is at least as long), the
    full binder view has exactly pair count / 25 rows, the number that the
    header of the tab adds for the circuit, and every row shows positions 1
    to 25 on both sides. *)
Theorem binder_view_whole_binders (rangeStart distPairStart distPairEnd
    feedPairStart feedPairEnd : Z) (fuel : nat) :
  1 <= distPairStart -> 1 <= feedPairStart ->
  Z.rem (distPairStart - 1) 25 = 0 -> Z.rem (feedPairStart - 1) 25 = 0 ->
  distPairStart <= distPairEnd ->
  Z.rem (distPairEnd - distPairStart + 1) 25 = 0 ->
  distPairEnd - distPairStart <= feedPairEnd - feedPairStart ->
  (Z.to_nat (Z.quot (distPairEnd - distPairStart + 1) 25) <= fuel)%nat ->
  exists rows,
    Home.binderRows fuel rangeStart distPairStart distPairEnd feedPairEnd
      distPairStart feedPairStart = Home.Finished rows
    /\ Z.of_nat (length rows) = Z.quot (distPairEnd - distPairStart + 1) 25
    /\ Forall fullBinderRow rows.
Proof.
  intros Hd Hf Had Haf Hde Hcount Hlen Hfuel.
  rewrite Z.quot_div_nonneg in * by lia.
  rewrite Z.rem_mod_nonneg in Had, Haf, Hcount by lia.
  set (k := (distPairEnd - distPairStart + 1) / 25) in *.
  set (a := (distPairStart - 1) / 25).
  set (b := (feedPairStart - 1) / 25).
  assert (Hk : distPairEnd - distPairStart + 1 = 25 * k)
    by (subst k; Z.to_euclidean_division_equations; lia).
  assert (Ea : distPairStart = 25 * a + 1)
    by (subst a; Z.to_euclidean_division_equations; lia).
  assert (Eb : feedPairStart = 25 * b + 1)
    by (subst b; Z.to_euclidean_division_equations; lia).
  destruct (binderRows_aligned rangeStart distPairStart feedPairEnd
              (Z.to_nat k) a b fuel) as (rows & Hrun & Hl & Hfull); try lia.
  replace (25 * a + 25 * Z.of_nat (Z.to_nat k)) with distPairEnd in Hrun by lia.
  rewrite <- Ea, <- Eb in Hrun.
  exists rows. split; [exact Hrun|]. split; [lia|exact Hfull].
Qed.

Lemma binder_view_whole_binders_witness :
  exists rows,
    Home.binderRows 2 201 26 75 100 26 51 = Home.Finished rows
    /\ Z.of_nat (length rows) = 2
    /\ Forall fullBinderRow rows.
Proof.
  destruct (binder_view_whole_binders 201 26 75 51 100 2)
    as (rows & H1 & H2 & H3); try reflexivity; try lia.
  exists rows. split; [exact H1|]. split; [exact H2|exact H3].
Defined.

(** A circuit of 25 pairs that starts in the middle of a binder takes two
    rows, while the header of the tab counts one. *)
Example binder_view_not_aligned :
  match Home.binderRows 10 1 11 35 35 11 11 with
  | Home.Finished rows => length rows
  | _ => 0%nat
  end = 2%nat
  /\ Home.allFullBinders
       [mkCircuit "c" "d1" "a,1-25" 1 11 35 1 (Some "f1") (Some 11) (Some 35)]
     = true
  /\ Home.totalSpliceRows
       [mkCircuit "c" "d1" "a,1-25" 1 11 35 1 (Some "f1") (Some 11) (Some 35)]
     = 1.
Proof. repeat split; vm_compute; reflexivity. Qed.

Lemma fold_left_add_shift {A : Type} (f : A -> Z) (l : list A) (a : Z) :
  fold_left (fun sum x => sum + f x) l a
  = a + fold_left (fun sum x => sum + f x) l 0.
Proof.
  revert a. induction l as [|x l IH]; intros a; cbn [fold_left]; [lia|].
  rewrite (IH (a + f x)), (IH (0 + f x)). lia.
Qed.

Lemma spliceRows_pair_view (fuel : nat) (cables : list Cable)
    (circuit : Circuit) (p : string) (rows : list Home.PairRow) :
  Home.spliceRows fuel cables false circuit = Home.Finished (Home.PairRows p rows) ->
  Z.of_nat (length rows) = Z.max 0 (fiberEnd circuit - fiberStart circuit + 1).
Proof.
  unfold Home.spliceRows.
  destruct (match feedCableId circuit with Some _ => _ | None => _ end);
    [|discriminate].
  destruct (split dash _) as [|r0 [|r1 [|]]]; try discriminate.
  destruct (isEmpty r0 || isEmpty r1); [discriminate|].
  destruct (parseInt None (trim r0)) as [|rs]; [discriminate|].
  destruct (parseInt None (trim r1)) as [|re]; [discriminate|].
  destruct ((fiberStart circuit =? 0) || (fiberEnd circuit =? 0));
    [discriminate|].
  destruct (Home.pairRows circuit rs) as [rows'|] eqn:E; [|discriminate].
  intros [= _ <-]. unfold Home.pairRows in E.
  rewrite <- (length_mapM _ _ _ E), length_seqZ. lia.
Qed.

(** X25. In the pair view the number in the header of a tab, "Splices :
    N", is the number of rows below it whenever every circuit of the tab
    is rendered as pair rows (none as a message row) and no circuit has a
    reversed pair range. *)
Theorem pair_view_header_counts_rows (fuel : nat) (cables : list Cable)
    (circuits : list Circuit) (rs : list Home.Rendering) :
  Home.allFullBinders circuits = false ->
  Home.tabRows fuel cables false circuits = Home.Finished rs ->
  Forall (fun r => exists p rows, r = Home.PairRows p rows) rs ->
  Forall (fun c => fiberStart c <= fiberEnd c + 1) circuits ->
  foldr Z.add 0 (Home.rowCount <$> rs) = Home.totalSpliceRows circuits.
Proof.
  intros Hafb Hrun Hpair Hcount. unfold Home.totalSpliceRows. rewrite Hafb.
  clear Hafb. revert rs Hrun Hpair.
  induction circuits as [|c cs IH]; intros rs Hrun Hpair.
  - injection Hrun as <-. reflexivity.
  - cbn [Home.tabRows] in Hrun.
    destruct (Home.spliceRows fuel cables false c) as [r| |] eqn:Er;
      try discriminate.
    destruct (Home.tabRows fuel cables false cs) as [rs'| |] eqn:Ers;
      try discriminate.
    injection Hrun as <-. inversion Hpair as [|? ? (p & rows & ->) Hpair']; subst.
    inversion Hcount as [|? ? Hc Hcount']; subst.
    rewrite fmap_cons. cbn [foldr fold_left Home.rowCount].
    rewrite (IH Hcount' rs' eq_refl Hpair').
    rewrite (fold_left_add_shift (fun x => fiberEnd x - fiberStart x + 1) cs
               (0 + _)).
    rewrite (spliceRows_pair_view _ _ _ _ _ Er). lia.
Qed.

Lemma pair_view_header_counts_rows_witness :
  let c1 := mkCircuit "c2" "d1" "test,3-6" 0 1 4 1 (Some "f1") (Some 49)
              (Some 52) in
  let c2 := mkCircuit "c3" "d1" "pon,1-2" 1 5 6 1 (Some "f1") (Some 1)
              (Some 2) in
  exists rs,
    Home.spliceTab 0 [feedCable1; distCable1] [c1; c2] distCable1
    = Home.Finished rs
    /\ foldr Z.add 0 (Home.rowCount <$> rs) = 6
    /\ Home.totalSpliceRows [c1; c2] = 6.
Proof.
  intros c1 c2.
  destruct (Home.spliceTab 0 [feedCable1; distCable1] [c1; c2] distCable1)
    as [rs| |] eqn:E; try (vm_compute in E; discriminate).
  exists rs. split; [reflexivity|].
  assert (H : foldr Z.add 0 (Home.rowCount <$> rs) = Home.totalSpliceRows [c1; c2]).
  { apply (pair_view_header_counts_rows 0 [feedCable1; distCable1]).
    - reflexivity.
    - exact E.
    - vm_compute in E. injection E as <-.
      repeat constructor; eexists; eexists; reflexivity.
    - repeat constructor; simpl; lia. }
  split; [rewrite H|]; reflexivity.
Defined.

Lemma allDigits_noWhiteSpace (d : string) :
  allDigits d = true -> noWhiteSpace d = true.
Proof.
  induction d as [|c r IH]; [reflexivity|]. cbn.
  intros H. apply andb_true_iff in H as [Hc Hr].
  now rewrite (digit_not_space c Hc), IH.
Qed.

(** The range part of a well-formed identifier, split at its dash as the
    page does it. *)
Lemma split_dash_range (b d1 d2 : string) :
  digitsDashDigits (trim b) d1 d2 ->
  exists r0 r1,
    split dash b = [r0; r1] /\ trim r0 = d1 /\ trim r1 = d2.
Proof.
  intros (Hb & H1 & H2).
  assert (Hcount : countChar dash b = 1%nat).
  { rewrite <- (countChar_trim dash b) by reflexivity. rewrite Hb.
    change (String dash d2) with ("-" +:+ d2). rewrite !countChar_app.
    rewrite (proj1 (includes_countChar dash d1) (allDigits_no_dash d1 (proj2 H1))).
    rewrite (proj1 (includes_countChar dash d2) (allDigits_no_dash d2 (proj2 H2))).
    reflexivity. }
  pose proof (split_length dash b) as Hlen. rewrite Hcount in Hlen.
  destruct (split dash b) as [|r0 [|r1 [|]]] eqn:E; try discriminate.
  exists r0, r1. split; [reflexivity|].
  apply split_two in E as (-> & Hr0 & Hr1).
  unfold trim in Hb.
  rewrite trimStart_before, trimEnd_after in Hb by reflexivity.
  apply last_separator_unique in Hb as [Ha Hb];
    [|now apply includes_trimEnd | now apply allDigits_no_dash, H2].
  split.
  - unfold trim. rewrite Ha.
    now apply trimEnd_noWhiteSpace, allDigits_noWhiteSpace, H1.
  - unfold trim. rewrite <- trimStart_trimEnd, Hb.
    apply trimStart_fixed. destruct H2 as [Hne Hd]. destruct d2 as [|c r];
      [contradiction|]. cbn in *. apply andb_true_iff in Hd as [Hc _].
    now rewrite (digit_not_space c Hc).
Qed.

Lemma circuitNumber_rows (circuit : Circuit) (rs : Z) (l : list Z)
    (rows : list Home.PairRow) :
  Forall2 (fun i row => Home.pairRow circuit rs i = Some row) l rows ->
  Home.circuitNumber <$> rows = Z.add rs <$> l.
Proof.
  induction 1 as [|i row l rows H _ IH]; [reflexivity|].
  rewrite !fmap_cons, IH. f_equal.
  unfold Home.pairRow in H.
  repeat match type of H with
         | match ?x with Some _ => _ | None => _ end = _ =>
             destruct x; [|discriminate]
         end.
  now injection H as <-.
Qed.

(** X26. The page reads a well-formed identifier as the schema parses it:
    for a spliced circuit whose feed cable is known, whose identifier
    [parseCircuitIdParts] accepts and whose pairs start at pair 1 or later,
    the pair view renders pair rows (no message row), the prefix shown is
    the parsed prefix up to white space, and the circuit numbers of the
    rows count up from the parsed start of the range, one per pair. *)
Theorem page_reads_identifier_like_schema (fuel : nat) (cables : list Cable)
    (c : Circuit) (p : CircuitIdParts) (feed : string) (cab : Cable) :
  parseCircuitIdParts (circuitId c) = Some p ->
  feedCableId c = Some feed -> feed <> "" ->
  List.find (fun x => String.eqb (cable_id x) feed) cables = Some cab ->
  1 <= fiberStart c -> fiberEnd c <> 0 ->
  1 <= Home.orElse (feedFiberStart c) (fiberStart c) ->
  exists pre rows,
    Home.spliceRows fuel cables false c
    = Home.Finished (Home.PairRows pre rows)
    /\ trim pre = prefix p
    /\ Home.circuitNumber <$> rows
       = seqZ (rangeStart p) (fiberEnd c - fiberStart c + 1).
Proof.
  intros Hp Hfeed Hne Hcab Hs He Hf.
  apply parseCircuitIdParts_Some in Hp
    as (a & b & d1 & d2 & Hab & Hrange & ->).
  assert (Hsplit : split comma (circuitId c) = [a; b]) by now apply split_two.
  destruct (split_dash_range b d1 d2 Hrange) as (r0 & r1 & Hdash & Hr0 & Hr1).
  destruct Hrange as (_ & H1 & H2).
  unfold Home.spliceRows. rewrite Hfeed.
  destruct (isEmpty feed) eqn:Ef; [apply isEmpty_true in Ef; contradiction|].
  rewrite Hcab, Hsplit.
  cbn [lookup list_lookup default from_option Datatypes.id].
  rewrite Hdash.
  assert (isEmpty r0 = false) as ->.
  { destruct r0; [|reflexivity]. destruct H1 as [H1 _]. now subst d1. }
  assert (isEmpty r1 = false) as ->.
  { destruct r1; [|reflexivity]. destruct H2 as [H2 _]. now subst d2. }
  cbn [orb]. rewrite Hr0, Hr1.
  rewrite !parseInt_numeral by auto.
  destruct (Z.eqb_spec (fiberStart c) 0); [lia|].
  destruct (Z.eqb_spec (fiberEnd c) 0); [lia|]. cbn [orb].
  assert (Hsome : is_Some (Home.pairRows c (digitsValue d1))).
  { apply mapM_is_Some, Forall_forall. intros i Hi.
    apply elem_of_seqZ in Hi.
    destruct (pairRow_defined c (digitsValue d1) i Hs Hf ltac:(lia))
      as (row & Hrow & _).
    cbn. rewrite Hrow. now eexists. }
  destruct Hsome as [rows Hrows]. rewrite Hrows.
  exists a, rows. split; [reflexivity|]. split; [reflexivity|].
  cbn [rangeStart]. unfold Home.pairRows in Hrows. apply mapM_Some in Hrows.
  rewrite (circuitNumber_rows _ _ _ _ Hrows), fmap_add_seqZ.
  f_equal. lia.
Qed.

Lemma page_reads_identifier_like_schema_witness :
  let c := mkCircuit "c2" "d1" " test , 3-6 " 0 24 27 1 (Some "f1") (Some 49)
             (Some 52) in
  exists pre rows,
    Home.spliceRows 0 [feedCable1; distCable1] false c
    = Home.Finished (Home.PairRows pre rows)
    /\ trim pre = "test"
    /\ Home.circuitNumber <$> rows = [3; 4; 5; 6].
Proof.
  intros c.
  apply (page_reads_identifier_like_schema 0 [feedCable1; distCable1] c
           {| prefix := "test"; rangeStart := 3; rangeEnd := 6 |} "f1"
           feedCable1); try reflexivity; try discriminate; simpl; lia.
Defined.

(** ** The feed selection dialog of the fiber-based component *)

Lemma radixDigits_uint_acc (d : Decimal.uint) (acc : positive) :
  radixDigits 10 (Num (Z.pos acc)) (NilEmpty.string_of_uint d)
  = Num (Z.pos (Pos.of_uint_acc d acc)).
Proof.
  revert acc. induction d; intros acc; cbn [NilEmpty.string_of_uint Pos.of_uint_acc];
    [reflexivity|..];
    (cbn [radixDigits];
     match goal with
     | |- context [digitOfRadix 10 ?c] =>
         change (digitOfRadix 10 c)
           with (Some (code c - 48))
     end;
     rewrite <- IHd; do 2 f_equal;
     match goal with
     | |- context [code ?c] =>
         let v := eval vm_compute in (code c) in change (code c) with v
     end; lia).
Qed.

Lemma radixDigits_uint_0 (d : Decimal.uint) :
  radixDigits 10 (Num 0) (NilEmpty.string_of_uint d)
  = Num (Z.of_N (Pos.of_uint d)).
Proof.
  induction d; cbn [NilEmpty.string_of_uint Pos.of_uint]; [reflexivity|..];
    cbn [radixDigits];
    match goal with
    | |- context [digitOfRadix 10 ?c] =>
        change (digitOfRadix 10 c) with (Some (code c - 48))
    end;
    [exact IHd|..]; apply (radixDigits_uint_acc d).
Qed.

Lemma parseInt_uint (d : Decimal.uint) :
  d <> Decimal.Nil ->
  parseInt None (NilEmpty.string_of_uint d) = Num (Z.of_N (Pos.of_uint d)).
Proof.
  intros Hd.
  assert (H : parseInt None (NilEmpty.string_of_uint d)
              = numScale 1 (radixDigits 10 (Num 0) (NilEmpty.string_of_uint d))).
  { destruct d as [|d|d|d|d|d|d|d|d|d|d]; [contradiction|..];
      destruct d; reflexivity. }
  rewrite H, radixDigits_uint_0. cbn [numScale]. f_equal. lia.
Qed.

(** Reading back a number that was written with [toString]. *)
Lemma parseInt_showZ (z : Z) : 0 <= z -> parseInt None (showZ z) = Num z.
Proof.
  intros Hz. unfold showZ. destruct z as [|p|p]; [reflexivity| |lia].
  cbn [Z.to_int NilZero.string_of_int]. unfold NilZero.string_of_uint.
  pose proof (DecimalPos.Unsigned.to_uint_nonnil p) as Hn.
  destruct (Pos.to_uint p) eqn:E; [contradiction|..];
    rewrite <- E; (rewrite parseInt_uint by congruence);
    now rewrite DecimalPos.Unsigned.of_to.
Qed.

Lemma showZ_not_empty (z : Z) : 0 <= z -> isEmpty (showZ z) = false.
Proof.
  intros Hz. pose proof (parseInt_showZ z Hz) as H.
  destruct (showZ z); [discriminate H|reflexivity].
Qed.

Lemma fiber_position (p : Z) :
  1 <= p ->
  (FiberManagement.getRibbonNumber p - 1) * 12
  + FiberManagement.getFiberPositionInRibbon p = p
  /\ 1 <= FiberManagement.getFiberPositionInRibbon p <= 12
  /\ 1 <= FiberManagement.getRibbonNumber p.
Proof.
  intros H. unfold FiberManagement.getRibbonNumber,
    FiberManagement.getFiberPositionInRibbon, FiberManagement.ribbonSize, ceilDiv.
  rewrite Z.rem_mod_nonneg by lia.
  Z.to_euclidean_division_equations. lia.
Qed.

(** X27. Opening the feed selection dialog on a circuit that is already
    spliced and confirming it unchanged sends the feed cable and the first
    feed fiber back as they are stored. The last feed fiber comes back as
    stored exactly when it lies in the ribbon of the first one: the dialog
    keeps one ribbon number only, so the end of a range that runs into a
    later ribbon is moved back into the ribbon of its start. *)
Theorem feed_dialog_round_trip (cable : Cable)
    (st : FiberManagement.FeedSelection) (circuit : Circuit) (feed : string)
    (s e : Z) :
  cable_type cable = Distribution ->
  id circuit <> "" ->
  feedCableId circuit = Some feed -> feed <> "" ->
  feedFiberStart circuit = Some s -> feedFiberEnd circuit = Some e ->
  1 <= s -> 1 <= e ->
  FiberManagement.handleConfirmFeedSelection
    (fst (FiberManagement.handleCheckboxChange cable st circuit true))
  = Some (Mutate
            (ToggleSpliced (id circuit) (Some feed) (Some (Num s))
               (Some (Num ((FiberManagement.getRibbonNumber s - 1) * 12
                           + FiberManagement.getFiberPositionInRibbon e)))))
  /\ ((FiberManagement.getRibbonNumber s - 1) * 12
      + FiberManagement.getFiberPositionInRibbon e = e
      <-> FiberManagement.getRibbonNumber e = FiberManagement.getRibbonNumber s).
Proof.
  intros Hc Hid Hfeed Hne Hs He Hs1 He1.
  destruct (fiber_position s Hs1) as (Hps & Hrs & Hbs).
  destruct (fiber_position e He1) as (Hpe & Hre & Hbe).
  split; [|lia].
  unfold FiberManagement.handleCheckboxChange. rewrite Hc, Hs, He, Hfeed.
  unfold FiberManagement.truthy.
  destruct (Z.eqb_spec s 0); [lia|]. destruct (Z.eqb_spec e 0); [lia|].
  cbn [fst default from_option Datatypes.id].
  unfold FiberManagement.handleConfirmFeedSelection.
  cbn [FiberManagement.selectedFeedCableId FiberManagement.feedRibbon
       FiberManagement.feedStrandStart FiberManagement.feedStrandEnd
       FiberManagement.dialogCircuitId].
  assert (isEmpty feed = false) as ->
    by (destruct feed; [contradiction|reflexivity]).
  rewrite !showZ_not_empty by lia. cbn [orb].
  rewrite !parseInt_showZ by lia.
  assert (isEmpty (id circuit) = false) as ->
    by (destruct (id circuit); [contradiction|reflexivity]).
  cbn [numSub FiberManagement.numMul numAdd].
  unfold FiberManagement.ribbonSize at 1 2.
  do 5 f_equal. lia.
Qed.

Lemma feed_dialog_round_trip_witness :
  let c := mkCircuit "c2" "d1" "test,1-6" 0 1 6 1 (Some "f1") (Some 10)
             (Some 15) in
  let st := FiberManagement.mkFeedSelection false None "" "" "" "" in
  FiberManagement.handleConfirmFeedSelection
    (fst (FiberManagement.handleCheckboxChange distCable1 st c true))
  = Some (Mutate (ToggleSpliced "c2" (Some "f1") (Some (Num 10))
                    (Some (Num 3))))
  /\ FiberManagement.getRibbonNumber 15 <> FiberManagement.getRibbonNumber 10.
Proof.
  intros c st.
  destruct (feed_dialog_round_trip distCable1 st c "f1" 10 15) as [H _];
    try reflexivity; try discriminate; try lia.
  split; [exact H | discriminate].
Defined.
